(** * Pilot-WeeklyReport: deduplication, posterior classification, warehouse

    A shallow embedding of the parts of the weekly-report pipeline that carry
    its contract, with the properties proved of them:

    - [PyStr], [PyDict], [StableSort] : the Python values the code relies on
      (strings as code points, [str.format], [defaultdict(list)], the stable
      [list.sort])
    - [Similarity]      : [shingles], [jaccard], [hamdist64] / [hamming64]
                          (src/post_process_dedup.py, src/utils/simhash_utils.py)
    - [BatchDedup]      : [candidate_pairs] (src/post_process_dedup.py)
    - [SemanticConfirm] : [llm_confirm] and the edge confirmation loop of
                          [main] (src/post_process_dedup.py)
    - [WithinSource]    : [drop_near_duplicates_within_source]
                          (src/utils/simhash_utils.py)
    - [Posterior]       : [posterior_category_with_priors], the label coercion
                          of [analyze_article_llm] and the guard of
                          [analyze_and_bucket]
                          (src/llm/analyze_article.py, src/pipeline/bucketizer.py)
    - [Warehouse]       : [refresh_dws], [refresh_ads] (src/warehouse.py)

    Conventions.  Python [float]s and SQLite [REAL]s are idealised as exact
    rationals ([Q]); Python [str] is a [string] of UTF-8 bytes (substring
    tests on UTF-8 bytes agree with substring tests on code points, and
    lengths are counted in code points); a Python [set] of strings is a
    [gset string]; a [dict] whose iteration order matters is an association
    list in insertion order; a raised exception is the [Raise] case of
    [result]. *)

From Stdlib Require Import ZArith QArith Qminmax Lia Lqa Ascii String.
From stdpp Require Import gmap strings list sorting.

Local Open Scope string_scope.
Local Open Scope list_scope.
Local Open Scope Z_scope.

(* ===================================================================== *)
(** ** Python values: exceptions and strings *)
(* ===================================================================== *)

(** The exceptions that the modelled code can raise. *)
Inductive exn : Type :=
  | KeyError (key : string)
  | ValueError (msg : string)
  | IndexError (msg : string)
  | IntegrityError (msg : string)
  | OtherError (msg : string).

(** [str(e)] for the exceptions above ([str(KeyError(k))] is [repr(k)],
    written here with single quotes). *)
Definition exn_str (e : exn) : string :=
  match e with
  | KeyError k => ("'" ++ k ++ "'")%string
  | ValueError m | IndexError m | IntegrityError m | OtherError m => m
  end.

Inductive result (A : Type) : Type :=
  | Ok (a : A)
  | Raise (e : exn).
Arguments Ok {A} a.
Arguments Raise {A} e.

(** Sequencing: an exception raised by the first computation propagates.
    With these instances stdpp's [x ← r; k] notation is available. *)
#[global] Instance result_ret : MRet result := fun A a => Ok a.
#[global] Instance result_bind : MBind result := fun A B k r =>
  match r with
  | Ok a => k a
  | Raise e => Raise e
  end.

Module PyStr.

Definition dquote : string := String "034"%char EmptyString.
Definition newline : string := String "010"%char EmptyString.

(** A UTF-8 continuation byte has the form [10xxxxxx]. *)
Definition is_continuation (c : ascii) : bool :=
  match c with
  | Ascii _ _ _ _ _ _ b6 b7 => b7 && negb b6
  end.

(** [len(s)]: Python counts code points, i.e. the bytes that start one. *)
Fixpoint py_len (s : string) : nat :=
  match s with
  | EmptyString => 0%nat
  | String c r => if is_continuation c then py_len r else S (py_len r)
  end.

(** [s[:n]]: the first [n] code points. *)
Fixpoint py_take (n : nat) (s : string) : string :=
  match s with
  | EmptyString => EmptyString
  | String c r =>
      if is_continuation c then String c (py_take n r)
      else match n with
           | O => EmptyString
           | S m => String c (py_take m r)
           end
  end.

(** [s[n:]]: what follows the first [n] code points. *)
Fixpoint py_drop (n : nat) (s : string) : string :=
  match s with
  | EmptyString => EmptyString
  | String c r =>
      if is_continuation c then py_drop n r
      else match n with
           | O => s
           | S m => py_drop m r
           end
  end.

(** [s.replace(" ", "")] *)
Fixpoint remove_spaces (s : string) : string :=
  match s with
  | EmptyString => EmptyString
  | String c r =>
      if Ascii.eqb c " " then remove_spaces r else String c (remove_spaces r)
  end.

(** [x or d] for an optional string: [None] and the empty string are
    falsy. *)
Definition str_or (x : option string) (d : string) : string :=
  match x with
  | Some s => if String.eqb s EmptyString then d else s
  | None => d
  end.

(** [str.lower] on ASCII letters. *)
Definition ascii_lower (c : ascii) : ascii :=
  let n := nat_of_ascii c in
  if (65 <=? n)%nat && (n <=? 90)%nat then ascii_of_nat (n + 32) else c.

Fixpoint lower_ascii (s : string) : string :=
  match s with
  | EmptyString => EmptyString
  | String c r => String (ascii_lower c) (lower_ascii r)
  end.

(** [needle in hay] for strings. *)
Fixpoint str_in (needle hay : string) : bool :=
  String.prefix needle hay ||
  match hay with
  | EmptyString => false
  | String _ r => str_in needle r
  end.

(** [kwargs[name]] *)
Fixpoint kw_get (name : string) (kw : list (string * string)) : option string :=
  match kw with
  | [] => None
  | (k, v) :: r => if String.eqb k name then Some v else kw_get name r
  end.

(** [str.format] with keyword arguments, restricted to what the templates of this program
    use: literal text, the escapes [{{] and [}}], and replacement fields
    [{name}] / [{name:spec}] looked up by keyword.  A field whose name is
    not a keyword raises [KeyError(name)]; this is where the scan stops, as
    in Python, which resolves fields from left to right.  Values are [str],
    for which only the empty format spec is modelled. *)
Inductive fmt_state : Type :=
  | FLit
  | FName (acc : string)
  | FSpec (name acc : string).

Definition snoc_char (s : string) (c : ascii) : string :=
  (s ++ String c EmptyString)%string.

Fixpoint format_go (kw : list (string * string)) (st : fmt_state)
    (out s : string) : result string :=
  match s with
  | EmptyString =>
      match st with
      | FLit => Ok out
      | _ => Raise (ValueError "expected '}' before end of string")
      end
  | String c r =>
      match st with
      | FLit =>
          if Ascii.eqb c "{" then
            match r with
            | String c2 r2 =>
                if Ascii.eqb c2 "{" then format_go kw FLit (snoc_char out c) r2
                else format_go kw (FName EmptyString) out r
            | EmptyString => format_go kw (FName EmptyString) out r
            end
          else if Ascii.eqb c "}" then
            match r with
            | String c2 r2 =>
                if Ascii.eqb c2 "}" then format_go kw FLit (snoc_char out c) r2
                else Raise (ValueError "Single '}' encountered in format string")
            | EmptyString =>
                Raise (ValueError "Single '}' encountered in format string")
            end
          else format_go kw FLit (snoc_char out c) r
      | FName acc =>
          if Ascii.eqb c "}" then
            match kw_get acc kw with
            | Some v => format_go kw FLit (out ++ v)%string r
            | None => Raise (KeyError acc)
            end
          else if Ascii.eqb c ":" then format_go kw (FSpec acc EmptyString) out r
          else format_go kw (FName (snoc_char acc c)) out r
      | FSpec name acc =>
          if Ascii.eqb c "}" then
            match kw_get name kw with
            | Some v =>
                if String.eqb acc EmptyString then format_go kw FLit (out ++ v)%string r
                else Raise (ValueError "Invalid format specifier")
            | None => Raise (KeyError name)
            end
          else format_go kw (FSpec name (snoc_char acc c)) out r
      end
  end.

Definition py_format (tmpl : string) (kw : list (string * string)) : result string :=
  format_go kw FLit EmptyString tmpl.

Example py_format_fields :
  py_format "A: {a} B: {b}" [("a", "x"); ("b", "y")] = Ok "A: x B: y".
Proof. reflexivity. Qed.

Example py_format_escaped :
  py_format "{{k}}: {a}" [("a", "x")] = Ok "{k}: x".
Proof. reflexivity. Qed.

Example py_format_unknown_field :
  py_format "{k}: {a}" [("a", "x")] = Raise (KeyError "k").
Proof. reflexivity. Qed.

Example py_len_han : py_len "要闻 ok" = 5%nat.
Proof. reflexivity. Qed.

Example str_in_han : str_in "方法" "运营/研发/投放方法论" = true.
Proof. reflexivity. Qed.

End PyStr.

(* ===================================================================== *)
(** ** [defaultdict(list)] *)
(* ===================================================================== *)

Module PyDict.

Section DefaultDictOfLists.
Context {K V : Type} `{EqDecision K} (key : V → K).

(** [d[k].append(v)] on a [defaultdict(list)], kept as an association list
    in insertion order of the keys (the order in which [d.items()]
    iterates). *)
Fixpoint dd_append (k : K) (v : V) (d : list (K * list V)) : list (K * list V) :=
  match d with
  | [] => [(k, [v])]
  | (k0, l) :: r =>
      if decide (k0 = k) then (k0, l ++ [v]) :: r
      else (k0, l) :: dd_append k v r
  end.

(** Grouping a list by a key, one [append] per element: the dictionary has
    one entry per key that occurs, holding the elements with that key in
    the order of the list. *)
Definition dd_group (l : list V) : list (K * list V) :=
  fold_left (λ d x, dd_append (key x) x d) l [].

Lemma dd_append_keys k v d :
  ∀ k', k' ∈ (dd_append k v d).*1 ↔ k' = k ∨ k' ∈ d.*1.
Proof.
  induction d as [| [k0 l0] r IH]; intros k'; simpl.
  - rewrite list_elem_of_singleton, elem_of_nil. tauto.
  - destruct (decide (k0 = k)) as [-> | Hne]; simpl.
    + rewrite !elem_of_cons. tauto.
    + rewrite !elem_of_cons, IH. tauto.
Qed.

Lemma dd_append_NoDup k v d :
  NoDup d.*1 → NoDup (dd_append k v d).*1.
Proof.
  induction d as [| [k0 l0] r IH]; simpl; intros Hnd.
  - apply NoDup_singleton.
  - apply NoDup_cons in Hnd as [Hk0 Hr].
    destruct (decide (k0 = k)) as [-> | Hne]; simpl.
    + now apply NoDup_cons.
    + apply NoDup_cons. split; [| now apply IH].
      rewrite dd_append_keys. intros [-> | H]; [congruence | contradiction].
Qed.

Lemma dd_append_elem k v d k' l :
  NoDup d.*1 →
  (k', l) ∈ dd_append k v d ↔
    (k' ≠ k ∧ (k', l) ∈ d)
    ∨ (k' = k ∧ ((∃ l0, (k, l0) ∈ d ∧ l = l0 ++ [v])
                 ∨ ((k ∉ d.*1) ∧ l = [v]))).
Proof.
  induction d as [| [k0 l0] r IH]; simpl; intros Hnd.
  - rewrite list_elem_of_singleton. split.
    + intros [= -> ->]. right. split; [reflexivity|]. right.
      split; [apply not_elem_of_nil | reflexivity].
    + intros [[_ H] | [-> [(l1 & H & _) | [_ ->]]]];
        try (now apply elem_of_nil in H); reflexivity.
  - apply NoDup_cons in Hnd as [Hk0 Hr].
    destruct (decide (k0 = k)) as [-> | Hne].
    + rewrite elem_of_cons. split.
      * intros [[= -> ->] | Hin].
        -- right. split; [reflexivity|]. left. exists l0.
           split; [apply list_elem_of_here | reflexivity].
        -- left. split; [| now apply list_elem_of_further].
           intros ->. apply Hk0.
           apply list_elem_of_fmap. exists (k, l). now split.
      * intros [[Hh Hin] | [-> [(l1 & Hin & ->) | [Hno _]]]].
        -- apply elem_of_cons in Hin as [[= -> ->] | Hin]; [congruence | now right].
        -- apply elem_of_cons in Hin as [[= ->] | Hin]; [now left |].
           exfalso. apply Hk0. apply list_elem_of_fmap. exists (k, l1). now split.
        -- exfalso. apply Hno. apply list_elem_of_here.
    + rewrite elem_of_cons, (IH Hr). rewrite not_elem_of_cons. simpl.
      split.
      * intros [[= -> ->] | [[Hh Hin] | [-> [(l1 & Hin & ->) | [Hno ->]]]]].
        -- left. split; [congruence | apply list_elem_of_here].
        -- left. split; [assumption | now apply list_elem_of_further].
        -- right. split; [reflexivity|]. left. exists l1.
           split; [now apply list_elem_of_further | reflexivity].
        -- right. split; [reflexivity|]. right. split; [|reflexivity].
           split; [congruence | assumption].
      * intros [[Hh Hin] | [-> [(l1 & Hin & ->) | [[_ Hno] ->]]]].
        -- apply elem_of_cons in Hin as [[= -> ->] | Hin]; [now left |].
           right. left. now split.
        -- apply elem_of_cons in Hin as [[= ? ?] | Hin]; [congruence |].
           right. right. split; [reflexivity|]. left. now exists l1.
        -- right. right. split; [reflexivity|]. right. now split.
Qed.

Lemma dd_group_snoc l x :
  dd_group (l ++ [x]) = dd_append (key x) x (dd_group l).
Proof. unfold dd_group. now rewrite fold_left_app. Qed.

Lemma dd_group_spec l :
  NoDup (dd_group l).*1
  ∧ ∀ k part, (k, part) ∈ dd_group l ↔
              part ≠ [] ∧ part = filter (λ x, key x = k) l.
Proof.
  induction l as [| x l [Hnd Hbs]] using rev_ind.
  - split; [constructor|]. intros k part. unfold dd_group. simpl.
    rewrite elem_of_nil. split; [tauto|]. intros [H ->]. now apply H.
  - rewrite dd_group_snoc. split; [now apply dd_append_NoDup|].
    intros k part. rewrite (dd_append_elem _ _ _ _ _ Hnd), filter_app.
    rewrite filter_cons, filter_nil.
    destruct (decide (k = key x)) as [-> | Hne].
    + rewrite decide_True by reflexivity. split.
      * intros [[Hh _] | [_ [(l0 & Hin & ->) | [Hno ->]]]]; [congruence | |].
        -- apply Hbs in Hin as [_ <-]. split; [|reflexivity].
           intros H. now apply app_eq_nil in H as [_ H].
        -- split; [discriminate|].
           destruct (filter (λ y, key y = key x) l) as [| y ys] eqn:E;
             [reflexivity|].
           exfalso. apply Hno. apply list_elem_of_fmap.
           exists (key x, y :: ys). split; [reflexivity|].
           apply Hbs. split; [discriminate | now rewrite E].
      * intros [_ ->]. right. split; [reflexivity|].
        destruct (filter (λ y, key y = key x) l) as [| y ys] eqn:E.
        -- right. split; [|reflexivity]. intros Hin.
           apply list_elem_of_fmap in Hin as ([h' l'] & Hh & Hin).
           simpl in Hh. subst h'.
           apply Hbs in Hin as [Hl' ->]. now rewrite E in Hl'.
        -- left. exists (y :: ys). split; [|reflexivity].
           apply Hbs. split; [discriminate | now rewrite E].
    + rewrite decide_False by congruence. rewrite app_nil_r, <- Hbs. split.
      * intros [[_ H] | [Hh _]]; [assumption | contradiction].
      * intros H. left. now split.
Qed.

(** The groups together hold the elements of the list. *)
Lemma dd_append_concat k (v : V) (d : list (K * list V)) :
  concat (dd_append k v d).*2 ≡ₚ concat d.*2 ++ [v].
Proof.
  induction d as [| [k0 l0] r IH]; simpl; [reflexivity|].
  destruct (decide (k0 = k)); simpl.
  - rewrite <- !app_assoc. apply Permutation_app_head, Permutation_app_comm.
  - now rewrite IH, app_assoc.
Qed.

Lemma dd_group_concat l : concat (dd_group l).*2 ≡ₚ l.
Proof.
  induction l as [| x l IH] using rev_ind; [reflexivity|].
  now rewrite dd_group_snoc, dd_append_concat, IH.
Qed.

End DefaultDictOfLists.

End PyDict.

(* ===================================================================== *)
(** ** Stable sorting *)
(* ===================================================================== *)

Module StableSort.

(** [list.sort(key=...)] is stable; with [reverse=True] equal keys also keep
    their original order.  [before x y] tells whether [x], which stood
    before [y], stays in front of it. *)
Section Sort.
Context {A : Type} (before : A → A → bool).

Fixpoint sort_insert (x : A) (l : list A) : list A :=
  match l with
  | [] => [x]
  | y :: r => if before x y then x :: y :: r else y :: sort_insert x r
  end.

Definition py_sort (l : list A) : list A := foldr sort_insert [] l.

Lemma sort_insert_perm x l : sort_insert x l ≡ₚ x :: l.
Proof.
  induction l as [| y r IH]; simpl; [reflexivity|].
  destruct (before x y); [reflexivity|].
  rewrite IH. apply perm_swap.
Qed.

Lemma py_sort_perm l : py_sort l ≡ₚ l.
Proof.
  induction l as [| x r IH]; simpl; [reflexivity|].
  now rewrite sort_insert_perm, IH.
Qed.

(** For a total and transitive [before], the result is ordered. *)
Hypothesis before_total : ∀ x y, before x y = true ∨ before y x = true.
Hypothesis before_trans :
  ∀ x y z, before x y = true → before y z = true → before x z = true.

Lemma sort_insert_sorted x l :
  StronglySorted (λ a b, before a b = true) l →
  StronglySorted (λ a b, before a b = true) (sort_insert x l).
Proof.
  induction 1 as [| y r Hs IH Hall]; simpl.
  - repeat constructor.
  - destruct (before x y) eqn:E.
    + constructor; [now constructor|].
      constructor; [assumption|].
      eapply Forall_impl; [exact Hall|]. intros z Hz. now apply (before_trans x y z).
    + constructor; [assumption|].
      assert (Hyx : before y x = true).
      { destruct (before_total x y) as [H | H]; [congruence | assumption]. }
      apply Forall_forall. intros z Hz.
      rewrite sort_insert_perm in Hz. apply elem_of_cons in Hz as [-> | Hz];
        [assumption|].
      rewrite Forall_forall in Hall. now apply Hall.
Qed.

Lemma py_sort_sorted l : StronglySorted (λ a b, before a b = true) (py_sort l).
Proof.
  induction l as [| x r IH]; simpl; [constructor|].
  now apply sort_insert_sorted.
Qed.

End Sort.

End StableSort.

(* ===================================================================== *)
(** ** Similarity primitives *)
(* ===================================================================== *)

Module Similarity.

(** [jaccard] of src/post_process_dedup.py:
<<
    if not a or not b: return 0.0
    inter = len(a & b)
    if inter == 0: return 0.0
    return inter / float(len(a | b))
>> *)
Definition jaccard (a b : gset string) : Q :=
  if bool_decide (a = ∅) || bool_decide (b = ∅) then 0%Q
  else
    let inter := size (a ∩ b) in
    if Nat.eqb inter 0 then 0%Q
    else (inject_Z (Z.of_nat inter) / inject_Z (Z.of_nat (size (a ∪ b))))%Q.

(** [shingles] of src/post_process_dedup.py:
<<
    if not s: return set()
    s = s.replace(" ", "")
    if len(s) <= k: return {s}
    return {s[i:i+k] for i in range(len(s)-k+1)}
>> *)
Definition shingles (s : string) (k : nat) : gset string :=
  if String.eqb s "" then ∅
  else
    let s := PyStr.remove_spaces s in
    if (PyStr.py_len s <=? k)%nat then {[ s ]}
    else
      list_to_set
        ((λ i, PyStr.py_take k (PyStr.py_drop i s))
           <$> seq 0 (PyStr.py_len s - k + 1)).

(** [int.bit_count()]: number of ones in the binary expansion of the
    absolute value. *)
Fixpoint pos_bit_count (p : positive) : nat :=
  match p with
  | xH => 1%nat
  | xO q => pos_bit_count q
  | xI q => S (pos_bit_count q)
  end.

Definition bit_count (z : Z) : Z :=
  match z with
  | Z0 => 0
  | Zpos p | Zneg p => Z.of_nat (pos_bit_count p)
  end.

(** [hamdist64] (post_process_dedup.py) and [hamming64] (simhash_utils.py)
    have the same body: [(a ^ b).bit_count()]. *)
Definition hamdist64 (a b : Z) : Z := bit_count (Z.lxor a b).
Definition hamming64 (a b : Z) : Z := bit_count (Z.lxor a b).

Example shingles_short : shingles "a b c" 8 = {[ "abc" ]}.
Proof. reflexivity. Qed.

Example shingles_windows :
  shingles "weekly report" 8
  = {[ "weeklyre"; "eeklyrep"; "eklyrepo"; "klyrepor"; "lyreport" ]}.
Proof. vm_compute. reflexivity. Qed.

Lemma bit_count_nonneg z : 0 <= bit_count z.
Proof. destruct z; simpl; lia. Qed.

Lemma hamming64_refl a : hamming64 a a = 0.
Proof. unfold hamming64. now rewrite Z.lxor_nilpotent. Qed.

Lemma hamming64_sym a b : hamming64 a b = hamming64 b a.
Proof. unfold hamming64. now rewrite Z.lxor_comm. Qed.

(** Size facts used for the Jaccard bounds. *)
Lemma size_inter_le_union (a b : gset string) :
  (size (a ∩ b) <= size (a ∪ b))%nat.
Proof.
  apply subseteq_size. intros x Hx.
  apply elem_of_intersection in Hx. apply elem_of_union. tauto.
Qed.

Lemma size_pos_of_nonempty (a : gset string) : a ≠ ∅ → (0 < size a)%nat.
Proof.
  intros Hne. destruct (size a) eqn:E; [|lia].
  exfalso. apply Hne. apply leibniz_equiv. now apply size_empty_inv.
Qed.

Lemma jaccard_empty (a b : gset string) :
  a = ∅ ∨ b = ∅ → jaccard a b = 0%Q.
Proof.
  intros [-> | ->]; unfold jaccard.
  - now rewrite bool_decide_eq_true_2.
  - rewrite (bool_decide_eq_true_2 (∅ = ∅)) by reflexivity.
    now rewrite orb_true_r.
Qed.

Lemma jaccard_nonempty (a b : gset string) :
  a ≠ ∅ → b ≠ ∅ →
  (jaccard a b ==
   inject_Z (Z.of_nat (size (a ∩ b))) / inject_Z (Z.of_nat (size (a ∪ b))))%Q.
Proof.
  intros Ha Hb. unfold jaccard.
  rewrite !bool_decide_eq_false_2 by assumption. simpl.
  destruct (Nat.eqb_spec (size (a ∩ b)) 0) as [E | E]; [|reflexivity].
  rewrite E. simpl. unfold Qdiv. now rewrite Qmult_0_l.
Qed.

Lemma ratio_bounds (n m : nat) :
  (n <= m)%nat → (0 < m)%nat →
  (0 <= inject_Z (Z.of_nat n) / inject_Z (Z.of_nat m) <= 1)%Q.
Proof.
  intros Hnm Hm.
  assert (Hm' : (0 < inject_Z (Z.of_nat m))%Q).
  { change 0%Q with (inject_Z 0). rewrite <- Zlt_Qlt. lia. }
  assert (Hn' : (0 <= inject_Z (Z.of_nat n))%Q).
  { change 0%Q with (inject_Z 0). rewrite <- Zle_Qle. lia. }
  split.
  - apply Qle_shift_div_l; [assumption|]. now rewrite Qmult_0_l.
  - apply Qle_shift_div_r; [assumption|]. rewrite Qmult_1_l.
    rewrite <- Zle_Qle. lia.
Qed.

Lemma jaccard_diag (a : gset string) : a ≠ ∅ → (jaccard a a == 1)%Q.
Proof.
  intros Ha. rewrite (jaccard_nonempty a a) by assumption.
  rewrite (idemp_L (∩) a), (idemp_L (∪) a).
  apply Qmult_inv_r. intros H.
  apply size_pos_of_nonempty in Ha.
  unfold Qeq in H. simpl in H. lia.
Qed.

(** C8.  For all shingle sets [A] and [B], [jaccard A B] equals
    |A∩B| / |A∪B| (the quotient being 0 when the union is empty), lies in
    [[0,1]], is 1 on the diagonal for non-empty [A], and is 0 as soon as one
    of the two sets is empty. *)
Theorem jaccard_spec (A B : gset string) :
  (jaccard A B ==
     inject_Z (Z.of_nat (size (A ∩ B))) / inject_Z (Z.of_nat (size (A ∪ B))))%Q
  ∧ (0 <= jaccard A B <= 1)%Q
  ∧ (A ≠ ∅ → (jaccard A A == 1)%Q)
  ∧ (A = ∅ ∨ B = ∅ → (jaccard A B == 0)%Q).
Proof.
  destruct (decide (A = ∅)) as [HA | HA];
    [| destruct (decide (B = ∅)) as [HB | HB]].
  - subst A. rewrite (jaccard_empty ∅ B) by now left.
    repeat split; try easy.
    rewrite (left_absorb_L ∅ (∩)), size_empty. simpl.
    unfold Qdiv. now rewrite Qmult_0_l.
  - subst B. rewrite (jaccard_empty A ∅) by now right.
    repeat split; try easy.
    + rewrite (right_absorb_L ∅ (∩)), size_empty. simpl.
      unfold Qdiv. now rewrite Qmult_0_l.
    + intros _. now apply jaccard_diag.
  - pose proof (jaccard_nonempty A B HA HB) as E.
    assert (Hu : (0 < size (A ∪ B))%nat).
    { apply size_pos_of_nonempty. intros H. apply HA.
      apply empty_union_L in H. tauto. }
    pose proof (ratio_bounds _ _ (size_inter_le_union A B) Hu) as Hb.
    repeat split.
    + exact E.
    + rewrite E. apply Hb.
    + rewrite E. apply Hb.
    + intros _. now apply jaccard_diag.
    + intros [H | H]; contradiction.
Qed.

Lemma jaccard_spec_witness :
  (jaccard {["weeklyre"; "eeklyrep"]} {["weeklyre"; "eeklyrep"]} == 1)%Q
  ∧ (jaccard ∅ {["weeklyre"]} == 0)%Q.
Proof.
  split.
  - apply (jaccard_spec {["weeklyre"; "eeklyrep"]} ∅).
    intros H. apply (f_equal size) in H. vm_compute in H. discriminate.
  - apply (jaccard_spec ∅ {["weeklyre"]}). left. reflexivity.
Defined.

End Similarity.

(* ===================================================================== *)
(** ** Batch clean-up of a rendered report (src/post_process_dedup.py) *)
(* ===================================================================== *)

Module BatchDedup.
Import PyStr PyDict Similarity.

(** The [Item] dataclass after [prepare()]: [norm], [sh] and [shing] hold
    the normalised text, its fingerprint and its shingle set. *)
Record Item : Type := mkItem {
  id : string;
  title : string;
  text : string;
  url : string;
  date : string;
  source_id : string;
  raw : string;
  norm : string;
  sh : Z;
  shing : gset string
}.

#[global] Instance Item_eq_dec : EqDecision Item.
Proof. solve_decision. Defined.

Section CandidatePairs.

(** [urllib.parse.urlparse(u).netloc] *)
Variable netloc : string → string.

(** [host = urlparse(it.url).netloc if it.url else ""] *)
Definition host_of (it : Item) : string :=
  if String.eqb (url it) "" then "" else netloc (url it).

Definition enumerate {A : Type} (l : list A) : list (nat * A) :=
  combine (seq 0 (length l)) l.

Definition build_buckets (items : list Item) : list (string * list nat) :=
  fold_left (fun bs p => dd_append (host_of p.2) p.1 bs) (enumerate items) [].

Variable items : list Item.
Variable jaccard_th : Q.
Variable ham_th : Z.

(** The body of the inner loop of [add_pairs]: three [continue] guards,
    then the pair is appended. *)
Definition pair_passes (A B : Item) : bool :=
  if 200 <? Z.abs (Z.of_nat (py_len (norm A)) - Z.of_nat (py_len (norm B)))
  then false
  else if negb (Qle_bool jaccard_th (jaccard (shing A) (shing B))) then false
  else if ham_th <? hamdist64 (sh A) (sh B) then false
  else true.

Definition index_passes (ia ib : nat) : bool :=
  match items !! ia, items !! ib with
  | Some A, Some B => pair_passes A B
  | _, _ => false
  end.

Definition add_pairs_inner (ia : nat) (rest : list nat) : list (nat * nat) :=
  (λ ib, (ia, ib)) <$> filter (λ ib, index_passes ia ib = true) rest.

Fixpoint add_pairs (indices : list nat) : list (nat * nat) :=
  match indices with
  | [] => []
  | ia :: rest => add_pairs_inner ia rest ++ add_pairs rest
  end.

Definition candidate_pairs : list (nat * nat) :=
  let buckets := build_buckets items in
  let by_host :=
    flat_map (λ hb, if (1 <? length hb.2)%nat then add_pairs hb.2 else [])
             buckets in
  let overall :=
    if (length items <=? 400)%nat then add_pairs (seq 0 (length items))
    else [] in
  by_host ++ overall.

(** *** Buckets hold, per host, the increasing list of indices with that host *)

Definition indices_of_host (hosts : list string) (h : string) (k : nat) : list nat :=
  filter (λ i, hosts !! i = Some h) (seq 0 k).

Definition buckets_inv (hosts : list string) (k : nat)
    (bs : list (string * list nat)) : Prop :=
  NoDup bs.*1 ∧
  ∀ h l, (h, l) ∈ bs ↔ l ≠ [] ∧ l = indices_of_host hosts h k.

(** The three threshold conditions, as propositions. *)
Definition similar (A B : Item) : Prop :=
  Z.abs (Z.of_nat (py_len (norm A)) - Z.of_nat (py_len (norm B))) <= 200
  ∧ (jaccard_th <= jaccard (shing A) (shing B))%Q
  ∧ hamdist64 (sh A) (sh B) <= ham_th.

Lemma indices_of_host_S hosts h k :
  indices_of_host hosts h (S k) =
  indices_of_host hosts h k ++ (if decide (hosts !! k = Some h) then [k] else []).
Proof.
  unfold indices_of_host. rewrite seq_S, filter_app. reflexivity.
Qed.

Lemma buckets_inv_step hosts k h0 bs :
  hosts !! k = Some h0 →
  buckets_inv hosts k bs →
  buckets_inv hosts (S k) (dd_append h0 k bs).
Proof.
  intros Hk [Hnd Hbs]. split; [now apply dd_append_NoDup|].
  intros h l. rewrite (dd_append_elem _ _ _ _ _ Hnd), indices_of_host_S.
  destruct (decide (h = h0)) as [-> | Hne].
  - rewrite decide_True by assumption. split.
    + intros [[Hh _] | [_ [(l0 & Hin & ->) | [Hno ->]]]]; [congruence | |].
      * apply Hbs in Hin as [_ <-]. split; [|reflexivity].
        intros H. now apply app_eq_nil in H as [_ H].
      * split; [discriminate|].
        destruct (indices_of_host hosts h0 k) as [| x xs] eqn:E; [reflexivity|].
        exfalso. apply Hno. apply list_elem_of_fmap. exists (h0, x :: xs).
        split; [reflexivity|]. apply Hbs. split; [discriminate | now rewrite E].
    + intros [_ ->]. right. split; [reflexivity|].
      destruct (indices_of_host hosts h0 k) as [| x xs] eqn:E.
      * right. split; [|reflexivity]. intros Hin.
        apply list_elem_of_fmap in Hin as ([h' l'] & Hh & Hin). simpl in Hh. subst h'.
        apply Hbs in Hin as [Hl' ->]. now rewrite E in Hl'.
      * left. exists (x :: xs). split; [|reflexivity].
        apply Hbs. split; [discriminate | now rewrite E].
  - rewrite decide_False by congruence. rewrite app_nil_r, <- Hbs. split.
    + intros [[_ H] | [Hh _]]; [assumption | contradiction].
    + intros H. left. now split.
Qed.

Lemma build_buckets_from pre suf bs :
  buckets_inv (host_of <$> (pre ++ suf)) (length pre) bs →
  buckets_inv (host_of <$> (pre ++ suf)) (length (pre ++ suf))
    (fold_left (fun bs p => dd_append (host_of p.2) p.1 bs)
               (combine (seq (length pre) (length suf)) suf) bs).
Proof.
  revert pre bs. induction suf as [| x suf IH]; intros pre bs Hinv; simpl.
  - rewrite app_nil_r in Hinv |- *. exact Hinv.
  - replace (pre ++ x :: suf) with ((pre ++ [x]) ++ suf) in *
      by now rewrite <- app_assoc.
    replace (S (length pre)) with (length (pre ++ [x]))
      by (rewrite length_app; simpl; lia).
    apply IH.
    replace (length (pre ++ [x])) with (S (length pre))
      by (rewrite length_app; simpl; lia).
    apply buckets_inv_step; [| assumption].
    rewrite list_lookup_fmap, <- app_assoc. simpl.
    now rewrite list_lookup_middle.
Qed.

Lemma build_buckets_inv its :
  buckets_inv (host_of <$> its) (length its) (build_buckets its).
Proof.
  apply (build_buckets_from [] its []). split; [constructor|].
  intros h l. unfold indices_of_host. simpl. rewrite elem_of_nil. tauto.
Qed.

(** *** The nested loops of [add_pairs] over an increasing index list *)

Lemma seq_increasing (s n : nat) : StronglySorted lt (seq s n).
Proof.
  revert s. induction n as [| n IH]; intros s; simpl; constructor.
  - apply IH.
  - apply Forall_forall. intros x Hx. apply elem_of_seq in Hx. lia.
Qed.

Lemma filter_increasing (P : nat → Prop) `{∀ x, Decision (P x)} (l : list nat) :
  StronglySorted lt l → StronglySorted lt (filter P l).
Proof.
  induction 1 as [| x l Hs IH Hall]; [constructor|].
  rewrite filter_cons. destruct (decide (P x)); [|assumption].
  constructor; [assumption|].
  apply Forall_forall. intros y Hy. apply list_elem_of_filter in Hy as [_ Hy].
  rewrite Forall_forall in Hall. now apply Hall.
Qed.

Lemma add_pairs_inner_elem ia rest a b :
  (a, b) ∈ add_pairs_inner ia rest ↔
  a = ia ∧ b ∈ rest ∧ index_passes ia b = true.
Proof.
  unfold add_pairs_inner. rewrite list_elem_of_fmap. split.
  - intros (ib & [= -> ->] & Hin). apply list_elem_of_filter in Hin. tauto.
  - intros (-> & Hin & Hp). exists b. split; [reflexivity|].
    apply list_elem_of_filter. tauto.
Qed.

Lemma add_pairs_elem l a b :
  StronglySorted lt l →
  (a, b) ∈ add_pairs l ↔
  a ∈ l ∧ b ∈ l ∧ (a < b)%nat ∧ index_passes a b = true.
Proof.
  induction 1 as [| x l Hs IH Hall]; simpl.
  - rewrite !elem_of_nil. tauto.
  - rewrite Forall_forall in Hall.
    rewrite elem_of_app, add_pairs_inner_elem, IH, !elem_of_cons. split.
    + intros [(-> & Hb & Hp) | (Ha & Hb & Hlt & Hp)].
      * repeat split; auto.
      * repeat split; auto.
    + intros ([-> | Ha] & [-> | Hb] & Hlt & Hp).
      * lia.
      * left. auto.
      * specialize (Hall _ Ha). lia.
      * right. auto.
Qed.

(** *** Characterisation of the emitted pairs *)

Lemma pair_passes_similar A B : pair_passes A B = true ↔ similar A B.
Proof.
  unfold pair_passes, similar.
  destruct (Z.ltb_spec 200
    (Z.abs (Z.of_nat (py_len (norm A)) - Z.of_nat (py_len (norm B)))))
    as [H1 | H1]; [split; [discriminate | lia] |].
  destruct (Qle_bool jaccard_th (jaccard (shing A) (shing B))) eqn:H2; simpl.
  - apply Qle_bool_iff in H2.
    destruct (Z.ltb_spec ham_th (hamdist64 (sh A) (sh B))) as [H3 | H3].
    + split; [discriminate | lia].
    + split; [auto | reflexivity].
  - split; [discriminate|]. intros (_ & H & _).
    apply Qle_bool_iff in H. congruence.
Qed.

Lemma by_host_elem ia ib :
  (ia, ib) ∈ flat_map
      (λ hb : string * list nat,
         if (1 <? length hb.2)%nat then add_pairs hb.2 else [])
      (build_buckets items) ↔
  ∃ A B, items !! ia = Some A ∧ items !! ib = Some B ∧ (ia < ib)%nat
         ∧ index_passes ia ib = true ∧ host_of A = host_of B.
Proof.
  destruct (build_buckets_inv items) as [_ Hbs].
  rewrite list_elem_of_In, in_flat_map. split.
  - intros ([h l] & Hin & Hp). simpl in Hp.
    apply list_elem_of_In, Hbs in Hin as [_ Hl].
    destruct (1 <? length l)%nat; [| destruct Hp].
    apply list_elem_of_In in Hp.
    apply add_pairs_elem in Hp;
      [| rewrite Hl; apply filter_increasing, seq_increasing].
    destruct Hp as (Ha & Hb & Hlt & Hp). rewrite Hl in Ha, Hb.
    apply list_elem_of_filter in Ha as [Ha _], Hb as [Hb _].
    rewrite list_lookup_fmap in Ha, Hb.
    destruct (items !! ia) as [A|] eqn:EA; [|discriminate].
    destruct (items !! ib) as [B|] eqn:EB; [|discriminate].
    exists A, B. simpl in Ha, Hb. repeat split; auto. congruence.
  - intros (A & B & EA & EB & Hlt & Hp & Hh).
    set (l := indices_of_host (host_of <$> items) (host_of A) (length items)).
    assert (Ha : ia ∈ l).
    { apply list_elem_of_filter. split.
      - now rewrite list_lookup_fmap, EA.
      - apply elem_of_seq. apply lookup_lt_Some in EA. lia. }
    assert (Hb : ib ∈ l).
    { apply list_elem_of_filter. split.
      - rewrite list_lookup_fmap, EB. simpl. now rewrite Hh.
      - apply elem_of_seq. apply lookup_lt_Some in EB. lia. }
    exists (host_of A, l). split.
    + apply list_elem_of_In, Hbs. split; [|reflexivity].
      intros E. rewrite E in Ha. now apply elem_of_nil in Ha.
    + simpl.
      assert (Hlen : (1 < length l)%nat).
      { destruct l as [| x [| y r]]; simpl; try lia.
        - now apply elem_of_nil in Ha.
        - apply list_elem_of_singleton in Ha, Hb. lia. }
      apply Nat.ltb_lt in Hlen. rewrite Hlen.
      apply list_elem_of_In, add_pairs_elem;
        [apply filter_increasing, seq_increasing | auto].
Qed.

Lemma overall_elem ia ib :
  (ia, ib) ∈ add_pairs (seq 0 (length items)) ↔
  ∃ A B, items !! ia = Some A ∧ items !! ib = Some B ∧ (ia < ib)%nat
         ∧ index_passes ia ib = true.
Proof.
  rewrite add_pairs_elem by apply seq_increasing.
  rewrite !elem_of_seq. split.
  - intros (Ha & Hb & Hlt & Hp).
    destruct (lookup_lt_is_Some_2 items ia) as [A EA]; [lia|].
    destruct (lookup_lt_is_Some_2 items ib) as [B EB]; [lia|].
    exists A, B. auto.
  - intros (A & B & EA & EB & Hlt & Hp).
    apply lookup_lt_Some in EA, EB. repeat split; auto; lia.
Qed.

(** C5.  A pair of indices is emitted by [candidate_pairs] exactly when it
    is an ordered pair of items which satisfies all three conditions (length
    difference of the normalised texts at most 200, Jaccard at least the
    threshold, Hamming distance at most the threshold) and which is compared
    at all: the two share their URL host, or the collection has at most 400
    items so that the overall pass runs. *)
Theorem candidate_pairs_spec (ia ib : nat) :
  (ia, ib) ∈ candidate_pairs ↔
  ∃ A B, items !! ia = Some A ∧ items !! ib = Some B ∧ (ia < ib)%nat
         ∧ similar A B
         ∧ (host_of A = host_of B ∨ (length items <= 400)%nat).
Proof.
  unfold candidate_pairs. rewrite elem_of_app, by_host_elem.
  assert (Hov : (ia, ib) ∈ (if (length items <=? 400)%nat
                            then add_pairs (seq 0 (length items)) else [])
                ↔ (length items <= 400)%nat
                  ∧ (ia, ib) ∈ add_pairs (seq 0 (length items))).
  { destruct (Nat.leb_spec (length items) 400) as [H | H].
    - tauto.
    - rewrite elem_of_nil. split; [tauto | lia]. }
  rewrite Hov, overall_elem. split.
  - intros [(A & B & EA & EB & Hlt & Hp & Hh)
           | (Hn & A & B & EA & EB & Hlt & Hp)];
      exists A, B; unfold index_passes in Hp; rewrite EA, EB in Hp;
      apply pair_passes_similar in Hp; auto 10.
  - intros (A & B & EA & EB & Hlt & Hs & Hc).
    assert (Hp : index_passes ia ib = true).
    { unfold index_passes. rewrite EA, EB. now apply pair_passes_similar. }
    destruct Hc as [Hh | Hn].
    + left. exists A, B. auto 10.
    + right. split; [assumption|]. exists A, B. auto 10.
Qed.

End CandidatePairs.

End BatchDedup.

(* ===================================================================== *)
(** ** Semantic confirmation: [llm_confirm] and the edge loop of [main]
       (src/post_process_dedup.py) *)
(* ===================================================================== *)

Module SemanticConfirm.
Import PyStr Similarity BatchDedup.

(** Decoded JSON values. *)
#[local] Unset Elimination Schemes.
Inductive json : Type :=
  | JNull
  | JBool (b : bool)
  | JNum (q : Q)
  | JStr (s : string)
  | JArr (l : list json)
  | JObj (fields : list (string * json)).
#[local] Set Elimination Schemes.

(** [dict.get(key)] on a decoded object. *)
Fixpoint obj_get (key : string) (fields : list (string * json)) : option json :=
  match fields with
  | [] => None
  | (k, v) :: r => if String.eqb k key then Some v else obj_get key r
  end.

(** [bool(v)] for [v = data.get(...)] ([None] when the key is absent). *)
Definition truthy (v : option json) : bool :=
  match v with
  | None | Some JNull => false
  | Some (JBool b) => b
  | Some (JNum q) => negb (Qeq_bool q 0)
  | Some (JStr s) => negb (String.eqb s "")
  | Some (JArr l) => match l with [] => false | _ => true end
  | Some (JObj f) => match f with [] => false | _ => true end
  end.

(** [msg.find("{")]: index of the first brace, if any. *)
Fixpoint find_open (s : string) : option nat :=
  match s with
  | EmptyString => None
  | String c r => if Ascii.eqb c "{" then Some 0%nat else S <$> find_open r
  end.

(** [msg.rfind("}")]: index of the last closing brace, if any. *)
Fixpoint rfind_close (s : string) : option nat :=
  match s with
  | EmptyString => None
  | String c r =>
      match rfind_close r with
      | Some i => Some (S i)
      | None => if Ascii.eqb c "}" then Some 0%nat else None
      end
  end.

(** [m1, m2 = msg.find("{"), msg.rfind("}")]
    [if m1 >= 0 and m2 > m1: msg = msg[m1:m2+1]] *)
Definition json_span (msg : string) : string :=
  match find_open msg, rfind_close msg with
  | Some m1, Some m2 =>
      if (m1 <? m2)%nat then String.substring m1 (m2 + 1 - m1) msg else msg
  | _, _ => msg
  end.

Definition PROMPT_TMPL : string :=
  ("你是行业资讯去重助手。判断两条中文资讯是否“表达的是同一实质事件/事实”，"
   ++ newline
   ++ "不是看文字是否完全相同，而是看语义是否等价（同一主体+同一事件+数据/结论近似）。"
   ++ newline
   ++ "输出 JSON：{" ++ dquote ++ "duplicate" ++ dquote ++ ": true/false, "
   ++ dquote ++ "reason" ++ dquote ++ ": " ++ dquote ++ "简要说明" ++ dquote
   ++ "}。" ++ newline ++ newline
   ++ "A: {a}" ++ newline ++ "B: {b}" ++ newline)%string.

(** The key that [str.format] looks up in [PROMPT_TMPL]. *)
Definition missing_key : string := (dquote ++ "duplicate" ++ dquote)%string.

(** The network location of a URL of the form [scheme://authority/...],
    as [urlparse(u).netloc] gives it; empty when there is no [//]. *)
Fixpoint after_slashes (u : string) : option string :=
  match u with
  | EmptyString => None
  | String c r =>
      match r with
      | String c2 r2 =>
          if Ascii.eqb c "/" && Ascii.eqb c2 "/" then Some r2
          else after_slashes r
      | EmptyString => None
      end
  end.

Fixpoint until_delim (s : string) : string :=
  match s with
  | EmptyString => EmptyString
  | String c r =>
      if Ascii.eqb c "/" || Ascii.eqb c "?" || Ascii.eqb c "#" then EmptyString
      else String c (until_delim r)
  end.

Definition netloc_of (u : string) : string :=
  match after_slashes u with
  | Some r => until_delim r
  | None => ""
  end.

(** Two lines of a rendered report carrying the same sentence, published by
    two sites:
<<
- studio x releases a new strategy game on mobile this week [原文](https://a.example.com/news/1)
- studio x releases a new strategy game on mobile this week [原文](https://b.example.com/post/2)
>>
    as [parse_md_items] reads them from [2025-W39.md].  [fp] is the
    fingerprint of the common normalised text. *)
Definition story : string :=
  "studio x releases a new strategy game on mobile this week".

Definition story_a (fp : Z) : Item :=
  {| id := "9e7def875905"; title := story; text := "";
     url := "https://a.example.com/news/1"; date := "";
     source_id := "2025-W39";
     raw := ("- " ++ story ++ " [原文](https://a.example.com/news/1)")%string;
     norm := story; sh := fp; shing := shingles story 8 |}.

Definition story_b (fp : Z) : Item :=
  {| id := "49e1884be9a2"; title := story; text := "";
     url := "https://b.example.com/post/2"; date := "";
     source_id := "2025-W39";
     raw := ("- " ++ story ++ " [原文](https://b.example.com/post/2)")%string;
     norm := story; sh := fp; shing := shingles story 8 |}.

Section Confirmation.

(** External collaborators. *)
Variable netloc : string → string.
(** [client.chat.completions.create(...)] followed by
    [resp.choices[0].message.content], for the call made on the pair with
    the given position: the content (possibly [None]) or an exception. *)
Variable chat_create : nat → string → result (option string).
(** [str.strip] *)
Variable strip : string → string.
(** [json.loads] *)
Variable json_loads : string → result json.
(** [str(v)] for a decoded JSON value. *)
Variable py_str : json → string.

(** The [try] block of [llm_confirm]. *)
Definition llm_try (call : nat) (prompt : string) : result (bool * string) :=
  content ← chat_create call prompt;
  let msg := json_span (strip (default "" content)) in
  data ← json_loads msg;
  match data with
  | JObj fields =>
      Ok (truthy (obj_get "duplicate" fields),
          match obj_get "reason" fields with
          | Some v => py_str v
          | None => ""
          end)
  | _ => Raise (OtherError "object has no attribute 'get'")
  end.

(** [llm_confirm], with the template as a parameter.  The prompt is built
    before the [try] statement, so an exception of [str.format] is not
    caught; the exceptions of the [try] block are turned into
    [(False, "LLM 调用失败：...")]. *)
Definition llm_confirm_with (tmpl : string) (call : nat) (a b : Item)
    : result (bool * string) :=
  let text_a := py_take 500 (title a ++ "。" ++ text a)%string in
  let text_b := py_take 500 (title b ++ "。" ++ text b)%string in
  prompt ← py_format tmpl [("a", text_a); ("b", text_b)];
  match llm_try call prompt with
  | Ok r => Ok r
  | Raise e => Ok (false, ("LLM 调用失败：" ++ exn_str e)%string)
  end.

Definition llm_confirm : nat → Item → Item → result (bool * string) :=
  llm_confirm_with PROMPT_TMPL.

Variable items : list Item.
Variable use_llm : bool.
Variable max_pairs : Z.

Definition edge : Type := nat * nat * string.

Definition item_at (i : nat) : result Item :=
  match items !! i with
  | Some it => Ok it
  | None => Raise (IndexError "list index out of range")
  end.

(** The strong rule: same host and Jaccard at least 0.8. *)
Definition strong_rule (A B : Item) : bool :=
  String.eqb (netloc (url A)) (netloc (url B))
  && Qle_bool (8 # 10) (jaccard (shing A) (shing B)).

(** The loop [for idx, (ia, ib) in enumerate(pairs)] of [main], with the
    template used by [llm_confirm] as a parameter.  The state is
    [(dup_edges, confirmed)]. *)
Fixpoint confirm_edges_with (tmpl : string) (idx : nat) (pairs : list (nat * nat))
    (dup_edges : list edge) (confirmed : nat) : result (list edge * nat) :=
  match pairs with
  | [] => Ok (dup_edges, confirmed)
  | (ia, ib) :: rest =>
      A ← item_at ia;
      B ← item_at ib;
      if strong_rule A B then
        confirm_edges_with tmpl (S idx) rest
          (dup_edges ++ [(ia, ib, "同域高相似")]) confirmed
      else if use_llm && (Z.of_nat idx <? max_pairs) then
        '(is_dup, reason) ← llm_confirm_with tmpl idx A B;
        if is_dup : bool then
          confirm_edges_with tmpl (S idx) rest
            (dup_edges ++
               [(ia, ib, if String.eqb reason "" then "LLM 判定重复" else reason)])
            (S confirmed)
        else confirm_edges_with tmpl (S idx) rest dup_edges confirmed
      else confirm_edges_with tmpl (S idx) rest dup_edges confirmed
  end.

Definition confirm_edges (pairs : list (nat * nat)) : result (list edge * nat) :=
  confirm_edges_with PROMPT_TMPL 0 pairs [] 0%nat.

(** *** What the confirmation loop does on an escalated pair *)

(** [PROMPT_TMPL] shows the expected JSON answer with single braces, which
    [str.format] reads as a replacement field named ["duplicate"] (quotes
    included): building the prompt raises [KeyError], whatever the texts. *)
Lemma prompt_format_raises (text_a text_b : string) :
  py_format PROMPT_TMPL [("a", text_a); ("b", text_b)]
  = Raise (KeyError missing_key).
Proof. reflexivity. Qed.

Lemma llm_confirm_raises (call : nat) (a b : Item) :
  llm_confirm call a b = Raise (KeyError missing_key).
Proof.
  unfold llm_confirm, llm_confirm_with.
  now rewrite prompt_format_raises.
Qed.

(** The [try] block itself is fail-open: with a template that formats, a
    failing call or an unparseable answer yields [(False, reason)]. *)
Lemma llm_confirm_with_fail_open tmpl call a b prompt e :
  py_format tmpl
    [("a", py_take 500 (title a ++ "。" ++ text a)%string);
     ("b", py_take 500 (title b ++ "。" ++ text b)%string)] = Ok prompt →
  llm_try call prompt = Raise e →
  llm_confirm_with tmpl call a b
  = Ok (false, ("LLM 调用失败：" ++ exn_str e)%string).
Proof.
  intros Hf Ht. unfold llm_confirm_with. rewrite Hf. simpl. now rewrite Ht.
Qed.

Lemma llm_try_call_raises call prompt e :
  chat_create call prompt = Raise e → llm_try call prompt = Raise e.
Proof. intros H. unfold llm_try. now rewrite H. Qed.

Lemma llm_try_unparseable call prompt content e :
  chat_create call prompt = Ok content →
  json_loads (json_span (strip (default "" content))) = Raise e →
  llm_try call prompt = Raise e.
Proof. intros Hc Hj. unfold llm_try. rewrite Hc. simpl. now rewrite Hj. Qed.

(** Unfolding of one iteration of the loop. *)
Lemma confirm_edges_with_cons tmpl idx ia ib A B rest edges n :
  items !! ia = Some A → items !! ib = Some B →
  confirm_edges_with tmpl idx ((ia, ib) :: rest) edges n =
  if strong_rule A B then
    confirm_edges_with tmpl (S idx) rest
      (edges ++ [(ia, ib, "同域高相似")]) n
  else if use_llm && (Z.of_nat idx <? max_pairs) then
    match llm_confirm_with tmpl idx A B with
    | Ok (true, reason) =>
        confirm_edges_with tmpl (S idx) rest
          (edges ++
             [(ia, ib, if String.eqb reason "" then "LLM 判定重复" else reason)])
          (S n)
    | Ok (false, _) => confirm_edges_with tmpl (S idx) rest edges n
    | Raise e => Raise e
    end
  else confirm_edges_with tmpl (S idx) rest edges n.
Proof.
  intros EA EB. cbn [confirm_edges_with]. unfold item_at. rewrite EA, EB.
  cbn [mbind result_bind].
  destruct (strong_rule A B); [reflexivity|].
  destruct (use_llm && (Z.of_nat idx <? max_pairs)); [|reflexivity].
  destruct (llm_confirm_with tmpl idx A B) as [[[] ?] | ?]; reflexivity.
Qed.

(** One iteration on an escalated pair whose confirmation comes back
    negative leaves [(dup_edges, confirmed)] as they were: the reason string
    is dropped. *)
Lemma confirm_edges_with_negative tmpl idx ia ib A B rest edges n reason :
  items !! ia = Some A → items !! ib = Some B →
  strong_rule A B = false →
  use_llm = true → Z.of_nat idx < max_pairs →
  llm_confirm_with tmpl idx A B = Ok (false, reason) →
  confirm_edges_with tmpl idx ((ia, ib) :: rest) edges n
  = confirm_edges_with tmpl (S idx) rest edges n.
Proof.
  intros EA EB Hs Hu Hi Hc.
  rewrite (confirm_edges_with_cons _ _ _ _ _ _ _ _ _ EA EB), Hs, Hu, Hc.
  apply Z.ltb_lt in Hi. now rewrite Hi.
Qed.

(** With the template of the program, the first pair that reaches
    [llm_confirm] ends the loop with the [KeyError]. *)
Lemma confirm_edges_with_escalation_raises pairs :
  ∀ idx edges n k ia ib A B,
    Forall (λ p, is_Some (items !! p.1) ∧ is_Some (items !! p.2)) pairs →
    use_llm = true →
    pairs !! k = Some (ia, ib) →
    items !! ia = Some A → items !! ib = Some B →
    strong_rule A B = false →
    Z.of_nat (idx + k) < max_pairs →
    confirm_edges_with PROMPT_TMPL idx pairs edges n
    = Raise (KeyError missing_key).
Proof.
  induction pairs as [| [ja jb] rest IH];
    intros idx edges n k ia ib A B Hall Hu Hk EA EB Hs Hi; [discriminate|].
  apply Forall_cons in Hall as [[[A' EA'] [B' EB']] Hall]. simpl in EA', EB'.
  rewrite (confirm_edges_with_cons _ _ _ _ _ _ _ _ _ EA' EB'), Hu.
  pose proof (llm_confirm_raises idx A' B') as Hraise.
  unfold llm_confirm in Hraise. rewrite Hraise.
  assert (Hlt : (Z.of_nat idx <? max_pairs) = true) by (apply Z.ltb_lt; lia).
  rewrite Hlt. cbn [andb].
  destruct k as [| k].
  - injection Hk as -> ->. rewrite EA in EA'. rewrite EB in EB'.
    injection EA' as <-. injection EB' as <-. now rewrite Hs.
  - simpl in Hk. destruct (strong_rule A' B'); [|reflexivity].
    eapply IH; eauto. lia.
Qed.

End Confirmation.

(** *** A run of the clean-up on two reports of one story *)

Example netloc_of_example :
  netloc_of "https://a.example.com/news/1" = "a.example.com"
  ∧ netloc_of "" = "".
Proof. split; reflexivity. Qed.

Lemma story_pair_passes fp :
  pair_passes (62 # 100) 8 (story_a fp) (story_b fp) = true.
Proof.
  unfold pair_passes. cbn [sh story_a story_b].
  unfold hamdist64. rewrite Z.lxor_nilpotent. reflexivity.
Qed.

Lemma story_candidates fp :
  candidate_pairs netloc_of [story_a fp; story_b fp] (62 # 100) 8 = [(0, 1)%nat].
Proof.
  unfold candidate_pairs.
  replace (build_buckets netloc_of [story_a fp; story_b fp])
    with [("a.example.com", [0%nat]); ("b.example.com", [1%nat])]
    by reflexivity.
  cbn [flat_map snd length Nat.ltb Nat.leb app Nat.leb seq add_pairs].
  unfold add_pairs_inner.
  rewrite filter_cons_True
    by (unfold index_passes; cbn [lookup list_lookup]; apply story_pair_passes).
  reflexivity.
Qed.

(** C7.  Two reports of one story from different hosts form a candidate
    pair which the strong rule does not settle.  With the semantic
    confirmation switched on, the pair goes to [llm_confirm], and the run
    ends there with [KeyError] instead of keeping both items: the prompt
    template cannot be formatted, and that happens before the [try]
    statement, whatever the oracle, [strip], [json.loads] and [str] do.
    With the confirmation switched off the same input gives no duplicate
    edge. *)
Theorem llm_escalation_aborts_run
    (chat_create : nat → string → result (option string))
    (strip : string → string) (json_loads : string → result json)
    (py_str : json → string) (fp : Z) :
  let items := [story_a fp; story_b fp] in
  let pairs := candidate_pairs netloc_of items (62 # 100) 8 in
  confirm_edges netloc_of chat_create strip json_loads py_str items true 200 pairs
    = Raise (KeyError missing_key)
  ∧ confirm_edges netloc_of chat_create strip json_loads py_str items false 200 pairs
    = Ok ([], 0%nat).
Proof.
  intros items pairs. unfold pairs, items. rewrite story_candidates. split.
  - unfold confirm_edges.
    apply (confirm_edges_with_escalation_raises netloc_of chat_create strip
             json_loads py_str [story_a fp; story_b fp] true 200
             [(0, 1)%nat] 0 [] 0 0 0 1 (story_a fp) (story_b fp)).
    + repeat constructor; eexists; reflexivity.
    + reflexivity.
    + reflexivity.
    + reflexivity.
    + reflexivity.
    + reflexivity.
    + simpl. lia.
  - unfold confirm_edges.
    rewrite (confirm_edges_with_cons netloc_of chat_create strip json_loads
               py_str [story_a fp; story_b fp] false 200 PROMPT_TMPL
               0 0 1 (story_a fp) (story_b fp)) by reflexivity.
    reflexivity.
Qed.

End SemanticConfirm.

(* ===================================================================== *)
(** ** Near-duplicates within a source (src/utils/simhash_utils.py) *)
(* ===================================================================== *)

Module WithinSource.
Import PyStr PyDict StableSort Similarity.

(** An item of the pipeline is a Python [dict]; [oid] is its identity
    ([id(it)]): two list entries with the same [oid] are one object.
    Instants are counted in microseconds from [datetime.min]. *)
Record Item : Type := mkItem {
  oid : nat;
  source_id : option string;
  date : option Z;
  title : string;
  summary_raw : option string
}.

#[global] Instance Item_eq_dec : EqDecision Item.
Proof. solve_decision. Defined.

(** The tuple [(sid, h, dt, len(txt), it)] of the first loop. *)
Record Enriched : Type := mkEnriched {
  e_sid : string;
  e_h : Z;
  e_dt : option Z;
  e_len : nat;
  e_it : Item
}.

#[global] Instance Enriched_eq_dec : EqDecision Enriched.
Proof. solve_decision. Defined.

(** [datetime.min] and [datetime.max] (9999-12-31 23:59:59.999999). *)
Definition DT_MIN : Z := 0.
Definition DT_MAX : Z := 315537897599999999.

(** *** Sample items: two near-identical items of one source, one of another *)

(** A stand-in fingerprint for the run below: the length of the title. *)
Definition toy_fingerprint (title _ : string) : Z :=
  Z.of_nat (String.length title).

Definition run_a : Item :=
  {| oid := 1; source_id := Some "gamelook"; date := Some 100;
     title := "launch"; summary_raw := None |}.
Definition run_b : Item :=
  {| oid := 2; source_id := Some "gamelook"; date := Some 50;
     title := "lauNCH"; summary_raw := None |}.
Definition run_c : Item :=
  {| oid := 3; source_id := Some "youxituoluo"; date := None;
     title := "report"; summary_raw := Some "" |}.

Section Dedup.

(** [simhash64(norm_text_for_hash(title, txt))]: the fingerprint of an
    item's title and summary. *)
Variable fingerprint : string → string → Z.

Definition enrich (it : Item) : Enriched :=
  let sid := str_or (source_id it) "" in
  let txt := str_or (summary_raw it) "" in
  {| e_sid := sid; e_h := fingerprint (title it) txt; e_dt := date it;
     e_len := py_len txt; e_it := it |}.

Definition by_src (enriched : list Enriched) : list (string * list Enriched) :=
  fold_left (λ d tup, dd_append (e_sid tup) tup d) enriched [].

(** The three branches on [keep_policy]. *)
Definition sort_group (keep_policy : string) (arr : list Enriched) : list Enriched :=
  if String.eqb keep_policy "latest" then
    py_sort (λ x y, default DT_MIN (e_dt y) <=? default DT_MIN (e_dt x)) arr
  else if String.eqb keep_policy "longest" then
    py_sort (λ x y, (e_len y <=? e_len x)%nat) arr
  else
    py_sort (λ x y, default DT_MAX (e_dt x) <=? default DT_MAX (e_dt y)) arr.

Variable hamming_threshold : Z.

(** State of the greedy scan of one source. *)
Record scan_state : Type := mkScan {
  kept_ids : gset nat;
  used_hashes : list Z;
  dropped : nat
}.

(** One iteration of [for sid_i, hi, dti, li, iti in arr]. *)
Definition scan_step (st : scan_state) (tup : Enriched) : scan_state :=
  if existsb (λ h_used, hamming64 (e_h tup) h_used <=? hamming_threshold)
             (used_hashes st)
  then {| kept_ids := kept_ids st; used_hashes := used_hashes st;
          dropped := S (dropped st) |}
  else {| kept_ids := {[ oid (e_it tup) ]} ∪ kept_ids st;
          used_hashes := used_hashes st ++ [e_h tup];
          dropped := dropped st |}.

(** One iteration of [for sid, arr in by_src.items()]; the state carried
    across sources is [(kept_ids, dropped)]. *)
Definition process_group (keep_policy : string) (acc : gset nat * nat)
    (arr : list Enriched) : gset nat * nat :=
  if (length arr <=? 1)%nat then
    match arr with
    | tup :: _ => ({[ oid (e_it tup) ]} ∪ acc.1, acc.2)
    | [] => acc
    end
  else
    let st := fold_left scan_step (sort_group keep_policy arr)
                {| kept_ids := acc.1; used_hashes := []; dropped := acc.2 |} in
    (kept_ids st, dropped st).

Definition kept_ids_of (keep_policy : string) (items : list Item) : gset nat :=
  (fold_left (process_group keep_policy) (by_src (enrich <$> items)).*2 (∅, 0%nat)).1.

Definition drop_near_duplicates_within_source
    (items : list Item) (keep_policy : string) : list Item :=
  filter (λ it, oid it ∈ kept_ids_of keep_policy items) items.

(** *** The scan, as the specification words it *)

(** The items kept by a greedy scan of [arr], given the list [kept] of the
    items kept before: an item is dropped when its fingerprint is within
    the threshold of the fingerprint of an item already kept, else it is
    kept and joins the kept list. *)
Fixpoint greedy_keep (kept arr : list Enriched) : list Enriched :=
  match arr with
  | [] => []
  | tup :: r =>
      if existsb (λ k, hamming64 (e_h tup) (e_h k) <=? hamming_threshold) kept
      then greedy_keep kept r
      else tup :: greedy_keep (kept ++ [tup]) r
  end.

Definition near (x y : Enriched) : Prop :=
  hamming64 (e_h x) (e_h y) <= hamming_threshold.

(** The order that the keep-policy asks for: latest timestamp first,
    longest summary first, or (any other policy) earliest timestamp first;
    a missing timestamp counts as the minimal, resp. maximal, one. *)
Definition policy_before (keep_policy : string) (x y : Enriched) : bool :=
  if String.eqb keep_policy "latest" then
    default DT_MIN (e_dt y) <=? default DT_MIN (e_dt x)
  else if String.eqb keep_policy "longest" then (e_len y <=? e_len x)%nat
  else default DT_MAX (e_dt x) <=? default DT_MAX (e_dt y).

Definition source_group (items : list Item) (it : Item) : list Enriched :=
  filter (λ e, e_sid e = e_sid (enrich it)) (enrich <$> items).

Lemma existsb_near tup kept :
  existsb (λ k, hamming64 (e_h tup) (e_h k) <=? hamming_threshold) kept = true
  ↔ ∃ k, k ∈ kept ∧ near tup k.
Proof.
  rewrite existsb_exists. unfold near. split.
  - intros (k & Hin & Hk). exists k. split; [now apply list_elem_of_In | lia].
  - intros (k & Hin & Hk). exists k. split; [now apply list_elem_of_In | lia].
Qed.

Lemma existsb_used_hashes h kept :
  existsb (λ h_used, hamming64 h h_used <=? hamming_threshold) (e_h <$> kept)
  = existsb (λ k, hamming64 h (e_h k) <=? hamming_threshold) kept.
Proof.
  induction kept as [| k r IH]; [reflexivity|].
  rewrite fmap_cons. cbn [existsb]. now rewrite IH.
Qed.

Lemma scan_step_enriched ids kept d tup :
  scan_step {| kept_ids := ids; used_hashes := e_h <$> kept; dropped := d |} tup
  = if existsb (λ k, hamming64 (e_h tup) (e_h k) <=? hamming_threshold) kept
    then {| kept_ids := ids; used_hashes := e_h <$> kept; dropped := S d |}
    else {| kept_ids := {[ oid (e_it tup) ]} ∪ ids;
            used_hashes := e_h <$> (kept ++ [tup]); dropped := d |}.
Proof.
  unfold scan_step. cbn [used_hashes kept_ids dropped].
  rewrite existsb_used_hashes, fmap_app. reflexivity.
Qed.

(** The loop over a sorted group computes [greedy_keep]: the hashes it
    accumulates are those of the kept items, the ids it adds are theirs, and
    it counts the others as dropped. *)
Lemma scan_refines arr :
  ∀ kept ids d,
    let st := fold_left scan_step arr
                {| kept_ids := ids; used_hashes := e_h <$> kept; dropped := d |} in
    used_hashes st = e_h <$> (kept ++ greedy_keep kept arr)
    ∧ (∀ x, x ∈ kept_ids st ↔
            x ∈ ids ∨ ∃ e, e ∈ greedy_keep kept arr ∧ oid (e_it e) = x)
    ∧ (dropped st + length (greedy_keep kept arr) = d + length arr)%nat.
Proof.
  induction arr as [| tup r IH]; intros kept ids d; simpl.
  - rewrite app_nil_r. repeat split; try lia; [tauto|].
    intros [H | (e & He & _)]; [assumption | now apply elem_of_nil in He].
  - rewrite scan_step_enriched.
    destruct (existsb _ kept) eqn:E.
    + destruct (IH kept ids (S d)) as (Hu & Hk & Hd).
      split; [exact Hu|]. split; [exact Hk | lia].
    + destruct (IH (kept ++ [tup]) ({[ oid (e_it tup) ]} ∪ ids) d)
        as (Hu & Hk & Hd).
      split; [now rewrite Hu, <- app_assoc|]. split.
      * intros x. rewrite Hk, elem_of_union, elem_of_singleton. split.
        -- intros [[-> | H] | (e & He & Hx)].
           ++ right. exists tup. split; [apply list_elem_of_here | reflexivity].
           ++ now left.
           ++ right. exists e. split; [now apply list_elem_of_further | assumption].
        -- intros [H | (e & He & Hx)]; [left; now right|].
           apply elem_of_cons in He as [-> | He]; [left; now left|].
           right. now exists e.
      * simpl. lia.
Qed.

Lemma greedy_keep_app kept l1 l2 :
  greedy_keep kept (l1 ++ l2)
  = greedy_keep kept l1 ++ greedy_keep (kept ++ greedy_keep kept l1) l2.
Proof.
  revert kept. induction l1 as [| x r IH]; intros kept; simpl.
  - now rewrite app_nil_r.
  - destruct (existsb _ kept); [apply IH|].
    simpl. now rewrite IH, <- app_assoc.
Qed.

Lemma greedy_keep_subseteq kept arr e :
  e ∈ greedy_keep kept arr → e ∈ arr.
Proof.
  revert kept. induction arr as [| x r IH]; intros kept; simpl.
  - intros H. now apply elem_of_nil in H.
  - destruct (existsb _ kept).
    + intros H. apply list_elem_of_further. now apply (IH kept).
    + intros H. apply elem_of_cons in H as [-> | H];
        [apply list_elem_of_here | apply list_elem_of_further; now apply (IH _ H)].
Qed.

(** In a scan of [pre ++ tup :: post] without repetition, [tup] is dropped
    exactly when it is near an item of [pre] that the scan kept; and the
    items of [pre] that are kept are those kept by the scan of [pre]. *)
Lemma greedy_keep_split pre tup post :
  NoDup (pre ++ tup :: post) →
  (tup ∈ greedy_keep [] (pre ++ tup :: post)
   ↔ ¬ ∃ k, k ∈ greedy_keep [] pre ∧ near tup k)
  ∧ ∀ k, k ∈ pre →
      (k ∈ greedy_keep [] (pre ++ tup :: post) ↔ k ∈ greedy_keep [] pre).
Proof.
  intros Hnd. apply NoDup_app in Hnd as (Hpre & Hdis & Hrest).
  apply NoDup_cons in Hrest as [Htp Hpost].
  assert (Htpre : tup ∉ pre).
  { intros H. apply (Hdis _ H). apply list_elem_of_here. }
  rewrite greedy_keep_app. simpl.
  set (P := greedy_keep [] pre).
  split.
  - rewrite elem_of_app.
    destruct (existsb _ P) eqn:E.
    + apply existsb_near in E. split; [| intros H; contradiction].
      intros [H | H].
      * exfalso. apply Htpre. now apply (greedy_keep_subseteq [] pre).
      * exfalso. apply Htp. now apply (greedy_keep_subseteq P post).
    + split; [| intros _; right; apply list_elem_of_here].
      intros _ H. apply existsb_near in H. congruence.
  - intros k Hk. rewrite elem_of_app. split; [| now left].
    intros [H | H]; [assumption|]. exfalso.
    assert (Hkp : k ∈ tup :: post).
    { destruct (existsb _ P).
      - apply list_elem_of_further. now apply (greedy_keep_subseteq P post).
      - apply elem_of_cons in H as [-> | H]; [apply list_elem_of_here|].
        apply list_elem_of_further.
        now apply (greedy_keep_subseteq (P ++ [tup]) post). }
    now apply (Hdis k).
Qed.

(** *** Sorting permutes, grouping filters *)

Lemma sort_group_sorted keep_policy arr :
  StronglySorted (λ x y, policy_before keep_policy x y = true)
    (sort_group keep_policy arr).
Proof.
  unfold sort_group, policy_before.
  destruct (String.eqb keep_policy "latest");
    [| destruct (String.eqb keep_policy "longest")];
    apply py_sort_sorted; intros;
    repeat match goal with
           | H : (_ <=? _) = true |- _ => apply Z.leb_le in H
           | H : (_ <=? _)%nat = true |- _ => apply Nat.leb_le in H
           end;
    rewrite ?Z.leb_le, ?Nat.leb_le; lia.
Qed.

Lemma sort_group_perm keep_policy arr : sort_group keep_policy arr ≡ₚ arr.
Proof.
  unfold sort_group.
  destruct (String.eqb keep_policy "latest"); [apply py_sort_perm|].
  destruct (String.eqb keep_policy "longest"); apply py_sort_perm.
Qed.

Lemma sort_group_short keep_policy arr :
  (length arr <= 1)%nat → sort_group keep_policy arr = arr.
Proof.
  intros Hlen. destruct arr as [| x [| y r]]; simpl in Hlen; try lia;
    unfold sort_group;
    destruct (String.eqb keep_policy "latest");
    destruct (String.eqb keep_policy "longest"); reflexivity.
Qed.

Lemma by_src_spec l :
  NoDup (by_src l).*1
  ∧ ∀ sid arr, (sid, arr) ∈ by_src l ↔
               arr ≠ [] ∧ arr = filter (λ e, e_sid e = sid) l.
Proof. apply (dd_group_spec e_sid l). Qed.

(** *** The ids collected over all sources *)

Lemma process_group_ids keep_policy acc arr x :
  x ∈ (process_group keep_policy acc arr).1 ↔
  x ∈ acc.1 ∨ ∃ e, e ∈ greedy_keep [] (sort_group keep_policy arr)
                   ∧ oid (e_it e) = x.
Proof.
  unfold process_group. destruct (Nat.leb_spec (length arr) 1) as [Hlen | Hlen].
  - rewrite sort_group_short by assumption.
    destruct arr as [| tup [| y r]]; simpl in Hlen; try lia; simpl.
    + split; [now left|]. intros [H | (e & He & _)]; [assumption|].
      now apply elem_of_nil in He.
    + rewrite elem_of_union, elem_of_singleton. split.
      * intros [-> | H]; [|now left]. right. exists tup.
        split; [apply list_elem_of_here | reflexivity].
      * intros [H | (e & He & Hx)]; [now right|].
        apply list_elem_of_singleton in He as ->. now left.
  - pose proof (scan_refines (sort_group keep_policy arr) [] acc.1 acc.2)
      as (_ & Hk & _).
    simpl. exact (Hk x).
Qed.

Lemma process_groups_ids keep_policy gs :
  ∀ acc x,
    x ∈ (fold_left (process_group keep_policy) gs acc).1 ↔
    x ∈ acc.1 ∨ ∃ arr, arr ∈ gs ∧
                 ∃ e, e ∈ greedy_keep [] (sort_group keep_policy arr)
                      ∧ oid (e_it e) = x.
Proof.
  induction gs as [| g gs IH]; intros acc x; simpl.
  - split; [now left|]. intros [H | (arr & Harr & _)]; [assumption|].
    now apply elem_of_nil in Harr.
  - rewrite IH, process_group_ids. split.
    + intros [[H | He] | (arr & Harr & He)].
      * now left.
      * right. exists g. split; [apply list_elem_of_here | assumption].
      * right. exists arr. split; [now apply list_elem_of_further | assumption].
    + intros [H | (arr & Harr & He)]; [left; now left|].
      apply elem_of_cons in Harr as [-> | Harr]; [left; now right|].
      right. now exists arr.
Qed.

(** Distinct objects: an [oid] names one item of the list. *)
Lemma oid_inj (items : list Item) (a b : Item) :
  NoDup (oid <$> items) → a ∈ items → b ∈ items → oid a = oid b → a = b.
Proof.
  induction items as [| x r IH]; intros Hnd Ha Hb Hab.
  - now apply elem_of_nil in Ha.
  - rewrite fmap_cons in Hnd. apply NoDup_cons in Hnd as [Hx Hr].
    apply elem_of_cons in Ha as [-> | Ha], Hb as [-> | Hb]; auto.
    + exfalso. apply Hx. rewrite Hab. now apply list_elem_of_fmap_2.
    + exfalso. apply Hx. rewrite <- Hab. now apply list_elem_of_fmap_2.
Qed.

Lemma enrich_NoDup (items : list Item) :
  NoDup (oid <$> items) → NoDup (enrich <$> items).
Proof.
  intros Hnd. apply (NoDup_fmap_1 (λ e, oid (e_it e))).
  rewrite <- list_fmap_compose. exact Hnd.
Qed.

(** An item survives exactly when the scan of its own source keeps it. *)
Lemma survives_iff keep_policy (items : list Item) (it : Item) :
  NoDup (oid <$> items) → it ∈ items →
  it ∈ drop_near_duplicates_within_source items keep_policy ↔
  enrich it ∈ greedy_keep []
    (sort_group keep_policy
       (filter (λ e, e_sid e = e_sid (enrich it)) (enrich <$> items))).
Proof.
  intros Hnd Hit. unfold drop_near_duplicates_within_source, kept_ids_of.
  rewrite list_elem_of_filter, process_groups_ids.
  destruct (by_src_spec (enrich <$> items)) as [_ Hbs].
  split.
  - intros [[H | (arr & Harr & e & He & Hoid)] _];
      [now apply not_elem_of_empty in H|].
    apply list_elem_of_fmap in Harr as ([sid arr'] & Heq & Harr).
    simpl in Heq. subst arr'. apply Hbs in Harr as [_ Harr].
    assert (Hearr : e ∈ arr).
    { apply greedy_keep_subseteq in He. now rewrite sort_group_perm in He. }
    rewrite Harr in Hearr. apply list_elem_of_filter in Hearr as [Hsid HeE].
    apply list_elem_of_fmap in HeE as (it' & -> & Hit').
    assert (it' = it) as -> by (apply (oid_inj items); auto).
    now rewrite Hsid, <- Harr.
  - intros He. split; [|assumption]. right.
    set (arr := filter (λ e, e_sid e = e_sid (enrich it)) (enrich <$> items)) in *.
    exists arr. split.
    + apply list_elem_of_fmap. exists (e_sid (enrich it), arr).
      split; [reflexivity|]. apply Hbs. split; [|reflexivity].
      apply greedy_keep_subseteq in He. rewrite sort_group_perm in He.
      intros E. rewrite E in He. now apply elem_of_nil in He.
    + exists (enrich it). split; [assumption | reflexivity].
Qed.

(** *** The kept list is the list of survivors *)

Lemma filter_ext_elem {A} (P Q : A → Prop)
    `{∀ x, Decision (P x)} `{∀ x, Decision (Q x)} (l : list A) :
  (∀ x, x ∈ l → (P x ↔ Q x)) → filter P l = filter Q l.
Proof.
  induction l as [| x r IH]; intros Hext; [reflexivity|].
  rewrite !filter_cons.
  assert (Hr : filter P r = filter Q r).
  { apply IH. intros y Hy. apply Hext. now apply list_elem_of_further. }
  pose proof (Hext x (list_elem_of_here x r)) as Hx.
  destruct (decide (P x)), (decide (Q x)); try tauto; now rewrite Hr.
Qed.

Lemma greedy_keep_filter arr :
  ∀ kept, NoDup arr →
    greedy_keep kept arr = filter (λ k, k ∈ greedy_keep kept arr) arr.
Proof.
  induction arr as [| x r IH]; intros kept Hnd; [reflexivity|].
  apply NoDup_cons in Hnd as [Hx Hr]. simpl.
  destruct (existsb _ kept).
  - rewrite filter_cons, decide_False; [now apply IH|].
    intros H. apply Hx. now apply (greedy_keep_subseteq kept r).
  - rewrite filter_cons, decide_True by apply list_elem_of_here. f_equal.
    rewrite (IH (kept ++ [x]) Hr) at 1. apply filter_ext_elem.
    intros y Hy. rewrite elem_of_cons. split; [now right|].
    intros [-> | H]; [contradiction | assumption].
Qed.

(** C4.  Let the items be distinct objects, and let [it] stand, in the
    order in which its source group is scanned under the keep-policy, after
    the items [pre].  Then the scan order is sorted by the policy's key,
    the list of kept fingerprints at its turn holds
    the fingerprints of the items of [pre] that survive; [it] is dropped if
    and only if its fingerprint is within the Hamming threshold of the
    fingerprint of an item of [pre] (an item of the same source, scanned
    earlier) that survives; when dropped, the iteration only counts it;
    otherwise the iteration records its identity as kept and appends its
    fingerprint to the kept list. *)
Theorem within_source_scan_spec
    (keep_policy : string) (items : list Item) (it : Item)
    (pre post : list Enriched) (ids0 : gset nat) (d0 : nat) :
  NoDup (oid <$> items) →
  sort_group keep_policy (source_group items it) = pre ++ enrich it :: post →
  let out := drop_near_duplicates_within_source items keep_policy in
  let st := fold_left scan_step pre
              {| kept_ids := ids0; used_hashes := []; dropped := d0 |} in
  StronglySorted (λ x y, policy_before keep_policy x y = true)
    (pre ++ enrich it :: post)
  ∧ (∀ k, k ∈ pre → e_sid k = e_sid (enrich it))
  ∧ used_hashes st = e_h <$> filter (λ k, e_it k ∈ out) pre
  ∧ (it ∉ out ↔ ∃ k, k ∈ pre ∧ e_it k ∈ out ∧ near (enrich it) k)
  ∧ (it ∉ out →
       scan_step st (enrich it)
       = {| kept_ids := kept_ids st; used_hashes := used_hashes st;
            dropped := S (dropped st) |})
  ∧ (it ∈ out →
       scan_step st (enrich it)
       = {| kept_ids := {[ oid it ]} ∪ kept_ids st;
            used_hashes := used_hashes st ++ [e_h (enrich it)];
            dropped := dropped st |}).
Proof.
  intros Hnd Hsort out st.
  split; [rewrite <- Hsort; apply sort_group_sorted|].
  unfold source_group in Hsort.
  remember (enrich it) as e eqn:He.
  assert (HndS : NoDup (pre ++ e :: post)).
  { rewrite <- Hsort, sort_group_perm.
    apply NoDup_filter. now apply enrich_NoDup. }
  assert (HinG : ∀ k, k ∈ pre ++ e :: post →
                 e_sid k = e_sid e ∧ ∃ it', it' ∈ items ∧ k = enrich it').
  { intros k Hk. rewrite <- Hsort, sort_group_perm in Hk.
    apply list_elem_of_filter in Hk as [Hsid Hk].
    apply list_elem_of_fmap in Hk as (it' & -> & Hit'). eauto. }
  assert (Hit : it ∈ items).
  { destruct (HinG e) as (_ & it' & Hit' & He').
    - apply elem_of_app. right. apply list_elem_of_here.
    - assert (E : e_it e = e_it (enrich it')) by now rewrite He'.
      rewrite He in E. simpl in E. now subst it'. }
  destruct (greedy_keep_split pre e post HndS) as [Hself Hpre].
  assert (Hout_it : it ∈ out ↔ e ∈ greedy_keep [] (pre ++ e :: post)).
  { unfold out. rewrite (survives_iff keep_policy items it Hnd Hit).
    rewrite <- He. now rewrite Hsort. }
  assert (Hout_pre : ∀ k, k ∈ pre → (e_it k ∈ out ↔ k ∈ greedy_keep [] pre)).
  { intros k Hk. rewrite <- (Hpre k Hk).
    destruct (HinG k) as (Hsid & it' & Hit' & ->);
      [apply elem_of_app; now left|].
    unfold out. simpl e_it.
    rewrite (survives_iff keep_policy items it' Hnd Hit').
    rewrite Hsid. now rewrite Hsort. }
  assert (Hkept : greedy_keep [] pre = filter (λ k, e_it k ∈ out) pre).
  { rewrite (greedy_keep_filter pre []) at 1.
    - apply filter_ext_elem. intros k Hk. now rewrite Hout_pre.
    - now apply NoDup_app in HndS as (? & _ & _). }
  pose proof (scan_refines pre [] ids0 d0) as (Hused & _ & _).
  simpl in Hused. fold st in Hused.
  assert (Hdrop : it ∉ out ↔ ∃ k, k ∈ pre ∧ e_it k ∈ out ∧ near e k).
  { rewrite Hout_it, Hself. split.
    - intros Hnn.
      destruct (existsb (λ k, hamming64 (e_h e) (e_h k) <=? hamming_threshold)
                  (greedy_keep [] pre)) eqn:E.
      + apply existsb_near in E as (k & Hk & Hnear). exists k.
        assert (Hkp : k ∈ pre) by now apply (greedy_keep_subseteq [] pre).
        repeat split; auto. now apply Hout_pre.
      + exfalso. apply Hnn. intros Hex. apply existsb_near in Hex. congruence.
    - intros (k & Hk & Hko & Hnear) Hno. apply Hno. exists k.
      split; [now apply Hout_pre | assumption]. }
  assert (Hoid : oid (e_it e) = oid it) by now rewrite He.
  assert (Hstep : scan_step st e
            = if existsb (λ k, hamming64 (e_h e) (e_h k) <=? hamming_threshold)
                   (greedy_keep [] pre)
              then {| kept_ids := kept_ids st; used_hashes := used_hashes st;
                      dropped := S (dropped st) |}
              else {| kept_ids := {[ oid it ]} ∪ kept_ids st;
                      used_hashes := used_hashes st ++ [e_h e];
                      dropped := dropped st |}).
  { unfold scan_step. rewrite Hused, existsb_used_hashes, Hoid. reflexivity. }
  split; [intros k Hk; apply HinG, elem_of_app; now left|].
  split; [now rewrite Hused, Hkept|].
  split; [exact Hdrop|].
  split.
  - intros Hno. rewrite Hstep.
    apply Hdrop in Hno as (k & Hk & Hko & Hnear).
    assert (E : existsb (λ k, hamming64 (e_h e) (e_h k) <=? hamming_threshold)
                  (greedy_keep [] pre) = true).
    { apply existsb_near. exists k. split; [now apply Hout_pre | assumption]. }
    now rewrite E.
  - intros Hin. rewrite Hstep.
    destruct (existsb _ (greedy_keep [] pre)) eqn:E; [|reflexivity].
    exfalso. apply existsb_near in E as (k & Hk & Hnear).
    assert (Hno : it ∉ out).
    { apply Hdrop. exists k.
      assert (Hkp : k ∈ pre) by now apply (greedy_keep_subseteq [] pre).
      repeat split; auto. now apply Hout_pre. }
    contradiction.
Qed.

(** C9.  Whatever the keep-policy, the returned list is the input list with
    some entries removed: the survivors stand in the order of the input. *)
Theorem within_source_preserves_order
    (items : list Item) (keep_policy : string) :
  sublist (drop_near_duplicates_within_source items keep_policy) items
  ∧ drop_near_duplicates_within_source items keep_policy
    = filter (λ it, oid it ∈ kept_ids_of keep_policy items) items.
Proof. split; [apply sublist_filter | reflexivity]. Qed.

End Dedup.

(** *** A small run *)

Example within_source_run :
  drop_near_duplicates_within_source toy_fingerprint 4
    [run_a; run_b; run_c] "earliest" = [run_b; run_c]
  ∧ drop_near_duplicates_within_source toy_fingerprint 4
    [run_a; run_b; run_c] "latest" = [run_a; run_c].
Proof. split; vm_compute; reflexivity. Qed.

Lemma within_source_scan_spec_witness :
  run_a ∉ drop_near_duplicates_within_source toy_fingerprint 4
            [run_a; run_b; run_c] "earliest"
  ↔ ∃ k, k ∈ [enrich toy_fingerprint run_b]
         ∧ e_it k ∈ drop_near_duplicates_within_source toy_fingerprint 4
                      [run_a; run_b; run_c] "earliest"
         ∧ near 4 (enrich toy_fingerprint run_a) k.
Proof.
  apply (within_source_scan_spec toy_fingerprint 4 "earliest"
           [run_a; run_b; run_c] run_a [enrich toy_fingerprint run_b] []
           ∅ 0%nat).
  - compute_done.
  - vm_compute. reflexivity.
Defined.

End WithinSource.

(* ===================================================================== *)
(** ** Posterior category (src/llm/analyze_article.py) *)
(* ===================================================================== *)

Module Posterior.
Import PyStr.

Local Open Scope Q_scope.

(** A [dict] from category to score, in insertion order. *)
Definition dist : Type := list (string * Q).

(** Default of the configuration value [HARD_WEIGHT]. *)
Definition HARD_WEIGHT_default : Q := 3.

Definition Qlt_bool (a b : Q) : bool := negb (Qle_bool b a).

(** [max(a, b)] and [min(a, b)] on numbers: the first argument is returned
    unless the second is strictly larger (smaller). *)
Definition py_max (a b : Q) : Q := if Qlt_bool a b then b else a.
Definition py_min (a b : Q) : Q := if Qlt_bool b a then b else a.

Definition dict_has (k : string) (d : dist) : bool :=
  existsb (λ p, String.eqb p.1 k) d.


(** [d[k] += x] for a key that is present. *)
Definition dict_add (k : string) (x : Q) (d : dist) : dist :=
  (λ p, if String.eqb p.1 k then (p.1, p.2 + x) else p) <$> d.

(** [max(d.items(), key=lambda x: x[1])]: the first item with the largest
    value. *)
Definition max_item (d : dist) : option (string * Q) :=
  match d with
  | [] => None
  | p :: r => Some (fold_left (λ best q, if Qlt_bool best.2 q.2 then q else best) r p)
  end.

(** [sum(d.values())] *)
Definition dict_sum (d : dist) : Q := fold_left (λ acc p, acc + p.2) d 0.

Section WithConfig.

Variable HARD_WEIGHT : Q.

(** The first statement of [posterior_category_with_priors]: the result of
    the hard override, or [None] when control falls through. *)
Definition hard_override (expert : list string) (weight : Q)
    : option (string * dist) :=
  match expert with
  | [e] =>
      if Qle_bool HARD_WEIGHT weight then
        if str_in "要闻" e then
          Some ("news", [("news", 1); ("product", 0); ("method", 0)])
        else if str_in "产品" e then
          Some ("product", [("news", 0); ("product", 1); ("method", 0)])
        else if str_in "方法论" e || str_in "方法" e then
          Some ("method", [("news", 0); ("product", 0); ("method", 1)])
        else None
      else None
  | _ => None
  end.

(** One iteration of [for e in (expert or [])]. *)
Definition add_bias (bias_unit : Q) (base : dist) (e : string) : dist :=
  if str_in "要闻" e then dict_add "news" bias_unit base
  else if str_in "产品" e then dict_add "product" bias_unit base
  else if str_in "方法论" e || str_in "方法" e
          || str_in "运营/研发/投放方法论" e
       then dict_add "method" bias_unit base
  else if str_in "市场数据" e then dict_add "market" bias_unit base
  else base.

(** [float(confid or 0.6)]: [None] and [0] are falsy. *)
Definition confidence_or_default (confid : option Q) : Q :=
  match confid with
  | Some c => if Qeq_bool c 0 then 6 # 10 else c
  | None => 6 # 10
  end.

(** [s = sum(base.values()) or 1.0] and [for k in base: base[k] /= s] *)
Definition renormalise (base : dist) : dist :=
  let s := if Qeq_bool (dict_sum base) 0 then 1 else dict_sum base in
  (λ p, (p.1, p.2 / s)) <$> base.

(** The last three statements: renormalise, take the arg-max, return. *)
Definition normalise_and_pick (base : dist) : result (string * dist) :=
  let base := renormalise base in
  match max_item base with
  | Some p => Ok (p.1, base)
  | None => Raise (ValueError "max() arg is an empty sequence")
  end.

Definition soft_blend (llm_cat : string) (confid : option Q)
    (expert : list string) (weight : Q) : result (string * dist) :=
  let base : dist :=
    [("news", 25 # 100); ("product", 25 # 100);
     ("market", 25 # 100); ("method", 25 # 100)] in
  let c := confidence_or_default confid in
  if dict_has llm_cat base then
    let base := dict_add llm_cat ((15 # 100) * py_max 0 (py_min c 1)) base in
    let bias_unit := (12 # 100) * py_max (5 # 10) (py_min weight 4) in
    let base := fold_left (add_bias bias_unit) expert base in
    normalise_and_pick base
  else Raise (KeyError llm_cat).

Definition posterior_category_with_priors (llm_cat : string)
    (confid : option Q) (expert : list string) (weight : Q)
    : result (string * dist) :=
  match hard_override expert weight with
  | Some r => Ok r
  | None => soft_blend llm_cat confid expert weight
  end.

End WithConfig.

(** *** The label that reaches [posterior_category_with_priors] *)

Section Wrapper.

(** [str.lower] *)
Variable lower : string → string.
(** The configuration flag [ENABLE_LLM_IGNORE]. *)
Variable ENABLE_LLM_IGNORE : bool.




End Wrapper.

(** The one-hot distribution of the hard override. *)
Definition one_hot (cat : string) : dist :=
  [("news", if String.eqb cat "news" then 1 else 0);
   ("product", if String.eqb cat "product" then 1 else 0);
   ("method", if String.eqb cat "method" then 1 else 0)].

(** *** The soft blend, as the specification words it *)

Definition clamp (lo hi x : Q) : Q := Qmax lo (Qmin x hi).

(** The bucket that a tag feeds, by substring. *)
Definition tag_bucket (e : string) : option string :=
  if str_in "要闻" e then Some "news"
  else if str_in "产品" e then Some "product"
  else if str_in "方法" e then Some "method"
  else if str_in "市场数据" e then Some "market"
  else None.

(** Number of declared tags that feed bucket [b]. *)
Fixpoint tally (b : string) (expert : list string) : nat :=
  match expert with
  | [] => 0
  | e :: r =>
      (if bool_decide (tag_bucket e = Some b) then 1 else 0)%nat + tally b r
  end.

(** Score of bucket [b] before normalisation, for confidence [c]. *)
Definition blend_raw (label : string) (c : Q) (expert : list string)
    (weight : Q) (b : string) : Q :=
  (25 # 100)
  + (if String.eqb b label then (15 # 100) * clamp 0 1 c else 0)
  + (12 # 100) * clamp (5 # 10) 4 weight * inject_Z (Z.of_nat (tally b expert)).

Definition blend_total (label : string) (c : Q) (expert : list string)
    (weight : Q) : Q :=
  blend_raw label c expert weight "news"
  + blend_raw label c expert weight "product"
  + blend_raw label c expert weight "market"
  + blend_raw label c expert weight "method".

Definition blend_score (label : string) (c : Q) (expert : list string)
    (weight : Q) (b : string) : Q :=
  blend_raw label c expert weight b / blend_total label c expert weight.

Definition four (a b c d : Q) : dist :=
  [("news", a); ("product", b); ("market", c); ("method", d)].

Definition is_bucket (label : string) : Prop :=
  label = "news" ∨ label = "product" ∨ label = "market" ∨ label = "method".

(** The arg-max over the four buckets, first bucket first on ties. *)
Definition first_max (final : string) (A B C D : Q) : Prop :=
  (final = "news" ∧ B <= A ∧ C <= A ∧ D <= A)
  ∨ (final = "product" ∧ A < B ∧ C <= B ∧ D <= B)
  ∨ (final = "market" ∧ A < C ∧ B < C ∧ D <= C)
  ∨ (final = "method" ∧ A < D ∧ B < D ∧ C < D).

(** The blend with the two increments named. *)
Definition blend_core (llm_cat : string) (x u : Q) (expert : list string)
    : result (string * dist) :=
  if dict_has llm_cat (four (25 # 100) (25 # 100) (25 # 100) (25 # 100)) then
    normalise_and_pick
      (fold_left (add_bias u) expert
         (dict_add llm_cat x (four (25 # 100) (25 # 100) (25 # 100) (25 # 100))))
  else Raise (KeyError llm_cat).

(** *** The hard override *)

Lemma methodology_marker e :
  str_in "方法论" e || str_in "方法" e = str_in "方法" e.
Proof.
  destruct (str_in "方法" e) eqn:E; [apply orb_true_r|].
  rewrite orb_false_r.
  induction e as [| c r IH]; [reflexivity|].
  cbn [str_in] in E |- *. apply orb_false_iff in E as [Ep Er].
  rewrite (IH Er), orb_false_r.
  destruct (String.prefix "方法论" (String c r)) eqn:P; [|reflexivity].
  assert (Hp : String.prefix "方法" (String c r) = true); [|congruence].
  clear -P.
  repeat (match type of P with
          | String.prefix _ ?s = true =>
              destruct s as [| ? ?]; [discriminate P|]
          end;
          cbn [String.prefix] in P |- *;
          match type of P with
          | (if ?b then _ else _) = true =>
              destruct b; [|discriminate P]
          end).
  reflexivity.
Qed.

(** The override applies to a single tag that carries one of the three
    markers, tried in the order news, product, method. *)
Lemma hard_override_marker HARD_WEIGHT e w :
  HARD_WEIGHT <= w →
  hard_override HARD_WEIGHT [e] w =
  if str_in "要闻" e then Some ("news", one_hot "news")
  else if str_in "产品" e then Some ("product", one_hot "product")
  else if str_in "方法" e then Some ("method", one_hot "method")
  else None.
Proof.
  intros Hw. apply Qle_bool_iff in Hw. unfold hard_override. rewrite Hw.
  now rewrite methodology_marker.
Qed.


(** C2, as stated, asks the override of every single-tag source at or above
    the threshold.  It fails for a tag without one of the three markers:
    with expertise [["市场数据"]] and weight 5.0 the result is the soft blend,
    which is not one-hot and changes with the raw label. *)
Lemma single_tag_without_marker_not_overridden :
  posterior_category_with_priors HARD_WEIGHT_default
    "news" (Some (9 # 10)) ["市场数据"] 5
  ≠ posterior_category_with_priors HARD_WEIGHT_default
      "product" (Some (9 # 10)) ["市场数据"] 5
  ∧ ∀ cat, posterior_category_with_priors HARD_WEIGHT_default
             "news" (Some (9 # 10)) ["市场数据"] 5
           ≠ Ok (cat, one_hot cat).
Proof.
  split.
  - vm_compute. discriminate.
  - intros cat H.
    apply (f_equal (λ r, match r with
                         | Ok p => length p.2
                         | Raise _ => 0%nat
                         end)) in H.
    vm_compute in H. discriminate H.
Qed.

(** C2 (amended).  For a source that declares exactly one expertise tag
    and whose weight is at or above the threshold, when the tag carries one
    of the markers 要闻, 产品, 方法 (tried in this order), the raw label and
    confidence are ignored: the result is the marker's category (news,
    product, method) with the one-hot distribution over news, product and
    method.  In particular expertise [["要闻"]] with weight 5.0 and the
    default threshold 3.0 gives news for every raw classification. *)
Theorem hard_override_spec (HARD_WEIGHT : Q) (e : string) (w : Q)
    (llm_cat : string) (confid : option Q) :
  HARD_WEIGHT <= w →
  (str_in "要闻" e = true →
     posterior_category_with_priors HARD_WEIGHT llm_cat confid [e] w
     = Ok ("news", [("news", 1); ("product", 0); ("method", 0)]))
  ∧ (str_in "要闻" e = false → str_in "产品" e = true →
     posterior_category_with_priors HARD_WEIGHT llm_cat confid [e] w
     = Ok ("product", [("news", 0); ("product", 1); ("method", 0)]))
  ∧ (str_in "要闻" e = false → str_in "产品" e = false →
     str_in "方法" e = true →
     posterior_category_with_priors HARD_WEIGHT llm_cat confid [e] w
     = Ok ("method", [("news", 0); ("product", 0); ("method", 1)]))
  ∧ posterior_category_with_priors HARD_WEIGHT_default llm_cat confid ["要闻"] 5
    = Ok ("news", [("news", 1); ("product", 0); ("method", 0)]).
Proof.
  intros Hw. unfold posterior_category_with_priors.
  rewrite (hard_override_marker HARD_WEIGHT e w Hw).
  repeat split.
  - intros ->. reflexivity.
  - intros -> ->. reflexivity.
  - intros -> -> ->. reflexivity.
Qed.

Lemma hard_override_spec_witness :
  posterior_category_with_priors 3 "product" (Some (9 # 10)) ["产品分析"] (7 # 2)
  = Ok ("product", [("news", 0); ("product", 1); ("method", 0)]).
Proof.
  apply (hard_override_spec 3 "产品分析" (7 # 2) "product" (Some (9 # 10))).
  - unfold Qle. simpl. lia.
  - reflexivity.
  - reflexivity.
Defined.

Lemma Qlt_bool_iff a b : Qlt_bool a b = true ↔ a < b.
Proof.
  unfold Qlt_bool. rewrite negb_true_iff. split.
  - intros H. apply Qnot_le_lt. intros Hle.
    apply Qle_bool_iff in Hle. congruence.
  - intros H. destruct (Qle_bool b a) eqn:E; [|reflexivity].
    apply Qle_bool_iff in E. apply Qlt_not_le in H. contradiction.
Qed.

Lemma Qlt_bool_false a b : Qlt_bool a b = false ↔ b <= a.
Proof.
  unfold Qlt_bool. rewrite negb_false_iff. apply Qle_bool_iff.
Qed.

Lemma py_max_min_clamp lo hi x : lo <= hi → py_max lo (py_min x hi) == clamp lo hi x.
Proof.
  intros Hlh. unfold py_max, py_min, clamp.
  destruct (Qlt_bool hi x) eqn:E1.
  - apply Qlt_bool_iff in E1.
    rewrite (Q.min_r x hi) by now apply Qlt_le_weak.
    destruct (Qlt_bool lo hi) eqn:E2.
    + apply Qlt_bool_iff in E2. rewrite Q.max_r by now apply Qlt_le_weak.
      reflexivity.
    + apply Qlt_bool_false in E2. now rewrite Q.max_l.
  - apply Qlt_bool_false in E1. rewrite (Q.min_l x hi) by assumption.
    destruct (Qlt_bool lo x) eqn:E2.
    + apply Qlt_bool_iff in E2. rewrite Q.max_r by now apply Qlt_le_weak.
      reflexivity.
    + apply Qlt_bool_false in E2. now rewrite Q.max_l.
Qed.

Lemma clamp_bounds lo hi x : lo <= hi → lo <= clamp lo hi x <= hi.
Proof.
  intros Hlh. unfold clamp. split.
  - apply Q.le_max_l.
  - apply Q.max_lub; [assumption | apply Q.le_min_r].
Qed.

(** Substring facts for the markers. *)
Lemma prefix_app_inv (n s : string) :
  String.prefix n s = true → ∃ r, s = (n ++ r)%string.
Proof.
  revert s. induction n as [| a n IH]; intros s H.
  - now exists s.
  - destruct s as [| c s]; [discriminate|]. simpl in H.
    destruct (Ascii.ascii_dec a c) as [-> | Hne]; [|discriminate].
    destruct (IH s H) as [r ->]. now exists r.
Qed.

Lemma long_marker_has_method e :
  str_in "运营/研发/投放方法论" e = true → str_in "方法" e = true.
Proof.
  induction e as [| c r IH]; [discriminate|].
  intros H. change (String.prefix "运营/研发/投放方法论" (String c r)
                    || str_in "运营/研发/投放方法论" r = true) in H.
  apply orb_true_iff in H as [H | H].
  - apply prefix_app_inv in H as [rest ->]. reflexivity.
  - change (String.prefix "方法" (String c r) || str_in "方法" r = true).
    rewrite (IH H). apply orb_true_r.
Qed.

Lemma method_test e :
  str_in "方法论" e || str_in "方法" e || str_in "运营/研发/投放方法论" e
  = str_in "方法" e.
Proof.
  rewrite methodology_marker.
  destruct (str_in "方法" e) eqn:E; [reflexivity|]. simpl.
  destruct (str_in "运营/研发/投放方法论" e) eqn:E2; [|reflexivity].
  apply long_marker_has_method in E2. congruence.
Qed.

Lemma add_bias_four u a b c d e :
  add_bias u (four a b c d) e =
  match tag_bucket e with
  | Some bucket =>
      four (if String.eqb bucket "news" then a + u else a)
           (if String.eqb bucket "product" then b + u else b)
           (if String.eqb bucket "market" then c + u else c)
           (if String.eqb bucket "method" then d + u else d)
  | None => four a b c d
  end.
Proof.
  unfold add_bias, tag_bucket. rewrite method_test.
  destruct (str_in "要闻" e); [reflexivity|].
  destruct (str_in "产品" e); [reflexivity|].
  destruct (str_in "方法" e); [reflexivity|].
  destruct (str_in "市场数据" e); reflexivity.
Qed.

Lemma tally_cons b e r :
  tally b (e :: r)
  = ((if bool_decide (tag_bucket e = Some b) then 1 else 0) + tally b r)%nat.
Proof. reflexivity. Qed.

(** The loop over the tags adds one bias unit per tag to the tag's bucket. *)
Lemma fold_bias_four u expert :
  ∀ a b c d,
  ∃ a' b' c' d',
    fold_left (add_bias u) expert (four a b c d) = four a' b' c' d'
    ∧ a' == a + u * inject_Z (Z.of_nat (tally "news" expert))
    ∧ b' == b + u * inject_Z (Z.of_nat (tally "product" expert))
    ∧ c' == c + u * inject_Z (Z.of_nat (tally "market" expert))
    ∧ d' == d + u * inject_Z (Z.of_nat (tally "method" expert)).
Proof.
  induction expert as [| e r IH]; intros a b c d.
  - exists a, b, c, d. simpl. repeat split; ring.
  - cbn [fold_left]. rewrite add_bias_four, !tally_cons.
    assert (Hcases : tag_bucket e = Some "news" ∨ tag_bucket e = Some "product"
                     ∨ tag_bucket e = Some "method"
                     ∨ tag_bucket e = Some "market" ∨ tag_bucket e = None).
    { unfold tag_bucket.
      destruct (str_in "要闻" e); [tauto|].
      destruct (str_in "产品" e); [tauto|].
      destruct (str_in "方法" e); [tauto|].
      destruct (str_in "市场数据" e); tauto. }
    destruct Hcases as [-> | [-> | [-> | [-> | ->]]]];
      repeat match goal with
             | |- context [String.eqb ?x ?y] =>
                 let v := eval vm_compute in (String.eqb x y) in
                 change (String.eqb x y) with v
             end;
      cbv beta iota;
      match goal with
      | |- context [fold_left _ r (four ?x ?y ?z ?t)] =>
          destruct (IH x y z t) as (a' & b' & c' & d' & -> & Ha & Hb & Hc & Hd)
      end;
      exists a', b', c', d'; (split; [reflexivity|]);
      rewrite Ha, Hb, Hc, Hd;
      repeat (rewrite bool_decide_eq_true_2 by reflexivity);
      repeat (rewrite bool_decide_eq_false_2 by discriminate);
      rewrite ?Nat2Z.inj_add, ?inject_Z_plus; simpl inject_Z;
      repeat split; ring.
Qed.

Lemma max_item_four A B C D :
  ∃ final v, max_item (four A B C D) = Some (final, v) ∧ first_max final A B C D.
Proof.
  unfold max_item, four, first_max. cbn [fold_left snd].
  destruct (Qlt_bool A B) eqn:E1; cbn [snd];
    [apply Qlt_bool_iff in E1 | apply Qlt_bool_false in E1].
  - destruct (Qlt_bool B C) eqn:E2; cbn [snd];
      [apply Qlt_bool_iff in E2 | apply Qlt_bool_false in E2].
    + destruct (Qlt_bool C D) eqn:E3; cbn [snd];
        [apply Qlt_bool_iff in E3 | apply Qlt_bool_false in E3];
        eexists _, _; (split; [reflexivity|]).
      * right; right; right. repeat split; lra.
      * right; right; left. repeat split; lra.
    + destruct (Qlt_bool B D) eqn:E3; cbn [snd];
        [apply Qlt_bool_iff in E3 | apply Qlt_bool_false in E3];
        eexists _, _; (split; [reflexivity|]).
      * right; right; right. repeat split; lra.
      * right; left. repeat split; lra.
  - destruct (Qlt_bool A C) eqn:E2; cbn [snd];
      [apply Qlt_bool_iff in E2 | apply Qlt_bool_false in E2].
    + destruct (Qlt_bool C D) eqn:E3; cbn [snd];
        [apply Qlt_bool_iff in E3 | apply Qlt_bool_false in E3];
        eexists _, _; (split; [reflexivity|]).
      * right; right; right. repeat split; lra.
      * right; right; left. repeat split; lra.
    + destruct (Qlt_bool A D) eqn:E3; cbn [snd];
        [apply Qlt_bool_iff in E3 | apply Qlt_bool_false in E3];
        eexists _, _; (split; [reflexivity|]).
      * right; right; right. repeat split; lra.
      * left. repeat split; lra.
Qed.

Lemma renormalise_four a b c d :
  0 < a + b + c + d →
  ∃ s, s == a + b + c + d
       ∧ renormalise (four a b c d) = four (a / s) (b / s) (c / s) (d / s).
Proof.
  intros Hpos. unfold renormalise.
  assert (Hs : dict_sum (four a b c d) == a + b + c + d).
  { unfold dict_sum, four. cbn [fold_left snd]. ring. }
  destruct (Qeq_bool (dict_sum (four a b c d)) 0) eqn:E.
  - apply Qeq_bool_iff in E. rewrite Hs in E. lra.
  - exists (dict_sum (four a b c d)). split; [exact Hs | reflexivity].
Qed.

Lemma blend_raw_ge label c expert weight b :
  25 # 100 <= blend_raw label c expert weight b.
Proof.
  unfold blend_raw.
  assert (H1 : 0 <= (if String.eqb b label then (15 # 100) * clamp 0 1 c else 0)).
  { destruct (String.eqb b label); [|lra].
    pose proof (clamp_bounds 0 1 c ltac:(lra)). lra. }
  assert (H2 : 0 <= (12 # 100) * clamp (5 # 10) 4 weight
                     * inject_Z (Z.of_nat (tally b expert))).
  { apply Qmult_le_0_compat.
    - pose proof (clamp_bounds (5 # 10) 4 weight ltac:(lra)). lra.
    - change 0 with (inject_Z 0). rewrite <- Zle_Qle. lia. }
  lra.
Qed.

Lemma soft_blend_core llm_cat confid expert weight :
  soft_blend llm_cat confid expert weight
  = blend_core llm_cat
      ((15 # 100) * py_max 0 (py_min (confidence_or_default confid) 1))
      ((12 # 100) * py_max (5 # 10) (py_min weight 4)) expert.
Proof. reflexivity. Qed.

Lemma normalise_and_pick_four a b c d :
  0 < a + b + c + d →
  ∃ final A B C D,
    normalise_and_pick (four a b c d) = Ok (final, four A B C D)
    ∧ A == a / (a + b + c + d) ∧ B == b / (a + b + c + d)
    ∧ C == c / (a + b + c + d) ∧ D == d / (a + b + c + d)
    ∧ A + B + C + D == 1
    ∧ first_max final A B C D.
Proof.
  intros Hpos. unfold normalise_and_pick. cbv zeta.
  destruct (renormalise_four a b c d Hpos) as (s & Hs & ->).
  destruct (max_item_four (a / s) (b / s) (c / s) (d / s))
    as (final & v & -> & Hmax).
  exists final, (a / s), (b / s), (c / s), (d / s).
  split; [reflexivity|].
  split; [now rewrite Hs|]. split; [now rewrite Hs|].
  split; [now rewrite Hs|]. split; [now rewrite Hs|].
  split; [| exact Hmax].
  rewrite Hs. field. lra.
Qed.

Ltac eval_string_eqb :=
  repeat match goal with
         | |- context [String.eqb ?s ?t] =>
             let v := eval vm_compute in (String.eqb s t) in
             change (String.eqb s t) with v
         end;
  cbv beta iota.

(** From the buckets before the loop over the tags to the result. *)
Lemma blend_finish u expert a0 b0 c0 d0 rn rp rk rm :
  rn == a0 + u * inject_Z (Z.of_nat (tally "news" expert)) →
  rp == b0 + u * inject_Z (Z.of_nat (tally "product" expert)) →
  rk == c0 + u * inject_Z (Z.of_nat (tally "market" expert)) →
  rm == d0 + u * inject_Z (Z.of_nat (tally "method" expert)) →
  0 < rn + rp + rk + rm →
  ∃ final A B C D,
    normalise_and_pick (fold_left (add_bias u) expert (four a0 b0 c0 d0))
    = Ok (final, four A B C D)
    ∧ A == rn / (rn + rp + rk + rm)
    ∧ B == rp / (rn + rp + rk + rm)
    ∧ C == rk / (rn + rp + rk + rm)
    ∧ D == rm / (rn + rp + rk + rm)
    ∧ A + B + C + D == 1
    ∧ first_max final A B C D.
Proof.
  intros Hn Hp Hk Hm Hpos.
  destruct (fold_bias_four u expert a0 b0 c0 d0)
    as (a' & b' & c' & d' & -> & Ha & Hb & Hc & Hd).
  rewrite <- Hn in Ha. rewrite <- Hp in Hb.
  rewrite <- Hk in Hc. rewrite <- Hm in Hd.
  destruct (normalise_and_pick_four a' b' c' d')
    as (final & A & B & C & D & Hr & HA & HB & HC & HD & Hsum & Hmax).
  { now rewrite Ha, Hb, Hc, Hd. }
  exists final, A, B, C, D. split; [exact Hr|].
  split; [now rewrite HA, Ha, Hb, Hc, Hd|].
  split; [now rewrite HB, Ha, Hb, Hc, Hd|].
  split; [now rewrite HC, Ha, Hb, Hc, Hd|].
  split; [now rewrite HD, Ha, Hb, Hc, Hd|].
  split; assumption.
Qed.

Lemma blend_total_pos label c expert weight :
  0 < blend_total label c expert weight.
Proof.
  unfold blend_total.
  pose proof (blend_raw_ge label c expert weight "news").
  pose proof (blend_raw_ge label c expert weight "product").
  pose proof (blend_raw_ge label c expert weight "market").
  pose proof (blend_raw_ge label c expert weight "method").
  lra.
Qed.

(** With a label among the four buckets, the blend returns the normalised
    closed-form scores and their first arg-max. *)
Lemma blend_core_spec label c x u expert weight :
  is_bucket label →
  x == (15 # 100) * clamp 0 1 c →
  u == (12 # 100) * clamp (5 # 10) 4 weight →
  ∃ final A B C D,
    blend_core label x u expert = Ok (final, four A B C D)
    ∧ A == blend_score label c expert weight "news"
    ∧ B == blend_score label c expert weight "product"
    ∧ C == blend_score label c expert weight "market"
    ∧ D == blend_score label c expert weight "method"
    ∧ A + B + C + D == 1
    ∧ first_max final A B C D.
Proof.
  intros Hl Hx Hu. pose proof (blend_total_pos label c expert weight) as Hpos.
  unfold blend_score, blend_total in *.
  destruct Hl as [-> | [-> | [-> | ->]]].
  - change (blend_core "news" x u expert)
      with (normalise_and_pick (fold_left (add_bias u) expert
              (four ((25 # 100) + x) (25 # 100) (25 # 100) (25 # 100)))).
    apply blend_finish; [| | | | exact Hpos];
      unfold blend_raw; eval_string_eqb; rewrite Hu; try rewrite Hx; ring.
  - change (blend_core "product" x u expert)
      with (normalise_and_pick (fold_left (add_bias u) expert
              (four (25 # 100) ((25 # 100) + x) (25 # 100) (25 # 100)))).
    apply blend_finish; [| | | | exact Hpos];
      unfold blend_raw; eval_string_eqb; rewrite Hu; try rewrite Hx; ring.
  - change (blend_core "market" x u expert)
      with (normalise_and_pick (fold_left (add_bias u) expert
              (four (25 # 100) (25 # 100) ((25 # 100) + x) (25 # 100)))).
    apply blend_finish; [| | | | exact Hpos];
      unfold blend_raw; eval_string_eqb; rewrite Hu; try rewrite Hx; ring.
  - change (blend_core "method" x u expert)
      with (normalise_and_pick (fold_left (add_bias u) expert
              (four (25 # 100) (25 # 100) (25 # 100) ((25 # 100) + x)))).
    apply blend_finish; [| | | | exact Hpos];
      unfold blend_raw; eval_string_eqb; rewrite Hu; try rewrite Hx; ring.
Qed.





(** *** The label that reaches the call *)



Lemma dict_has_bucket label :
  dict_has label (four (25 # 100) (25 # 100) (25 # 100) (25 # 100)) = true
  ↔ is_bucket label.
Proof.
  unfold dict_has, four, is_bucket. cbn [existsb fst].
  rewrite !orb_true_iff, !String.eqb_eq. split.
  - intros [H | [H | [H | [H | H]]]]; auto; discriminate.
  - intros [H | [H | [H | H]]]; auto.
Qed.




End Posterior.

(* ===================================================================== *)
(** ** The warehouse: aggregate and ranked layers (src/warehouse.py) *)
(* ===================================================================== *)

Module Warehouse.
Import PyStr PyDict StableSort.

(** *** Time

    A timestamp column holds text of the form [YYYY-MM-DD HH:MM:SS], or
    NULL.  Such text is ordered as the instant it denotes; an instant is
    counted here in seconds from 1970-01-01 00:00:00. *)

(** Days from 1970-01-01 of a civil date. *)
Definition days_from_civil (y m d : Z) : Z :=
  let y := if m <=? 2 then y - 1 else y in
  let era := y / 400 in
  let yoe := y - era * 400 in
  let doy := (153 * (if 2 <? m then m - 3 else m + 9) + 2) / 5 + d - 1 in
  let doe := yoe * 365 + yoe / 4 - yoe / 100 + doy in
  era * 146097 + doe - 719468.

(** Year of the civil date that lies [days] days from 1970-01-01. *)
Definition civil_year (days : Z) : Z :=
  let z := days + 719468 in
  let era := z / 146097 in
  let doe := z - era * 146097 in
  let yoe := (doe - doe / 1460 + doe / 36524 - doe / 146096) / 365 in
  let doy := doe - (365 * yoe + yoe / 4 - yoe / 100) in
  let mp := (5 * doy + 2) / 153 in
  let m := if mp <? 10 then mp + 3 else mp - 9 in
  yoe + era * 400 + (if m <=? 2 then 1 else 0).

(** [strftime('%Y-W%W', t)]: the year, and the week of the year counted
    from the first Monday (days before it are in week 0). *)
Definition year_week (t : Z) : Z * Z :=
  let days := t / 86400 in
  let y := civil_year days in
  let yday := days - days_from_civil y 1 1 in
  let wday := (days + 4) mod 7 in
  (y, (yday + 7 - (wday + 6) mod 7) / 7).

Example year_week_2025_09_18 : year_week 1758189600 = (2025, 37).
Proof. reflexivity. Qed.
Example year_week_2025_01_05 : year_week 1736078400 = (2025, 0).
Proof. reflexivity. Qed.
Example year_week_2023_12_31 : year_week 1704067199 = (2023, 52).
Proof. reflexivity. Qed.
Example year_week_2000_02_29 : year_week 951786123 = (2000, 9).
Proof. reflexivity. Qed.

(** [datetime('now', '-N day')] with [N = int(lookback_days)]: NULL when
    the modifier does not parse, which is the case of a negative [N]. *)
Definition cutoff (now lookback_days : Z) : option Z :=
  if lookback_days <? 0 then None else Some (now - lookback_days * 86400).

(** [published_at >= datetime('now', ?)]: a comparison with NULL is not
    true. *)
Definition in_window (now lookback_days : Z) (published_at : option Z) : bool :=
  match published_at, cutoff now lookback_days with
  | Some p, Some c => c <=? p
  | _, _ => false
  end.

(** *** Tables *)

(** The columns of [dwd_news] that the two refresh operations read. *)
Record dwd_row : Type := mkDwd {
  uid : string;
  title : string;
  url : string;
  summary : option string;
  category : option string;
  source_id : option string;
  published_at : option Z;
  valid : Z
}.

Record dws_row : Type := mkDws {
  dws_year_week : Z * Z;
  dws_source_id : option string;
  dws_category : string;
  cnt : Z
}.

Record ads_row : Type := mkAds {
  ads_year_week : Z * Z;
  ads_uid : string;
  ads_title : string;
  ads_url : string;
  ads_summary : option string;
  ads_category : string;
  ads_source_id : option string;
  ads_published_at : Z;
  score : option Q;
  rank : Z
}.

Record db : Type := mkDb {
  dwd_news : list dwd_row;
  dws_weekly : list dws_row;
  ads_items : list ads_row
}.

(** [INSERT] under a PRIMARY KEY: a row whose key columns are all non-NULL
    and equal to those of a row already in the table aborts the statement
    ([key] is [None] for a row with a NULL key column, which never
    conflicts). *)
Fixpoint insert_rows {R K : Type} `{EqDecision K} (key : R → option K)
    (table new : list R) : result (list R) :=
  match new with
  | [] => Ok table
  | r :: rest =>
      match key r with
      | Some k =>
          if bool_decide (Some k ∈ key <$> table)
          then Raise (IntegrityError "UNIQUE constraint failed")
          else insert_rows key (table ++ [r]) rest
      | None => insert_rows key (table ++ [r]) rest
      end
  end.

(** [COALESCE(NULLIF(LOWER(category),''),'unknown')] *)
Definition category_or_unknown (category : option string) : string :=
  match category with
  | Some c => if String.eqb (lower_ascii c) "" then "unknown" else lower_ascii c
  | None => "unknown"
  end.

(** *** [refresh_dws] *)

(** Keys of [dws_weekly]: PRIMARY KEY(year_week, source_id, category). *)
Definition dws_key (r : dws_row) : option (Z * Z * string * string) :=
  match dws_source_id r with
  | Some s => Some (dws_year_week r, s, dws_category r)
  | None => None
  end.

(** [SELECT DISTINCT strftime('%Y-W%W', published_at) FROM dwd_news
     WHERE published_at >= datetime('now', ?)] *)
Definition dws_weeks (now lookback_days : Z) (rows : list dwd_row) : list (Z * Z) :=
  remove_dups
    (omap (λ r, if in_window now lookback_days (published_at r)
                then year_week <$> published_at r else None) rows).

(** The [SELECT ... FROM dwd_news WHERE valid=1 AND published_at IS NOT
    NULL GROUP BY 1,2,3] that feeds the INSERT: the rows selected, each with
    its timestamp, grouped by week, source and category, and counted. *)
Definition dws_selected (rows : list dwd_row) : list (dwd_row * Z) :=
  omap (λ r, match published_at r with
             | Some p => if valid r =? 1 then Some (r, p) else None
             | None => None
             end) rows.

Definition dws_group_key (rp : dwd_row * Z) : Z * Z * option string * string :=
  (year_week rp.2, source_id rp.1, category_or_unknown (category rp.1)).

Definition dws_aggregate (rows : list dwd_row) : list dws_row :=
  (λ g, {| dws_year_week := g.1.1.1; dws_source_id := g.1.1.2;
           dws_category := g.1.2; cnt := Z.of_nat (length g.2) |})
    <$> dd_group dws_group_key (dws_selected rows).

Definition refresh_dws (now lookback_days : Z) (d : db) : result db :=
  let weeks := dws_weeks now lookback_days (dwd_news d) in
  let remaining :=
    filter (λ r, dws_year_week r ∉ weeks) (dws_weekly d) in
  table ← insert_rows dws_key remaining (dws_aggregate (dwd_news d));
  Ok {| dwd_news := dwd_news d; dws_weekly := table; ads_items := ads_items d |}.

(** *** [refresh_ads] *)

(** SQL division: NULL when the divisor is zero. *)
Definition sql_div (a b : Q) : option Q :=
  if Qeq_bool b 0 then None else Some (a / b)%Q.

(** [julianday('now') - julianday(published_at)], in days. *)
Definition age_in_days (now p : Z) : Q := (inject_Z (now - p) / 86400)%Q.

(** [1.0 / (1.0 + age / 3.0)] *)
Definition recency (now p : Z) : option Q :=
  sql_div 1 (1 + age_in_days now p / 3)%Q.

(** [CASE LOWER(category) WHEN 'market' THEN 0.30 ... ELSE 0.00 END] *)
Definition cat_bonus (category : option string) : Q :=
  match category with
  | Some c =>
      let c := lower_ascii c in
      if String.eqb c "market" then 30 # 100
      else if String.eqb c "product" then 20 # 100
      else if String.eqb c "news" then 15 # 100
      else if String.eqb c "method" then 10 # 100
      else 0
  | None => 0
  end.

(** [MIN(LENGTH(COALESCE(summary,'')), 400) / 400.0] *)
Definition brevity (summary : option string) : Q :=
  (inject_Z (Z.min (Z.of_nat (py_len (default "" summary))) 400) / 400)%Q.

(** [(0.6*recency + cat_bonus + 0.2*brevity)]: NULL when [recency] is. *)
Definition score_of (now : Z) (r : dwd_row) (p : Z) : option Q :=
  match recency now p with
  | Some rec => Some ((6 # 10) * rec + cat_bonus (category r)
                      + (2 # 10) * brevity (summary r))%Q
  | None => None
  end.

(** A row of the [scored] common table expression. *)
Definition scored_row (now : Z) (r : dwd_row) (p : Z) : ads_row :=
  {| ads_year_week := year_week p; ads_uid := uid r; ads_title := title r;
     ads_url := url r; ads_summary := summary r;
     ads_category := category_or_unknown (category r);
     ads_source_id := source_id r; ads_published_at := p;
     score := score_of now r p; rank := 0 |}.

(** [FROM dwd_news WHERE valid=1 AND published_at >= datetime('now', ?)] *)
Definition scored (now lookback_days : Z) (rows : list dwd_row) : list ads_row :=
  omap (λ r, match published_at r with
             | Some p =>
                 if (valid r =? 1) && in_window now lookback_days (Some p)
                 then Some (scored_row now r p) else None
             | None => None
             end) rows.

(** Order of two scores under [ORDER BY score DESC]: NULL sorts last. *)
Definition score_ge (x y : option Q) : bool :=
  match x, y with
  | _, None => true
  | None, Some _ => false
  | Some a, Some b => Qle_bool b a
  end.

(** [PARTITION BY year_week] *)
Definition partitions (rows : list ads_row) : list (Z * Z * list ads_row) :=
  dd_group ads_year_week rows.

Definition with_rank (i : nat) (r : ads_row) : ads_row :=
  {| ads_year_week := ads_year_week r; ads_uid := ads_uid r;
     ads_title := ads_title r; ads_url := ads_url r;
     ads_summary := ads_summary r; ads_category := ads_category r;
     ads_source_id := ads_source_id r; ads_published_at := ads_published_at r;
     score := score r; rank := Z.of_nat (S i) |}.

(** [ROW_NUMBER() OVER (PARTITION BY year_week ORDER BY score DESC)]; rows
    of equal score keep the order of the table. *)
Fixpoint number_from (i : nat) (l : list ads_row) : list ads_row :=
  match l with
  | [] => []
  | r :: rest => with_rank i r :: number_from (S i) rest
  end.

Definition rank_partition (part : list ads_row) : list ads_row :=
  number_from 0 (py_sort (λ x y, score_ge (score x) (score y)) part).

Definition ranked (now lookback_days : Z) (rows : list dwd_row) : list ads_row :=
  flat_map (λ g, rank_partition g.2) (partitions (scored now lookback_days rows)).

(** The rows that the INSERT adds: [WHERE rnk <= ?]. *)
Definition ads_new_rows (now lookback_days per_week_cap : Z)
    (rows : list dwd_row) : list ads_row :=
  filter (λ r, rank r <= per_week_cap) (ranked now lookback_days rows).

(** [SELECT DISTINCT ... WHERE valid=1 AND published_at >= ...] *)
Definition ads_weeks (now lookback_days : Z) (rows : list dwd_row) : list (Z * Z) :=
  remove_dups (ads_year_week <$> scored now lookback_days rows).

(** Keys of [ads_items]: PRIMARY KEY(year_week, uid). *)
Definition ads_key (r : ads_row) : option (Z * Z * string) :=
  Some (ads_year_week r, ads_uid r).

Definition refresh_ads (now lookback_days per_week_cap : Z) (d : db) : result db :=
  let weeks := ads_weeks now lookback_days (dwd_news d) in
  let remaining := filter (λ r, ads_year_week r ∉ weeks) (ads_items d) in
  table ← insert_rows ads_key remaining
             (ads_new_rows now lookback_days per_week_cap (dwd_news d));
  Ok {| dwd_news := dwd_news d; dws_weekly := dws_weekly d; ads_items := table |}.


(** *** Sample data *)

(** 2026-11-03 08:00:00 *)
Definition run_now : Z := 1793692800.

(** Accepted, published 2026-08-01 00:00:00: older than any window used
    below. *)
Definition row_old : dwd_row :=
  {| uid := "9e7def875905a50d89cd8ee83736eb187cd5cb62";
     title := "old story"; url := "https://a.example.com/news/1";
     summary := Some "old summary"; category := Some "news";
     source_id := Some "gamelook"; published_at := Some 1785542400;
     valid := 1 |}.

(** Accepted, published 2026-11-02 08:00:00 (a Monday). *)
Definition row_market : dwd_row :=
  {| uid := "473d48f58c8212cc7a14c63401283057cdca0ca4";
     title := "market story"; url := "https://a.example.com/news/2";
     summary := Some "sales figures"; category := Some "Market";
     source_id := Some "gamelook"; published_at := Some 1793606400;
     valid := 1 |}.

(** Accepted, published 2026-11-02 20:00:00. *)
Definition row_product : dwd_row :=
  {| uid := "073d98182240ead8d05d25c9018de728e04eb7fb";
     title := "product story"; url := "https://b.example.com/post/3";
     summary := None; category := Some "product";
     source_id := None; published_at := Some 1793649600;
     valid := 1 |}.

(** Rejected as an advertisement. *)
Definition row_rejected : dwd_row :=
  {| uid := "bedb100a37fd463d55e37ba7884b8ba145829998";
     title := "ad"; url := "https://a.example.com/news/4";
     summary := None; category := None;
     source_id := Some "gamelook"; published_at := Some 1793606400;
     valid := 3 |}.

Definition run_db : db :=
  {| dwd_news := [row_old; row_market; row_product; row_rejected];
     dws_weekly := []; ads_items := [] |}.

(** A warehouse with one accepted row older than the window, before and
    after a first [refresh_dws(60)]. *)
Definition stale_db : db :=
  {| dwd_news := [row_old]; dws_weekly := []; ads_items := [] |}.

Definition stale_db_refreshed : db :=
  {| dwd_news := [row_old];
     dws_weekly :=
       [{| dws_year_week := (2026, 30); dws_source_id := Some "gamelook";
           dws_category := "news"; cnt := 1 |}];
     ads_items := [] |}.

(** *** Ranking: scores, order and cap *)




(** The rows numbered from [i + 1] are the rows of the list, in order. *)
Lemma number_from_elem i l a :
  a ∈ number_from i l ↔
  ∃ j x, l !! j = Some x ∧ a = with_rank (i + j) x.
Proof.
  revert i. induction l as [| y r IH]; intros i; simpl.
  - rewrite elem_of_nil. split; [tauto|]. intros (j & x & H & _). discriminate.
  - rewrite elem_of_cons, IH. split.
    + intros [-> | (j & x & Hj & ->)].
      * exists 0%nat, y. split; [reflexivity|]. now rewrite Nat.add_0_r.
      * exists (S j), x. split; [assumption|]. f_equal. lia.
    + intros ([| j] & x & Hj & ->).
      * left. injection Hj as ->. now rewrite Nat.add_0_r.
      * right. exists j, x. split; [assumption|]. f_equal. lia.
Qed.

Lemma number_from_length i l : length (number_from i l) = length l.
Proof. revert i. induction l as [| y r IH]; intros i; simpl; auto. Qed.




Lemma filter_all {A} (P : A → Prop) `{∀ x, Decision (P x)} (l : list A) :
  (∀ x, x ∈ l → P x) → filter P l = l.
Proof.
  induction l as [| x r IH]; intros Hall; [reflexivity|].
  rewrite filter_cons, decide_True by apply Hall, list_elem_of_here.
  f_equal. apply IH. intros y Hy. apply Hall. now apply list_elem_of_further.
Qed.

Lemma filter_none {A} (P : A → Prop) `{∀ x, Decision (P x)} (l : list A) :
  (∀ x, x ∈ l → ¬ P x) → filter P l = [].
Proof.
  induction l as [| x r IH]; intros Hall; [reflexivity|].
  rewrite filter_cons, decide_False by apply Hall, list_elem_of_here.
  apply IH. intros y Hy. apply Hall. now apply list_elem_of_further.
Qed.



Lemma partitions_spec rows :
  NoDup (partitions rows).*1
  ∧ ∀ w part, (w, part) ∈ partitions rows ↔
              part ≠ [] ∧ part = filter (λ x, ads_year_week x = w) rows.
Proof. apply (dd_group_spec ads_year_week rows). Qed.

Lemma rank_partition_elem part a :
  a ∈ rank_partition part →
  ∃ j x, x ∈ part ∧ a = with_rank j x.
Proof.
  unfold rank_partition. intros H.
  apply number_from_elem in H as (j & x & Hj & ->).
  exists (0 + j)%nat, x. split; [|reflexivity].
  apply list_elem_of_lookup_2 in Hj. now rewrite py_sort_perm in Hj.
Qed.

Lemma rank_partition_week rows w part a :
  (w, part) ∈ partitions rows → a ∈ rank_partition part →
  ads_year_week a = w.
Proof.
  intros Hp Ha. apply partitions_spec in Hp as [_ ->].
  apply rank_partition_elem in Ha as (j & x & Hx & ->).
  apply list_elem_of_filter in Hx as [Hw _]. exact Hw.
Qed.

Lemma ranked_elem now lb rows a :
  a ∈ ranked now lb rows ↔
  ∃ w part, (w, part) ∈ partitions (scored now lb rows)
            ∧ a ∈ rank_partition part.
Proof.
  unfold ranked. rewrite list_elem_of_In, in_flat_map. split.
  - intros ([w part] & Hg & Ha). exists w, part.
    split; now apply list_elem_of_In.
  - intros (w & part & Hg & Ha). exists (w, part).
    split; now apply list_elem_of_In.
Qed.

(** Every ranked row is a scored row with a number, and every scored row is
    ranked. *)
Lemma ranked_scored now lb rows a :
  a ∈ ranked now lb rows →
  ∃ j x, x ∈ scored now lb rows ∧ a = with_rank j x.
Proof.
  intros Ha. apply ranked_elem in Ha as (w & part & Hp & Ha).
  apply rank_partition_elem in Ha as (j & x & Hx & ->).
  apply partitions_spec in Hp as [_ ->].
  apply list_elem_of_filter in Hx as [_ Hx]. now exists j, x.
Qed.



Lemma ranked_week_slice now lb rows w :
  ∃ part, filter (λ a, ads_year_week a = w) (ranked now lb rows)
          = rank_partition part.
Proof.
  unfold ranked.
  destruct (partitions_spec (scored now lb rows)) as [Hnd _].
  assert (Hwk : ∀ g a, g ∈ partitions (scored now lb rows) →
                  a ∈ rank_partition g.2 → ads_year_week a = g.1).
  { intros [w' part] a Hg Ha. eapply rank_partition_week; eauto. }
  induction (partitions (scored now lb rows)) as [| g rest IH].
  - exists []. reflexivity.
  - simpl. rewrite filter_app. apply NoDup_cons in Hnd as [Hg Hrest].
    destruct (decide (g.1 = w)) as [E | E].
    + exists g.2. rewrite filter_all.
      * rewrite filter_none; [now rewrite app_nil_r|].
        intros a Ha Hw. apply list_elem_of_In, in_flat_map in Ha
          as (g' & Hg' & Ha).
        apply list_elem_of_In in Hg', Ha.
        assert (g'.1 = w).
        { rewrite <- Hw. symmetry. apply Hwk; [now apply list_elem_of_further | assumption]. }
        apply Hg. rewrite E, <- H. now apply list_elem_of_fmap_2.
      * intros a Ha. rewrite <- E. apply Hwk; [apply list_elem_of_here | assumption].
    + destruct IH as [part Hpart]; [assumption | |].
      * intros g' a Hg' Ha. apply Hwk; [now apply list_elem_of_further | assumption].
      * exists part. rewrite filter_none; [exact Hpart|].
        intros a Ha Hw. apply E. rewrite <- Hw. symmetry.
        apply Hwk; [apply list_elem_of_here | assumption].
Qed.





(** *** When a repeated refresh is a no-op *)

Lemma key_in_table {R K} `{EqDecision K} (key : R → option K)
    (table : list R) k :
  Some k ∈ key <$> table ↔ k ∈ omap key table.
Proof.
  rewrite list_elem_of_fmap, list_elem_of_omap. split.
  - intros (r & Hk & Hr). now exists r.
  - intros (r & Hr & Hk). now exists r.
Qed.

(** An INSERT of rows with fresh, pairwise distinct keys succeeds. *)
Lemma insert_rows_fresh {R K} `{EqDecision K} (key : R → option K) new :
  ∀ table,
    NoDup (omap key new) →
    (∀ k, k ∈ omap key new → k ∉ omap key table) →
    insert_rows key table new = Ok (table ++ new).
Proof.
  induction new as [| r rest IH]; intros table Hnd Hfresh; simpl.
  - now rewrite app_nil_r.
  - simpl in Hnd, Hfresh. destruct (key r) as [k|] eqn:Ek.
    + apply NoDup_cons in Hnd as [Hk Hnd].
      rewrite bool_decide_eq_false_2.
      * rewrite IH; [now rewrite <- app_assoc | assumption |].
        intros k' Hk'. rewrite omap_app. simpl. rewrite Ek.
        rewrite elem_of_app, list_elem_of_singleton.
        intros [H' | ->]; [|contradiction].
        apply (Hfresh k'); [now apply list_elem_of_further | assumption].
      * rewrite key_in_table. apply Hfresh, list_elem_of_here.
    + rewrite IH; [now rewrite <- app_assoc | assumption |].
      intros k' Hk'. rewrite omap_app. simpl. rewrite Ek, app_nil_r.
      now apply Hfresh.
Qed.

(** Delete-then-insert, in general: when the rows to insert have fresh
    keys once the old rows carrying a mark (a week) in [marks] are gone,
    and all carry such a mark themselves, then doing it twice is doing it
    once. *)
Lemma replace_slice_twice {R K M} `{EqDecision K} `{EqDecision M}
    (key : R → option K) (mark : R → M) (marks : list M) (table new : list R) :
  NoDup (omap key new) →
  (∀ r, r ∈ new → mark r ∈ marks) →
  (∀ r r', r ∈ new → r' ∈ table → mark r' ∉ marks → key r ≠ key r' ∨ key r = None) →
  let remaining := filter (λ r, mark r ∉ marks) table in
  insert_rows key remaining new = Ok (remaining ++ new)
  ∧ insert_rows key (filter (λ r, mark r ∉ marks) (remaining ++ new)) new
    = Ok (remaining ++ new).
Proof.
  intros Hnd Hmarks Hkeys remaining.
  assert (Hfresh : ∀ k, k ∈ omap key new → k ∉ omap key remaining).
  { intros k Hk Hk'.
    apply list_elem_of_omap in Hk as (r & Hr & Ekr).
    apply list_elem_of_omap in Hk' as (r' & Hr' & Ekr').
    apply list_elem_of_filter in Hr' as [Hm Hr'].
    destruct (Hkeys r r' Hr Hr' Hm) as [H' | H']; congruence. }
  split; [now apply insert_rows_fresh|].
  rewrite filter_app.
  rewrite (filter_all _ remaining).
  - rewrite (filter_none _ new).
    + rewrite app_nil_r. now apply insert_rows_fresh.
    + intros r Hr Hm. apply Hm. now apply Hmarks.
  - intros r Hr. now apply list_elem_of_filter in Hr as [Hm _].
Qed.

Lemma number_from_uids i l : ads_uid <$> number_from i l = ads_uid <$> l.
Proof.
  revert i. induction l as [| x r IH]; intros i; simpl; [reflexivity|].
  now rewrite IH.
Qed.

Lemma flat_map_uids (parts : list (Z * Z * list ads_row)) :
  ads_uid <$> flat_map (λ g, rank_partition g.2) parts
  ≡ₚ ads_uid <$> concat parts.*2.
Proof.
  induction parts as [| g rest IH]; simpl; [reflexivity|].
  rewrite !fmap_app, IH. apply Permutation_app_tail.
  unfold rank_partition. rewrite number_from_uids. now rewrite py_sort_perm.
Qed.

Lemma omap_sublist {A B C} (f : A → option B) (g : B → C) (h : A → C)
    (l : list A) :
  (∀ x y, f x = Some y → g y = h x) →
  g <$> omap f l `sublist_of` h <$> l.
Proof.
  intros Hf. induction l as [| x l IH]; [constructor|].
  cbn [omap list_omap]. rewrite fmap_cons.
  destruct (f x) as [y|] eqn:E.
  - rewrite fmap_cons, (Hf x y E). now apply sublist_skip.
  - now apply sublist_cons.
Qed.

Lemma scored_uids now lb rows :
  ads_uid <$> scored now lb rows `sublist_of` uid <$> rows.
Proof.
  unfold scored. apply omap_sublist. intros r y H.
  destruct (published_at r) as [p|]; [|discriminate].
  destruct ((valid r =? 1) && in_window now lb (Some p)); [|discriminate].
  now injection H as <-.
Qed.

Lemma new_rows_keys now lb cap rows :
  NoDup (uid <$> rows) → NoDup (omap ads_key (ads_new_rows now lb cap rows)).
Proof.
  intros Hnd.
  assert (Hr : NoDup (ads_uid <$> ranked now lb rows)).
  { unfold ranked, partitions. rewrite flat_map_uids, dd_group_concat.
    eapply sublist_NoDup; [exact Hnd | apply scored_uids]. }
  assert (Hn : NoDup (ads_uid <$> ads_new_rows now lb cap rows)).
  { eapply sublist_NoDup; [exact Hr|]. apply fmap_sublist, sublist_filter. }
  revert Hn. generalize (ads_new_rows now lb cap rows). intros l.
  induction l as [| a l IH]; simpl; [constructor|].
  rewrite !NoDup_cons. intros [Ha Hl]. split; [| now apply IH].
  intros H. apply Ha. apply list_elem_of_omap in H as (b & Hb & Eb).
  injection Eb as _ Eu. rewrite <- Eu. now apply list_elem_of_fmap_2.
Qed.

Lemma new_rows_weeks now lb cap rows a :
  a ∈ ads_new_rows now lb cap rows → ads_year_week a ∈ ads_weeks now lb rows.
Proof.
  intros Ha. apply list_elem_of_filter in Ha as [_ Ha].
  apply ranked_scored in Ha as (j & x & Hx & ->). simpl.
  unfold ads_weeks. apply elem_of_remove_dups. now apply list_elem_of_fmap_2.
Qed.

(** [refresh_ads], evaluated twice at the same instant on a table of
    distinct content identities, succeeds both times and the second call
    changes nothing. *)
Lemma refresh_ads_idempotent now lb cap (d : db) :
  NoDup (uid <$> dwd_news d) →
  ∃ d1, refresh_ads now lb cap d = Ok d1 ∧ refresh_ads now lb cap d1 = Ok d1.
Proof.
  intros Hnd.
  destruct (replace_slice_twice ads_key ads_year_week
              (ads_weeks now lb (dwd_news d)) (ads_items d)
              (ads_new_rows now lb cap (dwd_news d))) as [H1 H2].
  - now apply new_rows_keys.
  - intros r. apply new_rows_weeks.
  - intros r r' Hr Hr' Hm. left. intros E. injection E as Ew _.
    apply Hm. rewrite <- Ew. eapply new_rows_weeks; eauto.
  - exists {| dwd_news := dwd_news d; dws_weekly := dws_weekly d;
              ads_items :=
                filter (λ r, ads_year_week r ∉ ads_weeks now lb (dwd_news d))
                  (ads_items d) ++ ads_new_rows now lb cap (dwd_news d) |}.
    split; unfold refresh_ads; cbv zeta; cbn [dwd_news ads_items dws_weekly].
    + rewrite H1. reflexivity.
    + rewrite H2. reflexivity.
Qed.

Lemma dws_aggregate_keys rows : NoDup (omap dws_key (dws_aggregate rows)).
Proof.
  unfold dws_aggregate.
  destruct (dd_group_spec dws_group_key (dws_selected rows)) as [Hnd _].
  revert Hnd. generalize (dd_group dws_group_key (dws_selected rows)).
  intros l. induction l as [| [[[w s] c] part] l IH]; simpl; [constructor|].
  rewrite NoDup_cons. intros [Hg Hl]. unfold dws_key at 1. simpl.
  destruct s as [s|]; [| now apply IH].
  apply NoDup_cons. split; [| now apply IH].
  intros H. apply Hg. apply list_elem_of_omap in H as (b & Hb & Eb).
  apply list_elem_of_fmap in Hb as ([[[w' s'] c'] part'] & -> & Hb).
  unfold dws_key in Eb. simpl in Eb. destruct s' as [s'|]; [|discriminate].
  injection Eb as -> -> ->. apply list_elem_of_fmap. now exists (w, Some s, c, part').
Qed.

Lemma dws_aggregate_weeks now lb rows a :
  (∀ r p, r ∈ rows → valid r = 1 → published_at r = Some p →
          in_window now lb (Some p) = true) →
  a ∈ dws_aggregate rows → dws_year_week a ∈ dws_weeks now lb rows.
Proof.
  intros Hwin Ha. unfold dws_aggregate in Ha.
  apply list_elem_of_fmap in Ha as ([[[w s] c] part] & -> & Hg). simpl.
  apply (dd_group_spec dws_group_key) in Hg as [Hne Hpart].
  destruct part as [| [r p] part]; [congruence|].
  assert (Hin : (r, p) ∈ filter (λ x, dws_group_key x = (w, s, c))
                          (dws_selected rows))
    by (rewrite <- Hpart; apply list_elem_of_here).
  apply list_elem_of_filter in Hin as [Hk Hsel].
  injection Hk as <- _ _.
  unfold dws_selected in Hsel. apply list_elem_of_omap in Hsel as (r' & Hr' & E).
  destruct (published_at r') as [p'|] eqn:Ep; [|discriminate].
  destruct (Z.eqb_spec (valid r') 1) as [Hv|]; [|discriminate].
  injection E as -> ->.
  unfold dws_weeks. apply elem_of_remove_dups, list_elem_of_omap.
  exists r. split; [assumption|].
  rewrite Ep, (Hwin r p Hr' Hv Ep). reflexivity.
Qed.

(** [refresh_dws] is a no-op the second time provided that every accepted
    row lies inside the lookback window: the condition that its INSERT
    does not state. *)
Lemma refresh_dws_idempotent_in_window now lb (d : db) :
  (∀ r p, r ∈ dwd_news d → valid r = 1 → published_at r = Some p →
          in_window now lb (Some p) = true) →
  ∃ d1, refresh_dws now lb d = Ok d1 ∧ refresh_dws now lb d1 = Ok d1.
Proof.
  intros Hwin.
  destruct (replace_slice_twice dws_key dws_year_week
              (dws_weeks now lb (dwd_news d)) (dws_weekly d)
              (dws_aggregate (dwd_news d))) as [H1 H2].
  - apply dws_aggregate_keys.
  - intros r. now apply dws_aggregate_weeks.
  - intros r r' Hr Hr' Hm.
    destruct (dws_key r) as [[[w s] c]|] eqn:Er; [|now right].
    left. intros E. symmetry in E. unfold dws_key in Er, E.
    destruct (dws_source_id r); [|discriminate].
    destruct (dws_source_id r'); [|discriminate].
    injection Er as Ew _ _. injection E as Ew' _ _.
    apply Hm. rewrite Ew', <- Ew. now apply (dws_aggregate_weeks now lb (dwd_news d)).
  - exists {| dwd_news := dwd_news d;
              dws_weekly :=
                filter (λ r, dws_year_week r ∉ dws_weeks now lb (dwd_news d))
                  (dws_weekly d) ++ dws_aggregate (dwd_news d);
              ads_items := ads_items d |}.
    split; unfold refresh_dws; cbv zeta; cbn [dwd_news ads_items dws_weekly].
    + rewrite H1. reflexivity.
    + rewrite H2. reflexivity.
Qed.

(** *** A small warehouse *)

Example ranked_run :
  (λ a, (ads_year_week a, ads_uid a, ads_category a, score a, rank a))
    <$> ads_new_rows run_now 30 5 (dwd_news run_db)
  = [((2026, 44), uid row_market, "market",
      Some (1045785600000 # 1382400000000), 1);
     ((2026, 44), uid row_product, "product",
      Some (864000000000 # 1209600000000), 2)].
Proof. vm_compute. reflexivity. Qed.

Example ranked_run_scores :
  (1045785600000 # 1382400000000 == 7565 # 10000)%Q
  ∧ (864000000000 # 1209600000000 == 5 # 7)%Q.
Proof. split; reflexivity. Qed.

Example ranked_run_capped :
  ads_uid <$> ads_new_rows run_now 30 1 (dwd_news run_db) = [uid row_market].
Proof. vm_compute. reflexivity. Qed.


(** *** Refreshing the aggregate layer twice *)

Lemma stale_row_outside_window now' :
  run_now <= now' → in_window now' 60 (published_at row_old) = false.
Proof.
  intros H. unfold in_window, cutoff, row_old, run_now in *. simpl.
  apply Z.leb_gt. lia.
Qed.

(** C1.  The warehouse holds one accepted row, published in week 30 of
    2026, more than 60 days before the refresh.  The first
    [refresh_dws(60)] succeeds and writes the aggregate row of that week.
    A second call, at the same time or later, with no change to the data,
    fails: the week is not among the weeks to delete, since these are
    taken inside the lookback window, but its aggregate is inserted again,
    since the INSERT reads every accepted row, and the primary key
    rejects it. *)
Theorem refresh_dws_twice_fails (now' : Z) :
  refresh_dws run_now 60 stale_db = Ok stale_db_refreshed
  ∧ (run_now <= now' →
     refresh_dws now' 60 stale_db_refreshed
     = Raise (IntegrityError "UNIQUE constraint failed")).
Proof.
  split; [reflexivity|].
  intros H. unfold refresh_dws, dws_weeks. cbv zeta.
  cbn [dwd_news stale_db_refreshed omap list_omap].
  rewrite (stale_row_outside_window now' H). reflexivity.
Qed.

Lemma refresh_dws_twice_fails_witness :
  refresh_dws (run_now + 86400) 60 stale_db_refreshed
  = Raise (IntegrityError "UNIQUE constraint failed").
Proof.
  apply (refresh_dws_twice_fails (run_now + 86400)). unfold run_now. lia.
Defined.

End Warehouse.
(* ===================================================================== *)
(** ** Fingerprints (src/utils/simhash_utils.py, src/post_process_dedup.py) *)
(* ===================================================================== *)

Module Fingerprint.
Import PyStr Similarity.

(** [Counter(tokens)]: every token with its number of occurrences, in the
    order of first occurrence. *)
Fixpoint counter_add (tok : string) (cnt : list (string * Z)) : list (string * Z) :=
  match cnt with
  | [] => [(tok, 1)]
  | (t, w) :: r =>
      if String.eqb t tok then (t, w + 1) :: r else (t, w) :: counter_add tok r
  end.

Definition Counter (tokens : list string) : list (string * Z) :=
  fold_left (λ cnt tok, counter_add tok cnt) tokens [].

(** [s[i:i+2]] *)
Definition bigram (s : string) (i : nat) : string := py_take 2 (py_drop i s).

Section Simhash.

(** [int(hashlib.md5(tok.encode("utf-8")).hexdigest(), 16)] *)
Variable md5 : string → Z.
(** [str.strip] *)
Variable strip : string → string.

(** The body of [for tok, w in cnt.items()]: for [i] in [range(64)],
    [v[i] += w if (h >> i) & 1 else -w]. *)
Definition vote (v : list Z) (tw : string * Z) : list Z :=
  let h := md5 tw.1 in
  fold_left
    (λ v i, alter (λ x, if Z.eqb (Z.land (Z.shiftr h (Z.of_nat i)) 1) 0
                        then x - tw.2 else x + tw.2) i v)
    (seq 0 64) v.

(** The last loop: [if v[i] > 0: out |= (1 << i)]. *)
Definition pack (v : list Z) (n : nat) : Z :=
  fold_left
    (λ out i, if 0 <? v !!! i then Z.lor out (Z.shiftl 1 (Z.of_nat i)) else out)
    (seq 0 n) 0.

(** What the two functions share, from [Counter] on. *)
Definition simhash_of_tokens (tokens : list string) : Z :=
  let cnt := Counter tokens in
  let v := fold_left vote cnt (replicate 64 0) in
  pack v 64.

(** [simhash64] of src/utils/simhash_utils.py. *)
Definition simhash64 (s : string) : Z :=
  if String.eqb s "" then 0
  else
    let s := strip s in
    let tokens := bigram s <$> seq 0 (py_len s - 1) in
    let tokens := match tokens with [] => [s] | _ => tokens end in
    simhash_of_tokens tokens.

(** [simhash64] of src/post_process_dedup.py, which does not strip and
    takes [range(max(len(s)-1,1))]. *)
Definition simhash64_md (s : string) : Z :=
  if String.eqb s "" then 0
  else
    let toks := bigram s <$> seq 0 (Nat.max (py_len s - 1) 1) in
    simhash_of_tokens toks.

End Simhash.

(** A Python [str] encodes to bytes that begin a code point. *)
Definition starts_code_point (s : string) : bool :=
  match s with
  | EmptyString => true
  | String c _ => negb (is_continuation c)
  end.

(** *** Bit counting *)

Lemma bit_count_div2 z :
  0 <= z → bit_count z = Z.b2z (Z.odd z) + bit_count (Z.div2 z).
Proof.
  destruct z as [| p | p]; intros Hz; [reflexivity | | lia].
  destruct p; simpl; lia.
Qed.

Lemma bit_count_zero z : bit_count z = 0 ↔ z = 0.
Proof.
  split; [| now intros ->].
  assert (Hp : ∀ p, (0 < pos_bit_count p)%nat) by (induction p; simpl; lia).
  destruct z as [| p | p]; simpl; [reflexivity | |]; pose proof (Hp p); lia.
Qed.

Lemma div2_bound n z : 0 <= z < 2 ^ Z.of_nat (S n) → 0 <= Z.div2 z < 2 ^ Z.of_nat n.
Proof.
  intros [H0 H1]. rewrite Nat2Z.inj_succ, Z.pow_succ_r in H1 by lia.
  rewrite Z.div2_div. split; [apply Z.div_pos; lia|].
  apply Z.div_lt_upper_bound; lia.
Qed.

Lemma bit_count_bound n : ∀ z, 0 <= z < 2 ^ Z.of_nat n → bit_count z <= Z.of_nat n.
Proof.
  induction n as [| n IH]; intros z Hz.
  - simpl in Hz. assert (z = 0) as -> by lia. simpl. lia.
  - rewrite bit_count_div2 by lia.
    pose proof (IH _ (div2_bound n z Hz)).
    destruct (Z.odd z); simpl; lia.
Qed.

Lemma hamming64_div2 a b :
  0 <= a → 0 <= b →
  hamming64 a b
  = Z.b2z (xorb (Z.odd a) (Z.odd b)) + hamming64 (Z.div2 a) (Z.div2 b).
Proof.
  intros Ha Hb. unfold hamming64.
  rewrite bit_count_div2 by (apply Z.lxor_nonneg; tauto).
  rewrite <- !Z.bit0_odd, Z.lxor_spec, !Z.div2_spec, Z.shiftr_lxor.
  reflexivity.
Qed.

Lemma hamming64_triangle_bounded n :
  ∀ a b c,
    0 <= a < 2 ^ Z.of_nat n → 0 <= b < 2 ^ Z.of_nat n → 0 <= c < 2 ^ Z.of_nat n →
    hamming64 a c <= hamming64 a b + hamming64 b c.
Proof.
  induction n as [| n IH]; intros a b c Ha Hb Hc.
  - simpl in *. assert (a = 0) as -> by lia. assert (b = 0) as -> by lia.
    assert (c = 0) as -> by lia. vm_compute. discriminate.
  - rewrite (hamming64_div2 a c), (hamming64_div2 a b), (hamming64_div2 b c) by lia.
    pose proof (IH _ _ _ (div2_bound n a Ha) (div2_bound n b Hb) (div2_bound n c Hc)).
    destruct (Z.odd a), (Z.odd b), (Z.odd c); simpl; lia.
Qed.

Lemma below_pow2 z : 0 <= z → z < 2 ^ Z.of_nat (Z.to_nat z).
Proof. intros Hz. rewrite Z2Nat.id by lia. apply Z.pow_gt_lin_r; lia. Qed.

Lemma lor_bit_bound n out :
  0 <= out < 2 ^ Z.of_nat n →
  0 <= Z.lor out (Z.shiftl 1 (Z.of_nat n)) < 2 ^ Z.of_nat (S n).
Proof.
  intros [H0 H1]. rewrite Z.shiftl_1_l.
  assert (Hp : 0 < 2 ^ Z.of_nat n) by (apply Z.pow_pos_nonneg; lia).
  assert (Hnn : 0 <= Z.lor out (2 ^ Z.of_nat n)) by (apply Z.lor_nonneg; lia).
  split; [assumption|].
  assert (Hne : Z.lor out (2 ^ Z.of_nat n) ≠ 0).
  { intros E. apply Z.lor_eq_0_iff in E. lia. }
  apply Z.log2_lt_pow2; [lia|].
  rewrite Z.log2_lor, Z.log2_pow2 by lia.
  destruct (Z.eq_dec out 0) as [-> | Hout]; [simpl; lia|].
  assert (Z.log2 out < Z.of_nat n) by (apply Z.log2_lt_pow2; lia). lia.
Qed.

Lemma lxor_bound n a b :
  0 <= a < 2 ^ Z.of_nat n → 0 <= b < 2 ^ Z.of_nat n →
  0 <= Z.lxor a b < 2 ^ Z.of_nat n.
Proof.
  intros Ha Hb.
  assert (Hnn : 0 <= Z.lxor a b) by (apply Z.lxor_nonneg; lia).
  split; [assumption|].
  destruct (Z.eq_dec (Z.lxor a b) 0) as [-> | Hne]; [apply Z.pow_pos_nonneg; lia|].
  apply Z.log2_lt_pow2; [lia|].
  pose proof (Z.log2_lxor a b ltac:(lia) ltac:(lia)) as Hl.
  assert (Hn : 0 < Z.of_nat n).
  { destruct n; [| lia]. simpl in Ha, Hb.
    assert (a = 0) as -> by lia. assert (b = 0) as -> by lia.
    now simpl in Hne. }
  assert (Hlog : ∀ x, 0 <= x < 2 ^ Z.of_nat n → Z.log2 x < Z.of_nat n).
  { intros x Hx. destruct (Z.eq_dec x 0) as [-> | Hx0]; [simpl; lia|].
    apply Z.log2_lt_pow2; lia. }
  pose proof (Hlog a Ha). pose proof (Hlog b Hb). lia.
Qed.

Section SimhashFacts.
Variable md5 : string → Z.
Variable strip : string → string.

Lemma pack_range v n : 0 <= pack v n < 2 ^ Z.of_nat n.
Proof.
  unfold pack. induction n as [| n IH].
  - simpl. lia.
  - rewrite seq_S, fold_left_app. simpl.
    destruct (0 <? v !!! n).
    + now apply lor_bit_bound.
    + rewrite Nat2Z.inj_succ, Z.pow_succ_r by lia. lia.
Qed.

Lemma simhash_of_tokens_range tokens :
  0 <= simhash_of_tokens md5 tokens < 2 ^ 64.
Proof. unfold simhash_of_tokens. apply (pack_range _ 64). Qed.

Lemma simhash64_range s : 0 <= simhash64 md5 strip s < 2 ^ 64.
Proof.
  unfold simhash64. destruct (String.eqb s ""); [lia|].
  apply simhash_of_tokens_range.
Qed.

Lemma simhash64_md_range s : 0 <= simhash64_md md5 s < 2 ^ 64.
Proof.
  unfold simhash64_md. destruct (String.eqb s ""); [lia|].
  apply simhash_of_tokens_range.
Qed.

End SimhashFacts.

(** *** Slices by code points *)

Lemma py_drop_0 s : starts_code_point s = true → py_drop 0 s = s.
Proof. destruct s as [| c r]; simpl; [reflexivity|]. now destruct (is_continuation c). Qed.

Lemma py_take_all n s : (py_len s <= n)%nat → py_take n s = s.
Proof.
  revert n. induction s as [| c r IH]; intros n; simpl; [reflexivity|].
  destruct (is_continuation c); intros H.
  - now rewrite IH.
  - destruct n; [lia|]. rewrite IH by lia. reflexivity.
Qed.

Lemma py_len_take n s : py_len (py_take n s) = Nat.min n (py_len s).
Proof.
  revert n. induction s as [| c r IH]; intros n; simpl; [lia|].
  destruct (is_continuation c) eqn:E.
  - simpl. now rewrite E, IH.
  - destruct n; [reflexivity|]. simpl. rewrite E, IH. reflexivity.
Qed.

Lemma py_len_drop n s : py_len (py_drop n s) = (py_len s - n)%nat.
Proof.
  revert n. induction s as [| c r IH]; intros n; simpl; [reflexivity|].
  destruct (is_continuation c) eqn:E; [apply IH|].
  destruct n; [simpl; now rewrite E | apply IH].
Qed.

Lemma py_len_pos s : s ≠ "" → starts_code_point s = true → (0 < py_len s)%nat.
Proof.
  destruct s as [| c r]; [congruence|]. simpl.
  destruct (is_continuation c); [discriminate | lia].
Qed.

(** X1.  On non-negative integers the bit distance is a metric: it is never
    negative, it is zero exactly between equal numbers, it is symmetric, and
    the distance from [a] to [c] is at most the distance from [a] to [b]
    plus the distance from [b] to [c]. *)
Theorem hamming64_metric (a b c : Z) :
  0 <= a → 0 <= b → 0 <= c →
  0 <= hamming64 a b
  ∧ (hamming64 a b = 0 ↔ a = b)
  ∧ hamming64 a b = hamming64 b a
  ∧ hamming64 a c <= hamming64 a b + hamming64 b c.
Proof.
  intros Ha Hb Hc. split; [apply bit_count_nonneg|].
  split; [unfold hamming64; now rewrite bit_count_zero, Z.lxor_eq_0_iff|].
  split; [apply hamming64_sym|].
  apply (hamming64_triangle_bounded (Z.to_nat (a + b + c))).
  - pose proof (below_pow2 (a + b + c)). lia.
  - pose proof (below_pow2 (a + b + c)). lia.
  - pose proof (below_pow2 (a + b + c)). lia.
Qed.

Lemma hamming64_metric_witness :
  hamming64 5 6 <= hamming64 5 3 + hamming64 3 6.
Proof. apply (hamming64_metric 5 3 6); lia. Defined.

(** X2.  Whatever the digest function, both fingerprint functions return a
    number in [[0, 2^64)]; so two fingerprints are never more than 64 bits
    apart. *)
Theorem simhash64_range_spec (md5 : string → Z) (strip : string → string)
    (s t : string) :
  0 <= simhash64 md5 strip s < 2 ^ 64
  ∧ 0 <= simhash64_md md5 s < 2 ^ 64
  ∧ hamming64 (simhash64 md5 strip s) (simhash64 md5 strip t) <= 64
  ∧ hamdist64 (simhash64_md md5 s) (simhash64_md md5 t) <= 64.
Proof.
  pose proof (simhash64_range md5 strip s) as Hs.
  pose proof (simhash64_range md5 strip t) as Ht.
  pose proof (simhash64_md_range md5 s) as Hs'.
  pose proof (simhash64_md_range md5 t) as Ht'.
  repeat split; try lia.
  - apply (bit_count_bound 64). now apply (lxor_bound 64).
  - apply (bit_count_bound 64). now apply (lxor_bound 64).
Qed.

(** X3.  On a text that [strip] leaves unchanged, the fingerprint of
    src/utils/simhash_utils.py and the one of src/post_process_dedup.py are
    the same number. *)
Theorem simhash64_variants_agree (md5 : string → Z) (strip : string → string)
    (s : string) :
  strip s = s → starts_code_point s = true →
  simhash64 md5 strip s = simhash64_md md5 s.
Proof.
  intros Hstrip Hstart. unfold simhash64, simhash64_md.
  destruct (String.eqb_spec s "") as [| Hne]; [reflexivity|].
  rewrite Hstrip.
  pose proof (py_len_pos s Hne Hstart) as Hlen.
  destruct (py_len s - 1)%nat as [| m] eqn:E.
  - simpl. unfold bigram. rewrite py_drop_0 by assumption.
    rewrite py_take_all by lia. reflexivity.
  - replace (Nat.max (S m) 1) with (S m) by lia. reflexivity.
Qed.

Lemma simhash64_variants_agree_witness :
  simhash64 (λ tok, Z.of_nat (String.length tok)) (λ s, s) "ab"
  = simhash64_md (λ tok, Z.of_nat (String.length tok)) "ab".
Proof. apply simhash64_variants_agree; reflexivity. Defined.

End Fingerprint.

(* ===================================================================== *)
(** ** [Item.prepare] and what recall does with prepared items
       (src/post_process_dedup.py) *)
(* ===================================================================== *)

Module BatchPrepare.
Import PyStr Similarity Fingerprint BatchDedup.

Section Prepare.

(** [normalize_text] *)
Variable normalize_text : string → string.
Variable md5 : string → Z.

(** [Item.prepare]:
<<
    self.norm = normalize_text(f"{self.title} {self.text}")
    self.sh = simhash64(self.norm)
    self.shing = shingles(self.norm, 8)
>> *)
Definition prepare (it : Item) : Item :=
  let n := normalize_text (title it ++ " " ++ text it) in
  {| id := id it; title := title it; text := text it; url := url it;
     date := date it; source_id := source_id it; raw := raw it;
     norm := n; sh := simhash64_md md5 n; shing := shingles n 8 |}.

End Prepare.

(** *** Sample items: one line reported twice, and a blank line *)

Definition line_a : Item :=
  {| id := "a1"; title := "studio ships"; text := "a new build today";
     url := "https://example.org/a"; date := ""; source_id := "2025-W39";
     raw := ""; norm := ""; sh := 0; shing := ∅ |}.
Definition line_b : Item :=
  {| id := "b1"; title := "studio ships"; text := "a new build today";
     url := "https://example.org/b"; date := ""; source_id := "2025-W39";
     raw := ""; norm := ""; sh := 0; shing := ∅ |}.
Definition line_blank : Item :=
  {| id := "c1"; title := ""; text := "";
     url := ""; date := ""; source_id := "2025-W39";
     raw := ""; norm := ""; sh := 0; shing := ∅ |}.

(** Stand-ins for the run: leading and trailing blanks are removed by
    hand, the digest is the length. *)
Definition toy_normalize (s : string) : string :=
  if String.eqb s " " then "" else s.
Definition toy_md5 (tok : string) : Z := Z.of_nat (String.length tok).

(** The run: [line_a] and [line_b] are one line reported under two
    addresses of one host. *)
Definition run_lines : list Item :=
  prepare toy_normalize toy_md5 <$> [line_a; line_blank; line_b].

(** *** Shingle sets *)

Lemma shingles_nonempty s k : s ≠ "" → shingles s k ≠ ∅.
Proof.
  intros Hs. unfold shingles.
  destruct (String.eqb_spec s "") as [| _]; [contradiction|].
  destruct (py_len (remove_spaces s) <=? k)%nat.
  - intros H. apply (f_equal (λ X : gset string, size X)) in H.
    now rewrite size_singleton, size_empty in H.
  - rewrite Nat.add_1_r. simpl. intros H.
    assert (Hin : py_take k (py_drop 0 (remove_spaces s)) ∈ (∅ : gset string)).
    { rewrite <- H. apply elem_of_union. left. now apply elem_of_singleton. }
    now apply not_elem_of_empty in Hin.
Qed.

Lemma shingles_code_points s k x :
  x ∈ shingles s k → py_len x = Nat.min k (py_len (remove_spaces s)).
Proof.
  unfold shingles. destruct (String.eqb s ""); [intros H; now apply not_elem_of_empty in H|].
  destruct (Nat.leb_spec (py_len (remove_spaces s)) k) as [Hle | Hgt].
  - intros H. apply elem_of_singleton in H as ->. lia.
  - intros H. apply elem_of_list_to_set, list_elem_of_fmap in H as (i & -> & Hi).
    apply elem_of_seq in Hi. rewrite py_len_take, py_len_drop. lia.
Qed.

Lemma size_list_to_set_bound (l : list string) :
  (size (list_to_set l : gset string) <= length l)%nat.
Proof.
  induction l as [| x r IH]; [change (list_to_set []) with (∅ : gset string); now rewrite size_empty|].
  rewrite list_to_set_cons, size_union_alt, size_singleton. simpl.
  assert (Hd : (size (list_to_set r ∖ {[x]} : gset string) <= size (list_to_set r : gset string))%nat)
    by (apply subseteq_size; intros y Hy; apply elem_of_difference in Hy; tauto).
  lia.
Qed.

Lemma shingles_size s k :
  (size (shingles s k) <= Nat.max 1 (py_len (remove_spaces s) - k + 1))%nat.
Proof.
  unfold shingles. destruct (String.eqb s ""); [rewrite size_empty; lia|].
  destruct (py_len (remove_spaces s) <=? k)%nat; [rewrite size_singleton; lia|].
  etransitivity; [apply size_list_to_set_bound|].
  rewrite length_fmap, length_seq. lia.
Qed.

(** X4.  A non-empty text has a non-empty shingle set; every shingle has
    [k] code points, or as many as the text has once its spaces are removed
    if these are fewer; and there are at most [len - k + 1] shingles (one
    for a short text). *)
Theorem shingles_spec (s : string) (k : nat) :
  s ≠ "" →
  shingles s k ≠ ∅
  ∧ (∀ x, x ∈ shingles s k → py_len x = Nat.min k (py_len (remove_spaces s)))
  ∧ (size (shingles s k) <= Nat.max 1 (py_len (remove_spaces s) - k + 1))%nat.
Proof.
  intros Hs. split; [now apply shingles_nonempty|].
  split; [intros x; apply shingles_code_points | apply shingles_size].
Qed.

Lemma shingles_spec_witness :
  shingles "weekly report" 8 ≠ ∅
  ∧ (size (shingles "weekly report" 8) <= 5)%nat.
Proof.
  pose proof (shingles_spec "weekly report" 8 ltac:(discriminate)) as (H1 & _ & H3).
  split; [exact H1 | exact H3].
Defined.

Section Recall.

Variable netloc : string → string.
Variable normalize_text : string → string.
Variable md5 : string → Z.
Variable items : list Item.
Variable jaccard_th : Q.
Variable ham_th : Z.

Lemma prepare_similar (A B : Item) :
  title A = title B → text A = text B →
  normalize_text (title A ++ " " ++ text A) ≠ "" →
  (jaccard_th <= 1)%Q → 0 <= ham_th →
  similar jaccard_th ham_th (prepare normalize_text md5 A) (prepare normalize_text md5 B).
Proof.
  intros Ht Hx Hne Hj Hh. unfold similar, prepare. simpl.
  rewrite <- Ht, <- Hx.
  set (n := normalize_text (title A ++ " " ++ text A)) in *.
  split; [lia|]. split.
  - rewrite (jaccard_diag (shingles n 8)); [assumption|].
    now apply shingles_nonempty.
  - unfold hamdist64. rewrite Z.lxor_nilpotent. simpl. assumption.
Qed.

Lemma prepare_blank_fails (A B : Item) :
  normalize_text (title A ++ " " ++ text A) = "" →
  (0 < jaccard_th)%Q →
  pair_passes jaccard_th ham_th (prepare normalize_text md5 A) B = false
  ∧ pair_passes jaccard_th ham_th B (prepare normalize_text md5 A) = false.
Proof.
  intros He Hj.
  assert (Hs : shing (prepare normalize_text md5 A) = ∅)
    by (unfold prepare; simpl; now rewrite He).
  assert (Hq : Qle_bool jaccard_th 0 = false).
  { destruct (Qle_bool jaccard_th 0) eqn:E; [|reflexivity].
    apply Qle_bool_iff in E. lra. }
  unfold pair_passes. split.
  - rewrite Hs, (jaccard_empty ∅ (shing B)) by now left.
    rewrite Hq. simpl. now destruct (200 <? _).
  - rewrite Hs, (jaccard_empty (shing B) ∅) by now right.
    rewrite Hq. simpl. now destruct (200 <? _).
Qed.

(** X5.  Two prepared lines with the same title and text, whose normalised
    text is not empty, are a candidate pair as soon as they are compared at
    all (same URL host, or at most 400 lines), for every Jaccard threshold
    up to 1 and every non-negative Hamming threshold. *)
Theorem verbatim_duplicates_are_candidates (ia ib : nat) (A B : Item) :
  items !! ia = Some (prepare normalize_text md5 A) →
  items !! ib = Some (prepare normalize_text md5 B) →
  (ia < ib)%nat →
  title A = title B → text A = text B →
  normalize_text (title A ++ " " ++ text A) ≠ "" →
  (jaccard_th <= 1)%Q → 0 <= ham_th →
  (host_of netloc (prepare normalize_text md5 A)
     = host_of netloc (prepare normalize_text md5 B))
  ∨ (length items <= 400)%nat →
  (ia, ib) ∈ candidate_pairs netloc items jaccard_th ham_th.
Proof.
  intros EA EB Hlt Ht Hx Hne Hj Hh Hc.
  assert (Hp : index_passes items jaccard_th ham_th ia ib = true).
  { unfold index_passes. rewrite EA, EB.
    apply pair_passes_similar. now apply prepare_similar. }
  unfold candidate_pairs. apply elem_of_app. destruct Hc as [Hc | Hc].
  - left. apply by_host_elem. eauto 10.
  - right. apply Nat.leb_le in Hc. rewrite Hc. apply overall_elem. eauto 10.
Qed.

(** X6.  A prepared line whose normalised text is empty takes part in no
    candidate pair, on either side, when the Jaccard threshold is
    positive. *)
Theorem blank_line_never_paired (ia ib : nat) (A : Item) :
  items !! ia = Some (prepare normalize_text md5 A) →
  normalize_text (title A ++ " " ++ text A) = "" →
  (0 < jaccard_th)%Q →
  ((ia, ib) ∉ candidate_pairs netloc items jaccard_th ham_th)
  ∧ ((ib, ia) ∉ candidate_pairs netloc items jaccard_th ham_th).
Proof.
  intros EA He Hj.
  assert (Hno : ∀ a b, (a = ia ∨ b = ia) →
                  index_passes items jaccard_th ham_th a b = false).
  { intros a b Hab. unfold index_passes.
    destruct (items !! a) as [X|] eqn:Ea; [|reflexivity].
    destruct (items !! b) as [Y|] eqn:Eb; [|reflexivity].
    destruct Hab as [-> | ->].
    - rewrite EA in Ea. injection Ea as <-. now apply prepare_blank_fails.
    - rewrite EA in Eb. injection Eb as <-. now apply prepare_blank_fails. }
  assert (Hall : ∀ a b, (a = ia ∨ b = ia) →
                  (a, b) ∉ candidate_pairs netloc items jaccard_th ham_th).
  { intros a b Hab Hin. unfold candidate_pairs in Hin.
    apply elem_of_app in Hin as [Hin | Hin].
    - apply by_host_elem in Hin as (? & ? & _ & _ & _ & Hp & _).
      rewrite (Hno a b Hab) in Hp. discriminate.
    - destruct (length items <=? 400)%nat; [| now apply elem_of_nil in Hin].
      apply overall_elem in Hin as (? & ? & _ & _ & _ & Hp).
      rewrite (Hno a b Hab) in Hp. discriminate. }
  split; apply Hall; auto.
Qed.

(** X7.  In a collection of at most 400 lines, a candidate pair of two lines
    with the same URL host stands twice in the list of candidates: once
    from the pass over its host, once from the overall pass. *)
Theorem same_host_pair_listed_twice (ia ib : nat) (A B : Item) :
  items !! ia = Some A → items !! ib = Some B →
  host_of netloc A = host_of netloc B →
  (length items <= 400)%nat →
  (ia, ib) ∈ candidate_pairs netloc items jaccard_th ham_th →
  ∃ l1 l2 l3,
    candidate_pairs netloc items jaccard_th ham_th
    = l1 ++ (ia, ib) :: l2 ++ (ia, ib) :: l3.
Proof.
  intros EA EB Hh Hlen Hin. unfold candidate_pairs in *.
  apply Nat.leb_le in Hlen. rewrite Hlen in *.
  assert (Hcore : (ia < ib)%nat ∧ index_passes items jaccard_th ham_th ia ib = true).
  { apply elem_of_app in Hin as [Hin | Hin].
    - apply by_host_elem in Hin as (? & ? & _ & _ & Hlt & Hp & _). now split.
    - apply overall_elem in Hin as (? & ? & _ & _ & Hlt & Hp). now split. }
  destruct Hcore as [Hlt Hp].
  assert (H1 : (ia, ib) ∈ flat_map
      (λ hb : string * list nat,
         if (1 <? length hb.2)%nat
         then add_pairs items jaccard_th ham_th hb.2 else [])
      (build_buckets netloc items)).
  { apply by_host_elem. eauto 10. }
  assert (H2 : (ia, ib) ∈ add_pairs items jaccard_th ham_th (seq 0 (length items))).
  { apply overall_elem. eauto 10. }
  apply list_elem_of_split in H1 as (l1 & l2 & ->).
  apply list_elem_of_split in H2 as (m1 & m2 & ->).
  exists l1, (l2 ++ m1), m2. now rewrite <- !app_assoc.
Qed.

End Recall.

Lemma verbatim_duplicates_are_candidates_witness :
  (0%nat, 2%nat) ∈ candidate_pairs SemanticConfirm.netloc_of run_lines (62 # 100) 8.
Proof.
  apply (verbatim_duplicates_are_candidates SemanticConfirm.netloc_of
           toy_normalize toy_md5 run_lines (62 # 100) 8 0 2 line_a line_b);
    try reflexivity; try lia.
  - discriminate.
  - unfold Qle; simpl; lia.
  - left. reflexivity.
Defined.

Lemma blank_line_never_paired_witness :
  ((1%nat, 2%nat) ∉ candidate_pairs SemanticConfirm.netloc_of run_lines (62 # 100) 8)
  ∧ ((2%nat, 1%nat) ∉ candidate_pairs SemanticConfirm.netloc_of run_lines (62 # 100) 8).
Proof.
  apply (blank_line_never_paired SemanticConfirm.netloc_of
           toy_normalize toy_md5 run_lines (62 # 100) 8 1 2 line_blank);
    reflexivity.
Defined.

Lemma same_host_pair_listed_twice_witness :
  ∃ l1 l2 l3,
    candidate_pairs SemanticConfirm.netloc_of run_lines (62 # 100) 8
    = l1 ++ (0%nat, 2%nat) :: l2 ++ (0%nat, 2%nat) :: l3.
Proof.
  apply (same_host_pair_listed_twice SemanticConfirm.netloc_of run_lines
           (62 # 100) 8 0 2 (prepare toy_normalize toy_md5 line_a)
           (prepare toy_normalize toy_md5 line_b));
    try reflexivity.
  - simpl. lia.
  - vm_compute. apply list_elem_of_here.
Defined.

End BatchPrepare.

(* ===================================================================== *)
(** ** The greedy scan shared by the two near-duplicate passes
       (src/utils/simhash_utils.py) *)
(* ===================================================================== *)

Module GreedyScan.
Import StableSort Similarity.

Section Scan.
Context {A : Type} (h : A → Z) (th : Z).

(** The rows kept by a scan of [arr] after the rows [kept]: a row is
    skipped when its fingerprint is within the threshold of the fingerprint
    of a row kept before. *)
Fixpoint keep (kept arr : list A) : list A :=
  match arr with
  | [] => []
  | x :: r =>
      if existsb (λ k, hamming64 (h x) (h k) <=? th) kept
      then keep kept r
      else x :: keep (kept ++ [x]) r
  end.

Definition far (x y : A) : Prop := th < hamming64 (h x) (h y).

Lemma existsb_far x kept :
  existsb (λ k, hamming64 (h x) (h k) <=? th) kept = false
  ↔ Forall (far x) kept.
Proof.
  induction kept as [| k r IH]; simpl.
  - split; [constructor | reflexivity].
  - rewrite orb_false_iff, IH, Forall_cons. unfold far.
    destruct (Z.leb_spec (hamming64 (h x) (h k)) th); split; intros []; split;
      auto; try lia; discriminate.
Qed.

Lemma far_sym x y : far x y → far y x.
Proof. unfold far. now rewrite (hamming64_sym (h y)). Qed.

(** Kept rows are far from the rows kept before, and from each other. *)
Lemma keep_far arr :
  ∀ kept,
    Forall (λ x, Forall (far x) kept) (keep kept arr)
    ∧ StronglySorted far (keep kept arr).
Proof.
  induction arr as [| x r IH]; intros kept; simpl.
  - split; constructor.
  - destruct (existsb _ kept) eqn:E; [apply IH|].
    apply existsb_far in E.
    destruct (IH (kept ++ [x])) as [Hk Hs]. split.
    + constructor; [assumption|].
      eapply Forall_impl; [exact Hk|]. intros y Hy.
      now apply Forall_app in Hy as [Hy _].
    + constructor; [assumption|].
      eapply Forall_impl; [exact Hk|]. intros y Hy.
      apply Forall_app in Hy as [_ Hy]. apply Forall_inv in Hy.
      now apply far_sym.
Qed.

Lemma keep_sublist arr : ∀ kept, sublist (keep kept arr) arr.
Proof.
  induction arr as [| x r IH]; intros kept; simpl; [constructor|].
  destruct (existsb _ kept); [apply sublist_cons | apply sublist_skip]; apply IH.
Qed.

(** A list whose rows are far from [kept] and from each other is scanned
    without loss. *)
Lemma keep_fixed arr :
  ∀ kept,
    Forall (λ x, Forall (far x) kept) arr → StronglySorted far arr →
    keep kept arr = arr.
Proof.
  induction arr as [| x r IH]; intros kept Hk Hs; simpl; [reflexivity|].
  apply Forall_cons in Hk as [Hx Hk].
  apply StronglySorted_inv in Hs as [Hs Hxr].
  apply existsb_far in Hx. rewrite Hx. f_equal. apply IH; [|assumption].
  rewrite Forall_forall in Hk, Hxr |- *. intros y Hy.
  apply Forall_app. split; [now apply Hk|].
  constructor; [|constructor]. apply far_sym. now apply Hxr.
Qed.

Lemma keep_negative arr : th < 0 → ∀ kept, keep kept arr = arr.
Proof.
  intros Hth. induction arr as [| x r IH]; intros kept; simpl; [reflexivity|].
  assert (E : existsb (λ k, hamming64 (h x) (h k) <=? th) kept = false).
  { apply existsb_far, Forall_forall. intros k _. unfold far.
    pose proof (bit_count_nonneg (Z.lxor (h x) (h k))). unfold hamming64. lia. }
  now rewrite E, IH.
Qed.

(** Every row of [arr] is kept, or is within the threshold of a row that
    was kept before it: a row of [kept], or a kept row standing earlier in
    [arr]. *)
Lemma keep_cover arr :
  ∀ kept l1 x l2, arr = l1 ++ x :: l2 →
    x ∈ keep kept arr
    ∨ ∃ k, ¬ far x k ∧ (k ∈ kept ∨ (k ∈ l1 ∧ k ∈ keep kept arr)).
Proof.
  induction arr as [| y r IH]; intros kept l1 x l2 Harr.
  - now destruct l1.
  - simpl. destruct l1 as [| z l1]; simpl in Harr; injection Harr as -> ->.
    + destruct (existsb _ kept) eqn:E.
      * right. apply existsb_exists in E as (k & Hin & Hk).
        exists k. split; [unfold far; lia|]. left. now apply list_elem_of_In.
      * left. apply list_elem_of_here.
    + destruct (existsb _ kept) eqn:E.
      * destruct (IH kept l1 x l2 eq_refl) as [H | (k & Hk & [H | [H1 H2]])].
        -- now left.
        -- right. exists k. auto.
        -- right. exists k. split; [assumption|]. right.
           split; [now apply list_elem_of_further | assumption].
      * destruct (IH (kept ++ [z]) l1 x l2 eq_refl) as [H | (k & Hk & [H | [H1 H2]])].
        -- left. now apply list_elem_of_further.
        -- right. exists k. split; [assumption|].
           apply elem_of_app in H as [H | H]; [now left|].
           apply list_elem_of_singleton in H as ->. right.
           split; apply list_elem_of_here.
        -- right. exists k. split; [assumption|]. right.
           split; now apply list_elem_of_further.
Qed.

End Scan.

(** *** Stable sorting *)

Section SortFacts.
Context {A : Type} (before : A → A → bool).

Lemma sort_insert_head x l :
  Forall (λ y, before x y = true) l → sort_insert before x l = x :: l.
Proof. intros H. destruct H as [| y r Hy _]; simpl; [reflexivity | now rewrite Hy]. Qed.

(** Sorting a sorted list changes nothing. *)
Lemma py_sort_sorted_id l :
  StronglySorted (λ a b, before a b = true) l → py_sort before l = l.
Proof.
  induction 1 as [| x r Hs IH Hall]; simpl; [reflexivity|].
  rewrite IH. now apply sort_insert_head.
Qed.

Hypothesis before_trans :
  ∀ x y z, before x y = true → before y z = true → before x z = true.

Lemma sort_insert_filter (P : A → Prop) `{∀ x, Decision (P x)} x l :
  StronglySorted (λ a b, before a b = true) l →
  filter P (sort_insert before x l)
  = if decide (P x) then sort_insert before x (filter P l) else filter P l.
Proof.
  induction 1 as [| y r Hs IH Hall]; simpl.
  - rewrite filter_cons, filter_nil. now destruct (decide (P x)).
  - destruct (before x y) eqn:E.
    + rewrite filter_cons. destruct (decide (P x)); [|reflexivity].
      symmetry. apply sort_insert_head.
      apply Forall_forall. intros z Hz.
      apply list_elem_of_filter in Hz as [_ Hz].
      apply elem_of_cons in Hz as [-> | Hz]; [assumption|].
      rewrite Forall_forall in Hall. apply (before_trans x y z); auto.
    + rewrite !(filter_cons _ y), IH.
      destruct (decide (P y)), (decide (P x)); simpl; try reflexivity.
      now rewrite E.
Qed.

End SortFacts.

End GreedyScan.

(* ===================================================================== *)
(** ** Source priors (src/config_loader.py) *)
(* ===================================================================== *)

Module ConfigLoader.

(** An entry of [cfg["weights"]]: [weight] is [None] when the key is
    missing or when [float(...)] raises on its value; [expertise] is the
    list under that key, empty when missing or falsy. *)
Record prior : Type := mkPrior {
  weight : option Q;
  expertise : list string
}.

(** The mapping [cfg.get("weights", {})] of the loaded YAML file, each of
    whose values is a mapping. *)
Definition sources_cfg : Type := gmap string prior.

(** [priors_for_source]:
<<
    w = 1.0; expert = []
    if not cfg: return w, expert
    try: w = float(cfg.get("weights", {}).get(source_id, {}).get("weight", 1.0))
    except Exception: w = 1.0
    expert = cfg.get("weights", {}).get(source_id, {}).get("expertise", []) or []
    return w, expert
>> *)
Definition priors_for_source (cfg : sources_cfg) (source_id : string)
    : Q * list string :=
  if bool_decide (cfg = ∅) then (1%Q, [])
  else
    let entry := cfg !! source_id in
    (default 1%Q (entry ≫= weight), default [] (expertise <$> entry)).

End ConfigLoader.

(* ===================================================================== *)
(** ** Near-duplicates across sources (src/utils/simhash_utils.py) *)
(* ===================================================================== *)

Module AcrossSources.
Import PyStr StableSort Similarity GreedyScan ConfigLoader.

(** The keys of an item that the pass reads. *)
Record Item : Type := mkItem {
  source_id : option string;
  date : option Z;
  title : string;
  summary_raw : option string;
  text : option string
}.

#[global] Instance Item_eq_dec : EqDecision Item.
Proof. solve_decision. Defined.

(** The dict [{"sid", "h", "date", "plen", "weight", "it"}] of the first
    loop. *)
Record Row : Type := mkRow {
  r_sid : string;
  r_h : Z;
  r_date : option Z;
  r_plen : nat;
  r_weight : Q;
  r_it : Item
}.

Definition DT_MIN : Z := WithinSource.DT_MIN.
Definition DT_MAX : Z := WithinSource.DT_MAX.

(** [<] on the keys [(-weight, date or max)]: Python compares tuples
    lexicographically. *)
Definition key_lt (a b : Q * Z) : bool :=
  Posterior.Qlt_bool a.1 b.1 || (Qeq_bool a.1 b.1 && (a.2 <? b.2)).

Definition weight_key (x : Row) : Q * Z :=
  ((- r_weight x)%Q, default DT_MAX (r_date x)).

(** Whether [x], which stood before [y], stays in front of it, for each of
    the four branches on [keep_policy]. *)
Definition policy_before (keep_policy : string) (x y : Row) : bool :=
  if String.eqb keep_policy "latest" then
    default DT_MIN (r_date y) <=? default DT_MIN (r_date x)
  else if String.eqb keep_policy "longest" then (r_plen y <=? r_plen x)%nat
  else if String.eqb keep_policy "earliest" then
    default DT_MAX (r_date x) <=? default DT_MAX (r_date y)
  else negb (key_lt (weight_key y) (weight_key x)).

(** State of the scan. *)
Record scan_state : Type := mkScan {
  kept : list Item;
  used_hashes : list Z;
  dropped : nat
}.

(** Sample items: two sources report one story, a third another one. *)
Definition toy_fingerprint (title _ : string) : Z :=
  Z.of_nat (String.length title).

Definition run_cfg : ConfigLoader.sources_cfg :=
  {[ "gamelook" := {| weight := Some 3%Q; expertise := ["要闻速览"] |} ]}.

Definition run_a : Item :=
  {| source_id := Some "youxituoluo"; date := Some 50; title := "lauNCH";
     summary_raw := None; text := Some "x" |}.
Definition run_b : Item :=
  {| source_id := Some "gamelook"; date := Some 100; title := "launch";
     summary_raw := None; text := None |}.
Definition run_c : Item :=
  {| source_id := None; date := None;
     title := "quarterly revenue figures";
     summary_raw := Some ""; text := None |}.

Section Dedup.

(** [simhash64(norm_text_for_hash(title, base_txt))] *)
Variable fingerprint : string → string → Z.
Variable sources_cfg : ConfigLoader.sources_cfg.
Variable hamming_threshold : Z.

Definition enrich (it : Item) : Row :=
  let base_txt := str_or (summary_raw it) (str_or (text it) "") in
  let sid := str_or (source_id it) "" in
  let w := (priors_for_source sources_cfg sid).1 in
  {| r_sid := sid; r_h := fingerprint (title it) base_txt; r_date := date it;
     r_plen := py_len base_txt;
     r_weight := if Qeq_bool w 0 then 1%Q else w;
     r_it := it |}.

Definition sort_rows (keep_policy : string) (enriched : list Row) : list Row :=
  py_sort (policy_before keep_policy) enriched.

(** One iteration of [for row in enriched]. *)
Definition scan_step (st : scan_state) (row : Row) : scan_state :=
  if existsb (λ uh, hamming64 (r_h row) uh <=? hamming_threshold) (used_hashes st)
  then {| kept := kept st; used_hashes := used_hashes st;
          dropped := S (dropped st) |}
  else {| kept := kept st ++ [r_it row];
          used_hashes := used_hashes st ++ [r_h row];
          dropped := dropped st |}.

Definition drop_near_duplicates_across_sources
    (items : list Item) (keep_policy : string) : list Item :=
  kept (fold_left scan_step (sort_rows keep_policy (enrich <$> items))
          {| kept := []; used_hashes := []; dropped := 0 |}).

(** The fingerprint and the weight that the pass gives an item. *)
Definition fp (it : Item) : Z := r_h (enrich it).
Definition weight_of (it : Item) : Q := r_weight (enrich it).

(** *** The order of each policy *)

Lemma key_lt_iff (a b : Q * Z) :
  key_lt a b = true ↔ (a.1 < b.1)%Q ∨ ((a.1 == b.1)%Q ∧ a.2 < b.2).
Proof.
  unfold key_lt.
  rewrite orb_true_iff, andb_true_iff, Posterior.Qlt_bool_iff, Qeq_bool_iff,
    Z.ltb_lt.
  reflexivity.
Qed.

Lemma key_before_iff (a b : Q * Z) :
  negb (key_lt b a) = true ↔ (a.1 < b.1)%Q ∨ ((a.1 == b.1)%Q ∧ a.2 <= b.2).
Proof.
  rewrite negb_true_iff, <- not_true_iff_false, key_lt_iff.
  destruct (Qlt_le_dec a.1 b.1) as [H | H]; [split; [auto | intros _ [? | [? ?]]; lra]|].
  destruct (Qlt_le_dec b.1 a.1) as [H' | H'].
  - split; [intros Hn; exfalso; apply Hn; now left | intros [? | [? ?]]; lra].
  - assert (E : (a.1 == b.1)%Q) by lra.
    split.
    + intros Hn. right. split; [assumption|].
      destruct (Z.le_gt_cases a.2 b.2); [assumption|].
      exfalso. apply Hn. right. split; [lra | lia].
    + intros [? | [_ Hle]]; [lra|]. intros [? | [_ ?]]; [lra | lia].
Qed.

Lemma policy_before_total keep_policy x y :
  policy_before keep_policy x y = true ∨ policy_before keep_policy y x = true.
Proof.
  unfold policy_before.
  destruct (String.eqb keep_policy "latest");
    [| destruct (String.eqb keep_policy "longest");
       [| destruct (String.eqb keep_policy "earliest")]];
    rewrite ?Z.leb_le, ?Nat.leb_le, ?key_before_iff; try lia.
  destruct (Qlt_le_dec (weight_key x).1 (weight_key y).1); [now left; left|].
  destruct (Qlt_le_dec (weight_key y).1 (weight_key x).1); [now right; left|].
  assert (E : ((weight_key x).1 == (weight_key y).1)%Q) by lra.
  destruct (Z.le_ge_cases (weight_key x).2 (weight_key y).2).
  - left. right. now split.
  - right. right. split; [lra | lia].
Qed.

Lemma policy_before_trans keep_policy x y z :
  policy_before keep_policy x y = true → policy_before keep_policy y z = true →
  policy_before keep_policy x z = true.
Proof.
  unfold policy_before.
  destruct (String.eqb keep_policy "latest");
    [| destruct (String.eqb keep_policy "longest");
       [| destruct (String.eqb keep_policy "earliest")]];
    rewrite ?Z.leb_le, ?Nat.leb_le, ?key_before_iff; try lia.
  intros [H1 | [H1 H1']] [H2 | [H2 H2']].
  - left. lra.
  - left. lra.
  - left. lra.
  - right. split; [lra | lia].
Qed.

Lemma sublist_StronglySorted {A} (R : A → A → Prop) (l1 l2 : list A) :
  sublist l1 l2 → StronglySorted R l2 → StronglySorted R l1.
Proof.
  induction 1 as [| x l1 l2 Hsub IH | x l1 l2 Hsub IH]; intros Hs.
  - constructor.
  - apply StronglySorted_inv in Hs as [Hs Hall]. constructor; [now apply IH|].
    rewrite Forall_forall in Hall |- *. intros y Hy. apply Hall.
    eapply elem_of_sublist; eauto.
  - apply StronglySorted_inv in Hs as [Hs _]. now apply IH.
Qed.

Lemma existsb_hashes (h : Z) (K : list Row) :
  existsb (λ uh, hamming64 h uh <=? hamming_threshold) (r_h <$> K)
  = existsb (λ k, hamming64 h (r_h k) <=? hamming_threshold) K.
Proof.
  induction K as [| k r IH]; [reflexivity|].
  rewrite fmap_cons. cbn [existsb]. now rewrite IH.
Qed.

Lemma scan_step_rows K d row :
  scan_step {| kept := r_it <$> K; used_hashes := r_h <$> K; dropped := d |} row
  = if existsb (λ k, hamming64 (r_h row) (r_h k) <=? hamming_threshold) K
    then {| kept := r_it <$> K; used_hashes := r_h <$> K; dropped := S d |}
    else {| kept := r_it <$> (K ++ [row]); used_hashes := r_h <$> (K ++ [row]);
            dropped := d |}.
Proof.
  unfold scan_step. cbn [used_hashes kept dropped].
  rewrite existsb_hashes, !fmap_app. reflexivity.
Qed.

(** The loop computes [keep]: the kept items and the fingerprints it
    accumulates are those of the kept rows. *)
Lemma across_scan_refines arr :
  ∀ K d,
    let st := fold_left scan_step arr
                {| kept := r_it <$> K; used_hashes := r_h <$> K; dropped := d |} in
    kept st = r_it <$> (K ++ keep r_h hamming_threshold K arr)
    ∧ used_hashes st = r_h <$> (K ++ keep r_h hamming_threshold K arr)
    ∧ (dropped st + length (keep r_h hamming_threshold K arr) = d + length arr)%nat.
Proof.
  induction arr as [| row r IH]; intros K d; simpl.
  - rewrite app_nil_r. repeat split; lia.
  - rewrite scan_step_rows.
    destruct (existsb _ K) eqn:E.
    + destruct (IH K (S d)) as (H1 & H2 & H3). repeat split; auto. lia.
    + destruct (IH (K ++ [row]) d) as (H1 & H2 & H3).
      rewrite <- app_assoc in H1, H2. simpl in H1, H2.
      repeat split; auto. simpl. lia.
Qed.

Lemma across_keep items keep_policy :
  drop_near_duplicates_across_sources items keep_policy
  = r_it <$> keep r_h hamming_threshold [] (sort_rows keep_policy (enrich <$> items)).
Proof.
  unfold drop_near_duplicates_across_sources.
  now destruct (across_scan_refines (sort_rows keep_policy (enrich <$> items)) [] 0%nat)
    as (H & _ & _).
Qed.

Lemma sort_rows_perm keep_policy rows : sort_rows keep_policy rows ≡ₚ rows.
Proof. apply py_sort_perm. Qed.

Lemma sort_rows_sorted keep_policy rows :
  StronglySorted (λ x y, policy_before keep_policy x y = true)
    (sort_rows keep_policy rows).
Proof.
  apply py_sort_sorted;
    [apply policy_before_total | apply policy_before_trans].
Qed.

(** A row of the scanned list is the row of its own item. *)
Lemma row_of_item keep_policy items k :
  k ∈ sort_rows keep_policy (enrich <$> items) →
  r_it k ∈ items ∧ enrich (r_it k) = k.
Proof.
  rewrite sort_rows_perm. intros Hk.
  apply list_elem_of_fmap in Hk as (it & -> & Hit). now split.
Qed.

Lemma kept_rows_items keep_policy items :
  enrich <$> drop_near_duplicates_across_sources items keep_policy
  = keep r_h hamming_threshold [] (sort_rows keep_policy (enrich <$> items)).
Proof.
  rewrite across_keep, <- list_fmap_compose.
  rewrite <- (list_fmap_id (keep _ _ _ _)) at 2.
  apply list_fmap_ext. intros i k Hk. simpl.
  apply (row_of_item keep_policy items).
  eapply elem_of_sublist; [eapply list_elem_of_lookup_2; exact Hk | apply keep_sublist].
Qed.

Lemma StronglySorted_fmap_inv {A B} (f : A → B) (R : B → B → Prop) (l : list A) :
  StronglySorted R (f <$> l) → StronglySorted (λ a b, R (f a) (f b)) l.
Proof.
  induction l as [| x r IH]; intros Hs; [constructor|].
  rewrite fmap_cons in Hs. apply StronglySorted_inv in Hs as [Hs Hall].
  constructor; [now apply IH|]. exact (proj1 (Forall_fmap _ _ _) Hall).
Qed.

Lemma StronglySorted_lookup {A} (R : A → A → Prop) (l : list A) :
  StronglySorted R l →
  ∀ i j a b, (i < j)%nat → l !! i = Some a → l !! j = Some b → R a b.
Proof.
  induction 1 as [| x r Hs IH Hall]; intros i j a b Hij Ha Hb;
    [now rewrite lookup_nil in Ha|].
  destruct j as [| j]; [lia|]. simpl in Hb.
  destruct i as [| i]; simpl in Ha.
  - injection Ha as <-. rewrite Forall_forall in Hall.
    apply Hall. now apply list_elem_of_lookup_2 in Hb.
  - apply (IH i j); auto. lia.
Qed.

Lemma kept_rows_sorted keep_policy items :
  StronglySorted (λ x y, policy_before keep_policy x y = true)
    (keep r_h hamming_threshold [] (sort_rows keep_policy (enrich <$> items))).
Proof.
  eapply sublist_StronglySorted; [apply keep_sublist | apply sort_rows_sorted].
Qed.

(** X8.  Survivors of the pass across sources are pairwise farther apart
    than the threshold: no two returned items have fingerprints within
    [hamming_threshold] bits of each other. *)
Theorem across_survivors_far (items : list Item) (keep_policy : string)
    (i j : nat) (a b : Item) :
  (i < j)%nat →
  drop_near_duplicates_across_sources items keep_policy !! i = Some a →
  drop_near_duplicates_across_sources items keep_policy !! j = Some b →
  hamming_threshold < hamming64 (fp a) (fp b)
  ∧ hamming_threshold < hamming64 (fp b) (fp a).
Proof.
  intros Hij Ha Hb.
  assert (Hs : StronglySorted (λ a b, far r_h hamming_threshold (enrich a) (enrich b))
                 (drop_near_duplicates_across_sources items keep_policy)).
  { apply StronglySorted_fmap_inv. rewrite kept_rows_items. apply keep_far. }
  pose proof (StronglySorted_lookup _ _ Hs i j a b Hij Ha Hb) as Hfar.
  split; [exact Hfar | now apply far_sym].
Qed.

(** X9.  Every input item is returned, or lies within the threshold of a
    returned item that the keep-policy ranks no later; under the default
    policy (any policy other than latest, longest and earliest) that
    returned item comes from a source of at least the same weight. *)
Theorem across_dropped_is_covered (items : list Item) (keep_policy : string)
    (it : Item) :
  it ∈ items →
  it ∈ drop_near_duplicates_across_sources items keep_policy
  ∨ ∃ k, k ∈ drop_near_duplicates_across_sources items keep_policy
         ∧ hamming64 (fp it) (fp k) <= hamming_threshold
         ∧ policy_before keep_policy (enrich k) (enrich it) = true
         ∧ (String.eqb keep_policy "latest" = false →
            String.eqb keep_policy "longest" = false →
            String.eqb keep_policy "earliest" = false →
            (weight_of it <= weight_of k)%Q).
Proof.
  intros Hit.
  assert (Hin : enrich it ∈ sort_rows keep_policy (enrich <$> items)).
  { rewrite sort_rows_perm. now apply list_elem_of_fmap_2. }
  apply list_elem_of_split in Hin as (l1 & l2 & HS).
  destruct (keep_cover r_h hamming_threshold _ [] l1 (enrich it) l2 HS)
    as [H | (k & Hnear & [H | [Hk1 Hk2]])].
  - left. rewrite across_keep.
    apply (list_elem_of_fmap_2 r_it) in H. exact H.
  - now apply elem_of_nil in H.
  - right. exists (r_it k).
    destruct (row_of_item keep_policy items k) as [_ Hk].
    { eapply elem_of_sublist; [exact Hk2 | apply keep_sublist]. }
    assert (Hb : policy_before keep_policy k (enrich it) = true).
    { pose proof (sort_rows_sorted keep_policy (enrich <$> items)) as Hs.
      rewrite HS in Hs.
      apply (StronglySorted_app_1_elem_of _ _ _ _ _ Hs Hk1), list_elem_of_here. }
    split; [rewrite across_keep; now apply list_elem_of_fmap_2|].
    unfold fp, weight_of. rewrite Hk.
    split; [unfold far in Hnear; lia|]. split; [exact Hb|].
    intros E1 E2 E3. unfold policy_before in Hb. rewrite E1, E2, E3 in Hb.
    apply key_before_iff in Hb. unfold weight_key in Hb. cbn [fst snd] in Hb.
    destruct Hb as [Hb | [Hb _]]; lra.
Qed.

(** X10.  The returned list is a sub-multiset of the input, ordered by the
    keep-policy; it is not empty unless the input is; and with a negative
    threshold it keeps every item. *)
Theorem across_result_shape (items : list Item) (keep_policy : string) :
  drop_near_duplicates_across_sources items keep_policy ⊆+ items
  ∧ StronglySorted
      (λ a b, policy_before keep_policy (enrich a) (enrich b) = true)
      (drop_near_duplicates_across_sources items keep_policy)
  ∧ (items ≠ [] → drop_near_duplicates_across_sources items keep_policy ≠ [])
  ∧ (hamming_threshold < 0 →
     drop_near_duplicates_across_sources items keep_policy ≡ₚ items).
Proof.
  assert (Hperm : r_it <$> sort_rows keep_policy (enrich <$> items) ≡ₚ items).
  { rewrite sort_rows_perm, <- list_fmap_compose.
    rewrite <- (list_fmap_id items) at 2.
    now erewrite list_fmap_ext. }
  split; [| split; [| split]].
  - rewrite across_keep.
    etransitivity; [| apply Permutation_submseteq, Hperm].
    apply sublist_submseteq, fmap_sublist, keep_sublist.
  - apply (StronglySorted_fmap_inv enrich
             (λ x y, policy_before keep_policy x y = true)).
    rewrite kept_rows_items. apply kept_rows_sorted.
  - intros Hne E. rewrite across_keep in E.
    destruct (sort_rows keep_policy (enrich <$> items)) as [| x r] eqn:ES.
    + apply Permutation_nil_l in Hperm. congruence.
    + simpl in E. discriminate.
  - intros Hth. rewrite across_keep, keep_negative by assumption. exact Hperm.
Qed.

(** X11.  The pass across sources is idempotent: run on its own result,
    with the same policy, it returns that result unchanged. *)
Theorem across_idempotent (items : list Item) (keep_policy : string) :
  drop_near_duplicates_across_sources
    (drop_near_duplicates_across_sources items keep_policy) keep_policy
  = drop_near_duplicates_across_sources items keep_policy.
Proof.
  rewrite (across_keep (drop_near_duplicates_across_sources items keep_policy)).
  rewrite kept_rows_items.
  unfold sort_rows at 1.
  rewrite py_sort_sorted_id by apply kept_rows_sorted.
  rewrite keep_fixed; [now rewrite across_keep | | apply keep_far].
  apply Forall_forall. intros x _. constructor.
Qed.

End Dedup.

Lemma across_survivors_far_witness :
  4 < hamming64 (fp toy_fingerprint run_cfg run_b) (fp toy_fingerprint run_cfg run_c).
Proof.
  apply (across_survivors_far toy_fingerprint run_cfg 4 [run_a; run_b; run_c]
           "prefer_weight_then_earliest" 0 1 run_b run_c);
    [lia | vm_compute; reflexivity | vm_compute; reflexivity].
Defined.

Lemma across_dropped_is_covered_witness :
  run_a ∈ drop_near_duplicates_across_sources toy_fingerprint run_cfg 4
            [run_a; run_b; run_c] "prefer_weight_then_earliest"
  ∨ ∃ k, k ∈ drop_near_duplicates_across_sources toy_fingerprint run_cfg 4
               [run_a; run_b; run_c] "prefer_weight_then_earliest"
         ∧ hamming64 (fp toy_fingerprint run_cfg run_a) (fp toy_fingerprint run_cfg k) <= 4
         ∧ policy_before "prefer_weight_then_earliest"
             (enrich toy_fingerprint run_cfg k) (enrich toy_fingerprint run_cfg run_a) = true
         ∧ (String.eqb "prefer_weight_then_earliest" "latest" = false →
            String.eqb "prefer_weight_then_earliest" "longest" = false →
            String.eqb "prefer_weight_then_earliest" "earliest" = false →
            (weight_of toy_fingerprint run_cfg run_a <= weight_of toy_fingerprint run_cfg k)%Q).
Proof.
  apply (across_dropped_is_covered toy_fingerprint run_cfg 4
           [run_a; run_b; run_c] "prefer_weight_then_earliest" run_a).
  apply list_elem_of_here.
Defined.

Lemma across_result_shape_witness :
  drop_near_duplicates_across_sources toy_fingerprint run_cfg 4
    [run_a; run_b; run_c] "prefer_weight_then_earliest" ≠ []
  ∧ drop_near_duplicates_across_sources toy_fingerprint run_cfg (-1)
      [run_a; run_b; run_c] "longest" ≡ₚ [run_a; run_b; run_c].
Proof.
  split.
  - apply (across_result_shape toy_fingerprint run_cfg 4 [run_a; run_b; run_c]
             "prefer_weight_then_earliest"). discriminate.
  - apply (across_result_shape toy_fingerprint run_cfg (-1) [run_a; run_b; run_c]
             "longest"). lia.
Defined.

Example across_run :
  drop_near_duplicates_across_sources toy_fingerprint run_cfg 4
    [run_a; run_b; run_c] "prefer_weight_then_earliest" = [run_b; run_c]
  ∧ drop_near_duplicates_across_sources toy_fingerprint run_cfg 4
      [run_a; run_b; run_c] "earliest" = [run_a; run_c].
Proof. split; vm_compute; reflexivity. Qed.

End AcrossSources.

(* ===================================================================== *)
(** ** Near-duplicates within a source: what the survivors satisfy
       (src/utils/simhash_utils.py) *)
(* ===================================================================== *)

Module WithinSourceFacts.
Import PyStr StableSort Similarity GreedyScan WithinSource.

(** A second story of the source of [run_a] and [run_b]. *)
Definition run_d : Item :=
  {| oid := 4; source_id := Some "gamelook"; date := None;
     title := "quarterly revenue figures"; summary_raw := Some "Q3" |}.

Section Facts.

Variable fingerprint : string → string → Z.
Variable hamming_threshold : Z.

(** The source under which an item is grouped, and its fingerprint. *)
Definition sid_of (it : Item) : string := e_sid (enrich fingerprint it).
Definition fp (it : Item) : Z := e_h (enrich fingerprint it).

(** The rows of the source of [it], in the order of the scan, and those of
    them that the scan keeps. *)
Definition scanned (keep_policy : string) (items : list Item) (it : Item)
    : list Enriched :=
  sort_group keep_policy
    (filter (λ e, e_sid e = sid_of it) (enrich fingerprint <$> items)).

Definition kept_rows (keep_policy : string) (items : list Item) (it : Item)
    : list Enriched :=
  greedy_keep hamming_threshold [] (scanned keep_policy items it).

Lemma greedy_keep_is_keep arr :
  ∀ kept, greedy_keep hamming_threshold kept arr = keep e_h hamming_threshold kept arr.
Proof.
  induction arr as [| x r IH]; intros kept; simpl; [reflexivity|].
  now rewrite !IH.
Qed.

Lemma policy_total keep_policy x y :
  policy_before keep_policy x y = true ∨ policy_before keep_policy y x = true.
Proof.
  unfold policy_before.
  destruct (String.eqb keep_policy "latest");
    [| destruct (String.eqb keep_policy "longest")];
    rewrite ?Z.leb_le, ?Nat.leb_le; lia.
Qed.

Lemma policy_trans keep_policy x y z :
  policy_before keep_policy x y = true → policy_before keep_policy y z = true →
  policy_before keep_policy x z = true.
Proof.
  unfold policy_before.
  destruct (String.eqb keep_policy "latest");
    [| destruct (String.eqb keep_policy "longest")];
    rewrite ?Z.leb_le, ?Nat.leb_le; lia.
Qed.

Lemma sort_group_py_sort keep_policy arr :
  sort_group keep_policy arr = py_sort (policy_before keep_policy) arr.
Proof.
  unfold sort_group, policy_before.
  destruct (String.eqb keep_policy "latest"); [reflexivity|].
  destruct (String.eqb keep_policy "longest"); reflexivity.
Qed.

(** Sorting commutes with filtering: the sort is stable. *)
Lemma sort_group_filter (P : Enriched → Prop) `{∀ x, Decision (P x)}
    keep_policy arr :
  sort_group keep_policy (filter P arr) = filter P (sort_group keep_policy arr).
Proof.
  rewrite !sort_group_py_sort.
  induction arr as [| x r IH]; [reflexivity|].
  simpl. rewrite (sort_insert_filter _ (policy_trans keep_policy)).
  - rewrite filter_cons. destruct (decide (P x)); simpl; now rewrite IH.
  - apply py_sort_sorted; [apply policy_total | apply policy_trans].
Qed.

Lemma StronglySorted_distinct {A} (R : A → A → Prop) (l : list A) x y :
  StronglySorted R l → x ∈ l → y ∈ l → x ≠ y → R x y ∨ R y x.
Proof.
  induction 1 as [| z r Hs IH Hall]; intros Hx Hy Hne;
    [now apply elem_of_nil in Hx|].
  rewrite Forall_forall in Hall.
  apply elem_of_cons in Hx as [-> | Hx], Hy as [-> | Hy]; auto.
  congruence.
Qed.

Lemma survives_kept_rows keep_policy items it :
  NoDup (oid <$> items) → it ∈ items →
  it ∈ drop_near_duplicates_within_source fingerprint hamming_threshold
         items keep_policy
  ↔ enrich fingerprint it ∈ kept_rows keep_policy items it.
Proof. apply survives_iff. Qed.

Lemma scanned_row keep_policy items it e :
  e ∈ scanned keep_policy items it →
  ∃ it', it' ∈ items ∧ e = enrich fingerprint it' ∧ sid_of it' = sid_of it.
Proof.
  unfold scanned. rewrite sort_group_perm. intros He.
  apply list_elem_of_filter in He as [Hsid He].
  apply list_elem_of_fmap in He as (it' & -> & Hit'). eauto.
Qed.

Lemma scanned_same_source keep_policy items a b :
  sid_of a = sid_of b → scanned keep_policy items a = scanned keep_policy items b.
Proof. unfold scanned. now intros ->. Qed.

Lemma out_elem keep_policy items it :
  it ∈ drop_near_duplicates_within_source fingerprint hamming_threshold
         items keep_policy → it ∈ items.
Proof.
  unfold drop_near_duplicates_within_source. rewrite list_elem_of_filter. tauto.
Qed.

Lemma fmap_filter_comm {A B} (f : A → B) (P : B → Prop) (Q : A → Prop)
    `{∀ x, Decision (P x)} `{∀ x, Decision (Q x)} (l : list A) :
  (∀ a, Q a ↔ P (f a)) → f <$> filter Q l = filter P (f <$> l).
Proof.
  intros HPQ. induction l as [| x r IH]; [reflexivity|].
  rewrite fmap_cons, !filter_cons. specialize (HPQ x).
  destruct (decide (P (f x))), (decide (Q x)); try tauto;
    rewrite ?fmap_cons; now rewrite IH.
Qed.

Lemma filter_comm {A} (P Q : A → Prop)
    `{∀ x, Decision (P x)} `{∀ x, Decision (Q x)} (l : list A) :
  filter P (filter Q l) = filter Q (filter P l).
Proof.
  induction l as [| x r IH]; [reflexivity|].
  rewrite !filter_cons.
  destruct (decide (Q x)), (decide (P x)); rewrite ?filter_cons;
    repeat (rewrite decide_True by assumption);
    repeat (rewrite decide_False by assumption); now rewrite IH.
Qed.

(** The rows scanned in a second run are the rows kept by the first. *)
Lemma scanned_again keep_policy items it :
  NoDup (oid <$> items) →
  scanned keep_policy
    (drop_near_duplicates_within_source fingerprint hamming_threshold
       items keep_policy) it
  = kept_rows keep_policy items it.
Proof.
  intros Hnd. unfold scanned at 1, drop_near_duplicates_within_source.
  rewrite (fmap_filter_comm (enrich fingerprint)
             (λ e, oid (e_it e) ∈ kept_ids_of fingerprint hamming_threshold
                                    keep_policy items)
             (λ it, oid it ∈ kept_ids_of fingerprint hamming_threshold
                              keep_policy items)) by reflexivity.
  rewrite filter_comm, sort_group_filter.
  fold (scanned keep_policy items it).
  assert (HndS : NoDup (scanned keep_policy items it)).
  { unfold scanned. rewrite sort_group_perm.
    apply NoDup_filter. now apply enrich_NoDup. }
  unfold kept_rows.
  rewrite (greedy_keep_filter hamming_threshold (scanned keep_policy items it) []
             HndS) at 1.
  apply filter_ext_elem. intros e He.
  destruct (scanned_row keep_policy items it e He) as (it' & Hit' & -> & Hsid).
  simpl e_it.
  rewrite <- (scanned_same_source keep_policy items it' it Hsid).
  rewrite <- (survives_kept_rows keep_policy items it' Hnd Hit').
  unfold drop_near_duplicates_within_source. rewrite list_elem_of_filter. tauto.
Qed.

(** X12.  Among the returned items, two different items of one source are
    farther apart than the threshold. *)
Theorem within_source_survivors_far (keep_policy : string) (items : list Item)
    (a b : Item) :
  NoDup (oid <$> items) →
  a ∈ drop_near_duplicates_within_source fingerprint hamming_threshold
        items keep_policy →
  b ∈ drop_near_duplicates_within_source fingerprint hamming_threshold
        items keep_policy →
  a ≠ b → sid_of a = sid_of b →
  hamming_threshold < hamming64 (fp a) (fp b).
Proof.
  intros Hnd Ha Hb Hne Hsid.
  pose proof (out_elem _ _ _ Ha) as Ha'. pose proof (out_elem _ _ _ Hb) as Hb'.
  apply (survives_kept_rows keep_policy items a Hnd Ha') in Ha.
  apply (survives_kept_rows keep_policy items b Hnd Hb') in Hb.
  unfold kept_rows in Ha, Hb.
  rewrite <- (scanned_same_source keep_policy items a b Hsid) in Hb.
  rewrite greedy_keep_is_keep in Ha, Hb.
  destruct (keep_far e_h hamming_threshold (scanned keep_policy items a) [])
    as [_ Hs].
  assert (Hne' : enrich fingerprint a ≠ enrich fingerprint b).
  { intros E. apply Hne. now apply (f_equal e_it) in E. }
  destruct (StronglySorted_distinct _ _ _ _ Hs Ha Hb Hne') as [H | H].
  - exact H.
  - now apply far_sym in H.
Qed.

(** X13.  No source disappears: of every source of the input, the item
    that the keep-policy ranks first is returned. *)
Theorem within_source_keeps_first_of_source (keep_policy : string)
    (items : list Item) (it : Item) :
  NoDup (oid <$> items) → it ∈ items →
  ∃ k, k ∈ drop_near_duplicates_within_source fingerprint hamming_threshold
             items keep_policy
       ∧ sid_of k = sid_of it
       ∧ ∀ it', it' ∈ items → sid_of it' = sid_of it →
           policy_before keep_policy (enrich fingerprint k)
             (enrich fingerprint it') = true.
Proof.
  intros Hnd Hit.
  assert (Hin : ∀ it', it' ∈ items → sid_of it' = sid_of it →
                  enrich fingerprint it' ∈ scanned keep_policy items it).
  { intros it' Hit' Hsid. unfold scanned. rewrite sort_group_perm.
    apply list_elem_of_filter. split; [exact Hsid | now apply list_elem_of_fmap_2]. }
  pose proof (sort_group_sorted keep_policy
    (filter (λ e, e_sid e = sid_of it) (enrich fingerprint <$> items))) as Hs.
  fold (scanned keep_policy items it) in Hs.
  destruct (scanned keep_policy items it) as [| e0 r] eqn:ES.
  { specialize (Hin it Hit eq_refl). now apply elem_of_nil in Hin. }
  destruct (scanned_row keep_policy items it e0) as (k & Hk & -> & Hsid).
  { rewrite ES. apply list_elem_of_here. }
  exists k. split; [| split; [exact Hsid|]].
  - apply (survives_kept_rows keep_policy items k Hnd Hk).
    unfold kept_rows. rewrite (scanned_same_source keep_policy items k it Hsid), ES.
    simpl. apply list_elem_of_here.
  - intros it' Hit' Hsid'. specialize (Hin it' Hit' Hsid').
    apply StronglySorted_inv in Hs as [_ Hall]. rewrite Forall_forall in Hall.
    apply elem_of_cons in Hin as [<- | Hin]; [| now apply Hall].
    destruct (policy_total keep_policy (enrich fingerprint it')
                (enrich fingerprint it')); assumption.
Qed.

(** X14.  With a negative threshold nothing is dropped: the pass returns
    its input. *)
Theorem within_source_negative_threshold (keep_policy : string)
    (items : list Item) :
  hamming_threshold < 0 →
  drop_near_duplicates_within_source fingerprint hamming_threshold
    items keep_policy = items.
Proof.
  intros Hth. unfold drop_near_duplicates_within_source.
  apply Warehouse.filter_all. intros it Hit.
  unfold kept_ids_of. apply process_groups_ids. right.
  set (arr := filter (λ e, e_sid e = sid_of it) (enrich fingerprint <$> items)).
  assert (He : enrich fingerprint it ∈ arr).
  { apply list_elem_of_filter. split; [reflexivity | now apply list_elem_of_fmap_2]. }
  exists arr. split.
  - apply list_elem_of_fmap. exists (sid_of it, arr). split; [reflexivity|].
    apply by_src_spec. split; [| reflexivity].
    intros E. rewrite E in He. now apply elem_of_nil in He.
  - exists (enrich fingerprint it). split; [| reflexivity].
    rewrite greedy_keep_is_keep, keep_negative by assumption.
    now rewrite sort_group_perm.
Qed.

(** X15.  The pass within sources is idempotent on a list of distinct
    objects: run on its own result, with the same policy, it returns that
    result unchanged. *)
Theorem within_source_idempotent (keep_policy : string) (items : list Item) :
  NoDup (oid <$> items) →
  drop_near_duplicates_within_source fingerprint hamming_threshold
    (drop_near_duplicates_within_source fingerprint hamming_threshold
       items keep_policy) keep_policy
  = drop_near_duplicates_within_source fingerprint hamming_threshold
      items keep_policy.
Proof.
  intros Hnd.
  set (out := drop_near_duplicates_within_source fingerprint hamming_threshold
                items keep_policy).
  assert (Hnd' : NoDup (oid <$> out)).
  { eapply sublist_NoDup; [exact Hnd|]. apply fmap_sublist, sublist_filter. }
  assert (Hall : ∀ it, it ∈ out →
            it ∈ drop_near_duplicates_within_source fingerprint
                   hamming_threshold out keep_policy).
  { intros it Hit.
    apply (proj2 (survives_kept_rows keep_policy out it Hnd' Hit)).
    unfold kept_rows at 1. unfold out at 1.
    rewrite (scanned_again keep_policy items it Hnd).
    unfold kept_rows.
    rewrite (greedy_keep_is_keep
               (greedy_keep hamming_threshold [] (scanned keep_policy items it)) []).
    rewrite (greedy_keep_is_keep (scanned keep_policy items it) []).
    rewrite keep_fixed.
    - rewrite <- (greedy_keep_is_keep (scanned keep_policy items it) []).
      pose proof (out_elem keep_policy items it Hit) as Hit'.
      exact (proj1 (survives_kept_rows keep_policy items it Hnd Hit') Hit).
    - apply Forall_forall. intros x _. constructor.
    - apply keep_far. }
  unfold drop_near_duplicates_within_source at 1.
  apply Warehouse.filter_all. intros it Hit.
  specialize (Hall it Hit).
  unfold drop_near_duplicates_within_source in Hall at 1.
  apply list_elem_of_filter in Hall. tauto.
Qed.

End Facts.

Lemma within_source_survivors_far_witness :
  4 < hamming64 (fp toy_fingerprint run_b) (fp toy_fingerprint run_d).
Proof.
  apply (within_source_survivors_far toy_fingerprint 4 "earliest"
           [run_a; run_b; run_d] run_b run_d).
  - compute_done.
  - compute_done.
  - compute_done.
  - discriminate.
  - reflexivity.
Defined.

Lemma within_source_keeps_first_of_source_witness :
  ∃ k, k ∈ drop_near_duplicates_within_source toy_fingerprint 4
             [run_a; run_b; run_d] "earliest"
       ∧ sid_of toy_fingerprint k = sid_of toy_fingerprint run_a
       ∧ ∀ it', it' ∈ [run_a; run_b; run_d] →
           sid_of toy_fingerprint it' = sid_of toy_fingerprint run_a →
           policy_before "earliest" (enrich toy_fingerprint k)
             (enrich toy_fingerprint it') = true.
Proof.
  apply (within_source_keeps_first_of_source toy_fingerprint 4 "earliest"
           [run_a; run_b; run_d] run_a).
  - compute_done.
  - apply list_elem_of_here.
Defined.

Lemma within_source_negative_threshold_witness :
  drop_near_duplicates_within_source toy_fingerprint (-1)
    [run_a; run_b; run_d] "earliest" = [run_a; run_b; run_d].
Proof. apply within_source_negative_threshold. lia. Defined.

Lemma within_source_idempotent_witness :
  drop_near_duplicates_within_source toy_fingerprint 4
    (drop_near_duplicates_within_source toy_fingerprint 4
       [run_a; run_b; run_d] "earliest") "earliest"
  = drop_near_duplicates_within_source toy_fingerprint 4
      [run_a; run_b; run_d] "earliest".
Proof. apply within_source_idempotent. compute_done. Defined.

End WithinSourceFacts.

(* ===================================================================== *)
(** ** Writing the detail layer, and how the refreshes compose
       (src/warehouse.py) *)
(* ===================================================================== *)

Module WarehouseWrites.
Import PyStr PyDict Warehouse.

(** The keys of an item that end up in the columns of [dwd_row]; the other
    columns ([wid], [text], [region], [tags], [week_tag], ...) are written
    by the same statement and read by neither refresh. *)
Record item : Type := mkItem {
  url_norm : option string;
  link : option string;
  it_title : string;
  it_summary : option string;
  summary_nodate : option string;
  it_category : option string;
  it_source_id : option string;
  it_date : option Z
}.

(** [INSERT ... ON CONFLICT(uid) DO UPDATE SET title=excluded.title, ...]:
    the row with the same [uid], if there is one, takes the new values at
    its place; otherwise the new row is appended. *)
Fixpoint upsert (r : dwd_row) (table : list dwd_row) : list dwd_row :=
  match table with
  | [] => [r]
  | x :: rest =>
      if String.eqb (uid x) (uid r) then r :: rest else x :: upsert r rest
  end.

(** The database after [init_db()]. *)
Definition empty_db : db := {| dwd_news := []; dws_weekly := []; ads_items := [] |}.

Section Upsert.

(** [hashlib.sha1(s.encode("utf-8")).hexdigest()] *)
Variable sha1 : string → string.

(** The values bound to the statement:
<<
    url = it.get("url_norm") or it.get("link") or ""
    uid = _sha1(url)
    summary = it.get("summary") or it.get("summary_nodate") or ""
>> *)
Definition new_row (it : item) (valid : Z) : dwd_row :=
  let url := str_or (url_norm it) (str_or (link it) "") in
  {| uid := sha1 url; title := it_title it; url := url;
     summary := Some (str_or (it_summary it) (str_or (summary_nodate it) ""));
     category := it_category it; source_id := it_source_id it;
     published_at := it_date it; valid := valid |}.

Definition dwd_upsert (it : item) (valid : Z) (d : db) : db :=
  {| dwd_news := upsert (new_row it valid) (dwd_news d);
     dws_weekly := dws_weekly d; ads_items := ads_items d |}.

(** A run of the pipeline as far as the warehouse sees it: a sequence of
    [dwd_upsert(it, valid)] calls. *)
Definition run_writes (writes : list (item * Z)) (d : db) : db :=
  fold_left (λ d w, dwd_upsert w.1 w.2 d) writes d.

End Upsert.

(** [SELECT SUM(cnt) FROM dws_weekly]-style total of a list of aggregate
    rows. *)
Definition total_cnt (l : list dws_row) : Z := foldr (λ a acc, cnt a + acc) 0 l.



(** *** Upserting *)

Lemma upsert_uids r table :
  uid <$> upsert r table
  = if bool_decide (uid r ∈ uid <$> table) then uid <$> table
    else (uid <$> table) ++ [uid r].
Proof.
  induction table as [| x rest IH].
  - rewrite bool_decide_eq_false_2 by apply not_elem_of_nil. reflexivity.
  - cbn [upsert]. rewrite (fmap_cons uid x rest).
    destruct (String.eqb_spec (uid x) (uid r)) as [E | E].
    + rewrite bool_decide_eq_true_2 by (rewrite E; apply list_elem_of_here).
      now rewrite fmap_cons, E.
    + rewrite fmap_cons, IH.
      destruct (decide (uid r ∈ uid <$> rest)) as [Hin | Hin].
      * rewrite !bool_decide_eq_true_2; auto. now apply list_elem_of_further.
      * rewrite !bool_decide_eq_false_2; auto.
        intros H. apply elem_of_cons in H as [H | H]; congruence.
Qed.

Lemma upsert_NoDup r table :
  NoDup (uid <$> table) → NoDup (uid <$> upsert r table).
Proof.
  intros Hnd. rewrite upsert_uids.
  destruct (decide (uid r ∈ uid <$> table)) as [Hin | Hin].
  - now rewrite bool_decide_eq_true_2.
  - rewrite bool_decide_eq_false_2 by assumption.
    apply NoDup_app. repeat split; auto.
    + intros x Hx Hx'. apply list_elem_of_singleton in Hx'. congruence.
    + apply NoDup_singleton.
Qed.



Lemma run_writes_NoDup sha1 writes :
  ∀ d, NoDup (uid <$> dwd_news d) →
       NoDup (uid <$> dwd_news (run_writes sha1 writes d)).
Proof.
  induction writes as [| w rest IH]; intros d Hnd; [exact Hnd|].
  simpl. apply IH. simpl. now apply upsert_NoDup.
Qed.

(** *** Inserting under a primary key *)

Lemma insert_rows_result {R K} `{EqDecision K} (key : R → option K) new :
  ∀ table,
    NoDup (omap key new) →
    (insert_rows key table new = Ok (table ++ new)
     ∧ ∀ k, k ∈ omap key new → k ∉ omap key table)
    ∨ (insert_rows key table new = Raise (IntegrityError "UNIQUE constraint failed")
       ∧ ∃ k, k ∈ omap key new ∧ k ∈ omap key table).
Proof.
  induction new as [| r rest IH]; intros table Hnd.
  - left. simpl. rewrite app_nil_r. split; [reflexivity|].
    intros k Hk. now apply elem_of_nil in Hk.
  - cbn [insert_rows omap list_omap] in *.
    destruct (key r) as [k|] eqn:Ek.
    + apply NoDup_cons in Hnd as [Hk Hrest].
      destruct (decide (Some k ∈ key <$> table)) as [Hin | Hin].
      * right. rewrite bool_decide_eq_true_2 by assumption.
        split; [reflexivity|]. exists k.
        split; [apply list_elem_of_here | now apply key_in_table].
      * rewrite bool_decide_eq_false_2 by assumption.
        destruct (IH (table ++ [r]) Hrest) as [[HOk Hfresh] | [HRaise (k' & Hk1 & Hk2)]].
        -- left. rewrite HOk, <- app_assoc. split; [reflexivity|].
           intros k' Hk'. apply elem_of_cons in Hk' as [-> | Hk'].
           ++ now rewrite <- key_in_table.
           ++ intros Hin'. apply (Hfresh k' Hk').
              rewrite omap_app. apply elem_of_app. now left.
        -- rewrite omap_app in Hk2. apply elem_of_app in Hk2 as [Hk2 | Hk2].
           ++ right. split; [exact HRaise|]. exists k'.
              split; [now apply list_elem_of_further | assumption].
           ++ exfalso. cbn [omap list_omap] in Hk2. rewrite Ek in Hk2.
              apply list_elem_of_singleton in Hk2 as ->. contradiction.
    + destruct (IH (table ++ [r]) Hnd) as [[HOk Hfresh] | [HRaise (k' & Hk1 & Hk2)]].
      * left. rewrite HOk, <- app_assoc. split; [reflexivity|].
        intros k' Hk' Hin'. apply (Hfresh k' Hk').
        rewrite omap_app. apply elem_of_app. now left.
      * right. split; [exact HRaise|]. exists k'. split; [assumption|].
        rewrite omap_app in Hk2. apply elem_of_app in Hk2 as [Hk2 | Hk2];
          [assumption|].
        cbn [omap list_omap] in Hk2. rewrite Ek in Hk2.
        now apply elem_of_nil in Hk2.
Qed.

Lemma total_cnt_groups (gs : list (Z * Z * option string * string * list (dwd_row * Z))) :
  total_cnt ((λ g, {| dws_year_week := g.1.1.1; dws_source_id := g.1.1.2;
                      dws_category := g.1.2; cnt := Z.of_nat (length g.2) |})
               <$> gs)
  = Z.of_nat (length (concat gs.*2)).
Proof.
  induction gs as [| g gs IH]; [reflexivity|].
  rewrite !fmap_cons. cbn [total_cnt foldr concat cnt].
  fold (total_cnt ((λ g, {| dws_year_week := g.1.1.1; dws_source_id := g.1.1.2;
                      dws_category := g.1.2; cnt := Z.of_nat (length g.2) |})
               <$> gs)).
  rewrite IH, length_app. lia.
Qed.

Lemma number_from_ranks i l :
  rank <$> number_from i l = Z.of_nat <$> seq (S i) (length l).
Proof.
  revert i. induction l as [| r rest IH]; intros i; [reflexivity|].
  simpl. now rewrite IH.
Qed.



(** X18.  After any sequence of [dwd_upsert] calls on a fresh database,
    [refresh_ads] succeeds, and a second [refresh_ads] at the same instant
    changes nothing. *)
Theorem writes_then_refresh_ads_stable (sha1 : string → string)
    (writes : list (item * Z)) (now lookback_days per_week_cap : Z) :
  ∃ d1,
    refresh_ads now lookback_days per_week_cap (run_writes sha1 writes empty_db)
    = Ok d1
    ∧ refresh_ads now lookback_days per_week_cap d1 = Ok d1.
Proof.
  apply refresh_ads_idempotent. apply run_writes_NoDup. constructor.
Qed.

(** X19.  [refresh_dws] succeeds exactly when no aggregate row that it is
    about to insert has the key (week, source, category) of a row that
    survives the DELETE, that is, of an old aggregate row whose week has no
    row inside the lookback window; otherwise it raises the integrity
    error.  On success the table holds the surviving rows followed by the
    new ones. *)
Theorem refresh_dws_succeeds_iff (now lookback_days : Z) (d : db) :
  ((∃ d1, refresh_dws now lookback_days d = Ok d1) ↔
   ∀ a r k, a ∈ dws_aggregate (dwd_news d) → r ∈ dws_weekly d →
            dws_year_week r ∉ dws_weeks now lookback_days (dwd_news d) →
            dws_key a = Some k → dws_key r ≠ Some k)
  ∧ (refresh_dws now lookback_days d
     = Ok {| dwd_news := dwd_news d;
             dws_weekly :=
               filter (λ r, dws_year_week r ∉ dws_weeks now lookback_days (dwd_news d))
                 (dws_weekly d) ++ dws_aggregate (dwd_news d);
             ads_items := ads_items d |}
     ∨ refresh_dws now lookback_days d
       = Raise (IntegrityError "UNIQUE constraint failed")).
Proof.
  unfold refresh_dws. cbv zeta.
  set (remaining := filter (λ r, dws_year_week r ∉ dws_weeks now lookback_days
                                   (dwd_news d)) (dws_weekly d)).
  destruct (insert_rows_result dws_key (dws_aggregate (dwd_news d)) remaining
              (dws_aggregate_keys (dwd_news d)))
    as [[HOk Hfresh] | [HRaise (k & Hk1 & Hk2)]].
  - rewrite HOk. split; [| now left]. split; [| intros _; eexists; reflexivity].
    intros _ a r k Ha Hr Hw Hka Hkr.
    apply (Hfresh k).
    + apply list_elem_of_omap. eauto.
    + apply list_elem_of_omap. exists r. split; [| assumption].
      apply list_elem_of_filter. now split.
  - rewrite HRaise. split; [| now right]. split; [intros [d1 H]; discriminate|].
    intros Hno. exfalso.
    apply list_elem_of_omap in Hk1 as (a & Ha & Hka).
    apply list_elem_of_omap in Hk2 as (r & Hr & Hkr).
    apply list_elem_of_filter in Hr as [Hw Hr].
    exact (Hno a r k Ha Hr Hw Hka Hkr).
Qed.

(** X20.  The two refreshes do not interfere: neither changes the detail
    table, and when [refresh_dws] followed by [refresh_ads] succeeds, so
    does [refresh_ads] followed by [refresh_dws], with the same final
    database. *)
Theorem refreshes_commute (now lb_dws lb_ads per_week_cap : Z) (d d1 d2 : db) :
  refresh_dws now lb_dws d = Ok d1 →
  refresh_ads now lb_ads per_week_cap d1 = Ok d2 →
  dwd_news d2 = dwd_news d
  ∧ ∃ d1', refresh_ads now lb_ads per_week_cap d = Ok d1'
           ∧ refresh_dws now lb_dws d1' = Ok d2.
Proof.
  unfold refresh_dws, refresh_ads. cbv zeta. intros H1 H2.
  destruct (insert_rows dws_key _ _) as [t1|e1] eqn:E1; [|discriminate].
  cbn in H1. injection H1 as <-. cbn [dwd_news dws_weekly ads_items] in H2.
  destruct (insert_rows ads_key _ _) as [t2|e2] eqn:E2; [|discriminate].
  cbn in H2. injection H2 as <-. split; [reflexivity|].
  eexists. split; [reflexivity|].
  cbn [dwd_news dws_weekly ads_items]. rewrite E1. reflexivity.
Qed.

(** X21.  The counts of the aggregate rows add up to the number of accepted
    rows with a timestamp, and no aggregate row has a count below 1. *)
Theorem dws_counts_add_up (rows : list dwd_row) :
  total_cnt (dws_aggregate rows) = Z.of_nat (length (dws_selected rows))
  ∧ ∀ a, a ∈ dws_aggregate rows → 1 <= cnt a.
Proof.
  unfold dws_aggregate. split.
  - rewrite total_cnt_groups. now rewrite dd_group_concat.
  - intros a Ha. apply list_elem_of_fmap in Ha as ([k part] & -> & Hg).
    apply (dd_group_spec dws_group_key) in Hg as [Hne _]. simpl.
    destruct part; [congruence | simpl; lia].
Qed.

(** X22.  Within every week the ranks are 1, 2, ..., n in this order,
    without gap or repetition. *)
Theorem ranks_are_dense (now lookback_days : Z) (rows : list dwd_row) (w : Z * Z) :
  rank <$> filter (λ a, ads_year_week a = w) (ranked now lookback_days rows)
  = Z.of_nat <$> seq 1 (length (filter (λ a, ads_year_week a = w)
                                  (ranked now lookback_days rows))).
Proof.
  destruct (ranked_week_slice now lookback_days rows w) as [part ->].
  unfold rank_partition. rewrite number_from_ranks, number_from_length.
  reflexivity.
Qed.



Lemma refresh_dws_succeeds_iff_witness :
  ∃ d1, refresh_dws run_now 60 run_db = Ok d1.
Proof.
  apply (refresh_dws_succeeds_iff run_now 60 run_db).
  intros a r k _ Hr. now apply elem_of_nil in Hr.
Defined.

Lemma refreshes_commute_witness :
  ∃ d1 d2 d1',
    refresh_dws run_now 60 run_db = Ok d1
    ∧ refresh_ads run_now 30 200 d1 = Ok d2
    ∧ refresh_ads run_now 30 200 run_db = Ok d1'
    ∧ refresh_dws run_now 60 d1' = Ok d2.
Proof.
  destruct (refresh_dws run_now 60 run_db) as [d1|] eqn:E1;
    [| vm_compute in E1; discriminate].
  destruct (refresh_ads run_now 30 200 d1) as [d2|] eqn:E2.
  - destruct (refreshes_commute run_now 60 30 200 run_db d1 d2 E1 E2)
      as (_ & d1' & H1 & H2).
    exists d1, d2, d1'. auto.
  - exfalso. vm_compute in E1. injection E1 as <-. vm_compute in E2. discriminate.
Defined.

End WarehouseWrites.

(* ===================================================================== *)
(** ** When the priors leave the label alone (src/llm/analyze_article.py) *)
(* ===================================================================== *)

Module PosteriorFacts.
Import PyStr Posterior.

Local Open Scope Q_scope.





Lemma hard_override_bucket HARD_WEIGHT expert weight cat base :
  hard_override HARD_WEIGHT expert weight = Some (cat, base) →
  ∃ e, expert = [e] ∧ tag_bucket e = Some cat
       ∧ (cat = "news" ∨ cat = "product" ∨ cat = "method").
Proof.
  unfold hard_override. destruct expert as [| e [| e' r]]; try discriminate.
  destruct (Qle_bool HARD_WEIGHT weight); [|discriminate].
  rewrite methodology_marker. unfold tag_bucket.
  destruct (str_in "要闻" e) eqn:E1;
    [intros H; injection H as <- <-; exists e; rewrite E1; auto 6|].
  destruct (str_in "产品" e) eqn:E2;
    [intros H; injection H as <- <-; exists e; rewrite E1, E2; auto 6|].
  destruct (str_in "方法" e) eqn:E3;
    [intros H; injection H as <- <-; exists e; rewrite E1, E2, E3; auto 7
    | discriminate].
Qed.


Lemma soft_blend_bucket llm_cat confid expert weight final base :
  soft_blend llm_cat confid expert weight = Ok (final, base) → is_bucket final.
Proof.
  rewrite soft_blend_core. intros H.
  assert (Hl : is_bucket llm_cat).
  { apply dict_has_bucket. unfold blend_core in H.
    destruct (dict_has llm_cat _); [reflexivity | discriminate]. }
  destruct (blend_core_spec llm_cat (confidence_or_default confid)
              ((15 # 100) * py_max 0 (py_min (confidence_or_default confid) 1))
              ((12 # 100) * py_max (5 # 10) (py_min weight 4)) expert weight Hl)
    as (f & A & B & C & D & Hr & _ & _ & _ & _ & _ & Hmax);
    [rewrite py_max_min_clamp by lra; reflexivity
    | rewrite py_max_min_clamp by lra; reflexivity |].
  rewrite Hr in H. injection H as <- _.
  unfold is_bucket.
  destruct Hmax as [(-> & _) | [(-> & _) | [(-> & _) | (-> & _)]]]; auto.
Qed.

Lemma posterior_bucket HARD_WEIGHT llm_cat confid expert weight final base :
  posterior_category_with_priors HARD_WEIGHT llm_cat confid expert weight
  = Ok (final, base) →
  is_bucket final.
Proof.
  unfold posterior_category_with_priors.
  destruct (hard_override HARD_WEIGHT expert weight) as [[cat b]|] eqn:E.
  - intros [= <- <-]. apply hard_override_bucket in E as (_ & _ & _ & H).
    unfold is_bucket. tauto.
  - apply soft_blend_bucket.
Qed.


(** X23.  Whatever the label, the confidence and the priors, a category
    returned by [posterior_category_with_priors] is one of news, product,
    market and method. *)
Theorem posterior_returns_bucket (HARD_WEIGHT : Q) (llm_cat : string)
    (confid : option Q) (expert : list string) (weight : Q)
    (final : string) (base : dist) :
  posterior_category_with_priors HARD_WEIGHT llm_cat confid expert weight
  = Ok (final, base) →
  is_bucket final.
Proof. apply posterior_bucket. Qed.


Lemma posterior_returns_bucket_witness :
  is_bucket "news".
Proof.
  apply (posterior_returns_bucket HARD_WEIGHT_default "market" None ["要闻速览"] 5
           "news" [("news", 1); ("product", 0); ("method", 0)]).
  reflexivity.
Defined.


End PosteriorFacts.

(* ===================================================================== *)
(** ** From an analysis to a bucket (src/pipeline/bucketizer.py) *)
(* ===================================================================== *)

Module Bucketizer.
Import PyStr Posterior PosteriorFacts ConfigLoader.

(** What [analyze_and_bucket] reads of the result [res] of
    [analyze_article_llm]: [confidence] is [res["confidence"]["category"]]
    when both keys are there. *)
Record analysis : Type := mkAnalysis {
  category : string;
  confidence : option Q;
  region : string;
  tags : list string
}.

(** What becomes of an item: dropped, with the status written to the
    detail layer, or appended to a bucket under its final category. *)
Inductive outcome : Type :=
  | Dropped (valid : Z)
  | Kept (final_cat bucket : string).

(** [{"市场数据", "market"} & tags] is not empty. *)
Definition market_tagged (tags : list string) : bool :=
  bool_decide ("市场数据" ∈ tags) || bool_decide ("market" ∈ tags).

(** The last [if] chain of the loop body. *)
Definition bucket_of (final_cat region : string) : string :=
  if String.eqb final_cat "news" then
    if String.eqb region "cn" then "news_cn" else "news_overseas"
  else if String.eqb final_cat "market" then "market"
  else if String.eqb final_cat "product" then "product"
  else "method".

(** [if final_cat in ("product", "method") and ({"市场数据", "market"} & tags):
       final_cat = "market"] *)
Definition market_override (final_cat : string) (tags : list string) : string :=
  if (String.eqb final_cat "product" || String.eqb final_cat "method")
     && market_tagged tags
  then "market" else final_cat.

Section Step.

Variable HARD_WEIGHT : Q.
Variable ENABLE_LLM_IGNORE : bool.
Variable sources_cfg : ConfigLoader.sources_cfg.

(** The body of [for it in items] from the ignore test on, for an item of
    source [sid] analysed as [res]. *)
Definition classify (sid : string) (res : analysis) : result outcome :=
  if ENABLE_LLM_IGNORE && String.eqb (category res) "ignore" then Ok (Dropped 4)
  else
    let '(weight, expert) := priors_for_source sources_cfg sid in
    '(final_cat, _) ←
      posterior_category_with_priors HARD_WEIGHT (category res)
        (Some (default (6 # 10)%Q (confidence res))) expert weight;
    let final_cat := market_override (lower_ascii final_cat) (tags res) in
    Ok (Kept final_cat (bucket_of final_cat (region res))).

End Step.

(** A configuration with one source, and an analysis of a product story
    that carries the market tag. *)
Definition run_cfg : ConfigLoader.sources_cfg :=
  {[ "gamelook" := {| weight := Some 3%Q; expertise := ["产品分析"] |} ]}.

Definition run_res : analysis :=
  {| category := "product"; confidence := Some (8 # 10)%Q; region := "cn";
     tags := ["SLG"; "市场数据"] |}.

Lemma lower_bucket label : is_bucket label → lower_ascii label = label.
Proof. intros [-> | [-> | [-> | ->]]]; reflexivity. Qed.


Lemma market_override_range final tags :
  is_bucket final → market_tagged tags = true →
  market_override final tags = "news" ∨ market_override final tags = "market".
Proof.
  intros Hf Ht. unfold market_override. rewrite Ht.
  destruct Hf as [-> | [-> | [-> | ->]]]; simpl; auto.
Qed.

(** X25.  An item whose analysis carries the tag 市场数据 or market never
    goes to the product or the method bucket: it is dropped, or kept as
    news or as market. *)
Theorem market_tag_routes_to_market (HARD_WEIGHT : Q) (ENABLE_LLM_IGNORE : bool)
    (sources_cfg : ConfigLoader.sources_cfg) (sid : string) (res : analysis)
    (final bucket : string) :
  market_tagged (tags res) = true →
  classify HARD_WEIGHT ENABLE_LLM_IGNORE sources_cfg sid res
  = Ok (Kept final bucket) →
  (final = "news" ∧ (bucket = "news_cn" ∨ bucket = "news_overseas"))
  ∨ (final = "market" ∧ bucket = "market").
Proof.
  intros Ht. unfold classify.
  destruct (ENABLE_LLM_IGNORE && String.eqb (category res) "ignore");
    [discriminate|].
  destruct (priors_for_source sources_cfg sid) as [weight expert].
  destruct (posterior_category_with_priors HARD_WEIGHT (category res) _ expert weight)
    as [[f base]|e] eqn:E; [| discriminate].
  apply posterior_bucket in E. cbn. intros [= <- <-].
  rewrite (lower_bucket f E).
  destruct (market_override_range f (tags res) E Ht) as [-> | ->].
  - left. split; [reflexivity|]. unfold bucket_of. simpl.
    destruct (String.eqb (region res) "cn"); auto.
  - right. split; reflexivity.
Qed.


Lemma market_tag_routes_to_market_witness :
  ("market" = "news" ∧ ("market" = "news_cn" ∨ "market" = "news_overseas"))
  ∨ ("market" = "market" ∧ "market" = "market").
Proof.
  apply (market_tag_routes_to_market HARD_WEIGHT_default true run_cfg
           "gamelook" run_res "market" "market").
  - reflexivity.
  - vm_compute. reflexivity.
Defined.


End Bucketizer.

(* ===================================================================== *)
(** ** Recall followed by confirmation, without the oracle
       (src/post_process_dedup.py) *)
(* ===================================================================== *)

Module ConfirmFacts.
Import PyStr Similarity BatchDedup SemanticConfirm.

Section NoOracle.

Variable netloc : string → string.
Variable chat_create : nat → string → result (option string).
Variable strip : string → string.
Variable json_loads : string → result json.
Variable py_str : json → string.
Variable items : list Item.
Variable use_llm : bool.
Variable max_pairs : Z.






End NoOracle.


End ConfirmFacts.

(* ===================================================================== *)
(** ** Collecting the items of the window (src/pipeline/collector.py) *)
(* ===================================================================== *)

Module Collector.
Import PyStr.

(** An item as [fetch_items_from_feed] builds it; [url_norm] is the key
    that [collect_items] adds, [None] until then. *)
Record Item : Type := mkItem {
  source_id : string;
  title : string;
  link : string;
  date : option Z;
  text : string;
  summary_raw : string;
  url_norm : option string
}.

(** [it["url_norm"] = u] *)
Definition set_url_norm (u : string) (it : Item) : Item :=
  {| source_id := source_id it; title := title it; link := link it;
     date := date it; text := text it; summary_raw := summary_raw it;
     url_norm := Some u |}.

Section Collect.

(** [normalize_url] and [plain_text_len] *)
Variable normalize_url : string → string.
Variable plain_text_len : string → Z.
(** The window [start <= dt <= end] and the configuration value
    [MIN_TEXT_LENGTH]. *)
Variable start end_ : Z.
Variable MIN_TEXT_LENGTH : Z.

(** The first loop: items without a date are skipped. *)
Definition in_window (it : Item) : bool :=
  match date it with
  | Some dt => (start <=? dt) && (dt <=? end_)
  | None => false
  end.

Definition inwin (all_items : list Item) : list Item :=
  filter (λ it, in_window it = true) all_items.

(** One iteration of the second loop; the state is [(seen, uniq)]. *)
Definition uniq_step (st : gset string * list Item) (it : Item)
    : gset string * list Item :=
  let u := normalize_url (link it) in
  let it := set_url_norm u it in
  if String.eqb u "" then st
  else if bool_decide (u ∈ st.1) then st
  else ({[ u ]} ∪ st.1, st.2 ++ [it]).

Definition uniq (items : list Item) : list Item :=
  (fold_left uniq_step items (∅, [])).2.

(** One iteration of the third loop; the state is [(filtered, short)],
    [short] being the items written with [dwd_upsert(it, valid=2)]. *)
Definition short_step (st : list Item * list Item) (it : Item)
    : list Item * list Item :=
  if plain_text_len (text it) <? MIN_TEXT_LENGTH
  then (st.1, st.2 ++ [it])
  else (st.1 ++ [it], st.2).

(** [collect_items], from the list of all fetched items on: the items
    returned, and those recorded as too short. *)
Definition collect_items (all_items : list Item) : list Item * list Item :=
  fold_left short_step (uniq (inwin all_items)) ([], []).

(** The address under which an item is compared. *)
Definition url_of (it : Item) : string := normalize_url (link it).

(** [it] is the first item of [items] with its address, and has one. *)
Definition first_with_url (items : list Item) (i : nat) (it : Item) : Prop :=
  items !! i = Some it ∧ url_of it ≠ ""
  ∧ ∀ j it', (j < i)%nat → items !! j = Some it' → url_of it' ≠ url_of it.

(** Sample feed: one address fetched twice, the first time with a short
    text. *)
Definition toy_normalize_url (u : string) : string := u.
Definition toy_plain_text_len (s : string) : Z := Z.of_nat (String.length s).

Definition feed_short : Item :=
  {| source_id := "gamelook"; title := "a"; link := "https://example.org/a";
     date := Some 10; text := "short"; summary_raw := ""; url_norm := None |}.
Definition feed_long : Item :=
  {| source_id := "youxituoluo"; title := "a"; link := "https://example.org/a";
     date := Some 11; text := "a text that is long enough";
     summary_raw := ""; url_norm := None |}.
Definition feed_other : Item :=
  {| source_id := "gamelook"; title := "b"; link := "https://example.org/b";
     date := Some 12; text := "another text that is long enough";
     summary_raw := ""; url_norm := None |}.

Lemma url_of_set u it : url_of (set_url_norm u it) = url_of it.
Proof. reflexivity. Qed.

Lemma first_with_url_snoc items x i it :
  first_with_url (items ++ [x]) i it ↔
  first_with_url items i it
  ∨ (i = length items ∧ it = x ∧ url_of x ≠ ""
     ∧ ∀ it', it' ∈ items → url_of it' ≠ url_of x).
Proof.
  unfold first_with_url. split.
  - intros (Hi & Hu & Hfirst).
    destruct (decide (i < length items)%nat) as [Hlt | Hge].
    + left. rewrite lookup_app_l in Hi by assumption.
      split; [assumption|]. split; [assumption|].
      intros j it' Hj Hj'. apply (Hfirst j it' Hj).
      rewrite lookup_app_l; [assumption | lia].
    + right. rewrite lookup_app_r in Hi by lia.
      apply list_lookup_singleton_Some in Hi as [Hi ->].
      assert (i = length items) as -> by lia.
      repeat split; auto.
      intros it' Hit'. apply list_elem_of_lookup in Hit' as [j Hj].
      apply (Hfirst j it').
      * now apply lookup_lt_Some in Hj.
      * rewrite lookup_app_l; [assumption | now apply lookup_lt_Some in Hj].
  - intros [(Hi & Hu & Hfirst) | (-> & -> & Hu & Hfirst)].
    + pose proof (lookup_lt_Some _ _ _ Hi) as Hlt.
      split; [rewrite lookup_app_l; assumption|]. split; [assumption|].
      intros j it' Hj Hj'. apply (Hfirst j it' Hj).
      rewrite lookup_app_l in Hj'; [assumption | lia].
    + split; [rewrite lookup_app_r, Nat.sub_diag by lia; reflexivity|].
      split; [assumption|].
      intros j it' Hj Hj'. apply Hfirst.
      rewrite lookup_app_l in Hj' by assumption.
      now apply list_elem_of_lookup_2 in Hj'.
Qed.

(** The state of the second loop after the items [items]. *)
Lemma uniq_state items :
  let st := fold_left uniq_step items (∅, []) in
  (∀ u, u ∈ st.1 ↔ u ≠ "" ∧ ∃ it, it ∈ items ∧ url_of it = u)
  ∧ (∀ r, r ∈ st.2 ↔
          ∃ i it, first_with_url items i it ∧ r = set_url_norm (url_of it) it)
  ∧ NoDup (url_of <$> st.2)
  ∧ sublist st.2 ((λ it, set_url_norm (url_of it) it) <$> items).
Proof.
  induction items as [| x items IH] using rev_ind.
  - simpl. split; [| split; [| split; constructor]].
    + intros u. split.
      * intros Hx. now apply not_elem_of_empty in Hx.
      * intros (_ & it & Hit & _). now apply elem_of_nil in Hit.
    + intros r. split.
      * intros Hx. now apply elem_of_nil in Hx.
      * intros (i & it & (Hi & _) & _). now rewrite lookup_nil in Hi.
  - cbv zeta in IH |- *. rewrite fold_left_app. cbn [fold_left].
    destruct (fold_left uniq_step items (∅, [])) as [seen acc].
    cbn [fst snd] in IH. destruct IH as (Hseen & Hacc & Hnd & Hsub).
    rewrite fmap_app. cbn [fmap list_fmap].
    assert (Hold : ∀ r, r ∈ acc →
              ∃ i it, first_with_url (items ++ [x]) i it
                      ∧ r = set_url_norm (url_of it) it).
    { intros r Hr. apply Hacc in Hr as (i & it & Hf & ->).
      exists i, it. split; [|reflexivity]. apply first_with_url_snoc. now left. }
    assert (Hseen_l : ∀ u, u ∈ seen →
              u ≠ "" ∧ ∃ it, it ∈ items ++ [x] ∧ url_of it = u).
    { intros u Hu. apply Hseen in Hu as (Hne & it & Hit & Hu).
      split; [assumption|]. exists it. split; [|assumption].
      apply elem_of_app. now left. }
    unfold uniq_step. cbn [fst snd]. fold (url_of x).
    destruct (String.eqb_spec (url_of x) "") as [E | E];
      [| destruct (decide (url_of x ∈ seen)) as [Hin | Hin];
         [rewrite bool_decide_eq_true_2 by assumption
         | rewrite bool_decide_eq_false_2 by assumption]];
      cbn [fst snd]; (split; [| split; [| split]]).
    + intros u. split; [apply Hseen_l|].
      intros (Hne & it & Hit & Hu). apply Hseen. split; [assumption|].
      apply elem_of_app in Hit as [Hit | Hit]; [eauto|].
      apply list_elem_of_singleton in Hit as ->. congruence.
    + intros r. split; [apply Hold|].
      intros (i & it & Hf & ->). apply Hacc.
      apply first_with_url_snoc in Hf as [Hf | (_ & -> & Hne & _)];
        [eauto | contradiction].
    + exact Hnd.
    + now apply sublist_inserts_r.
    + intros u. split; [apply Hseen_l|].
      intros (Hne & it & Hit & Hu). apply Hseen. split; [assumption|].
      apply elem_of_app in Hit as [Hit | Hit]; [eauto|].
      apply list_elem_of_singleton in Hit as ->.
      rewrite <- Hu. now apply Hseen.
    + intros r. split; [apply Hold|].
      intros (i & it & Hf & ->). apply Hacc.
      apply first_with_url_snoc in Hf as [Hf | (_ & -> & Hne & Hfirst)];
        [eauto|].
      exfalso. apply Hseen in Hin as (_ & it' & Hit' & Hu).
      now apply (Hfirst it' Hit').
    + exact Hnd.
    + now apply sublist_inserts_r.
    + intros u. split.
      * intros Hu. apply elem_of_union in Hu as [Hu | Hu]; [| now apply Hseen_l].
        apply elem_of_singleton in Hu as ->. split; [assumption|].
        exists x. split; [|reflexivity]. apply elem_of_app. right.
        apply list_elem_of_here.
      * intros (Hne & it & Hit & Hu). apply elem_of_union.
        apply elem_of_app in Hit as [Hit | Hit].
        -- right. apply Hseen. eauto.
        -- apply list_elem_of_singleton in Hit as ->. left.
           now apply elem_of_singleton.
    + intros r. split.
      * intros Hr. apply elem_of_app in Hr as [Hr | Hr]; [now apply Hold|].
        apply list_elem_of_singleton in Hr as ->.
        exists (length items), x. split; [|reflexivity].
        apply first_with_url_snoc. right.
        split; [reflexivity|]. split; [reflexivity|]. split; [assumption|].
        intros it' Hit' Hu. apply Hin. apply Hseen. split; [assumption | eauto].
      * intros (i & it & Hf & ->). apply elem_of_app.
        apply first_with_url_snoc in Hf as [Hf | (_ & -> & _)].
        -- left. apply Hacc. eauto.
        -- right. now apply list_elem_of_singleton.
    + rewrite fmap_app. apply NoDup_app. split; [assumption|].
      split; [| apply NoDup_singleton].
      intros u Hu Hu'. apply list_elem_of_singleton in Hu'. subst u.
      apply list_elem_of_fmap in Hu as (r & Hr & Hin').
      apply Hacc in Hin' as (i & it & (Hi & Hne & _) & ->).
      rewrite url_of_set in Hr. apply Hin. apply Hseen.
      split; [assumption|]. exists it.
      split; [now apply list_elem_of_lookup_2 in Hi | now rewrite Hr].
    + now apply sublist_app.
Qed.

Lemma short_fold l :
  ∀ st, fold_left short_step l st
        = (st.1 ++ filter (λ it, MIN_TEXT_LENGTH <= plain_text_len (text it)) l,
           st.2 ++ filter (λ it, plain_text_len (text it) < MIN_TEXT_LENGTH) l).
Proof.
  induction l as [| x l IH]; intros [f s]; simpl.
  - now rewrite !app_nil_r.
  - rewrite IH. unfold short_step. cbn [fst snd]. rewrite !filter_cons.
    destruct (Z.ltb_spec (plain_text_len (text x)) MIN_TEXT_LENGTH).
    + rewrite decide_False by lia. rewrite decide_True by lia.
      cbn [fst snd]. now rewrite <- app_assoc.
    + rewrite decide_True by lia. rewrite decide_False by lia.
      cbn [fst snd]. now rewrite <- app_assoc.
Qed.

(** X28.  The items returned by [collect_items] are exactly the items that
    lie in the window, are the first in the window with their normalised
    address, which is not empty, and whose text is long enough; each
    carries its normalised address.  No two of them share an address, they
    stand in the order of the fetched items, and an address whose first
    item in the window is too short never reaches the result, however long
    the later items with that address are. *)
Theorem collect_items_spec (all_items : list Item) :
  (∀ r, r ∈ (collect_items all_items).1 ↔
        ∃ i it, first_with_url (inwin all_items) i it
                ∧ r = set_url_norm (url_of it) it
                ∧ MIN_TEXT_LENGTH <= plain_text_len (text it))
  ∧ NoDup (url_of <$> (collect_items all_items).1)
  ∧ sublist (collect_items all_items).1
      ((λ it, set_url_norm (url_of it) it) <$> all_items)
  ∧ (∀ i it, first_with_url (inwin all_items) i it →
             plain_text_len (text it) < MIN_TEXT_LENGTH →
             ∀ r, r ∈ (collect_items all_items).1 → url_of r ≠ url_of it).
Proof.
  unfold collect_items. rewrite short_fold. cbn [fst snd app].
  destruct (uniq_state (inwin all_items)) as (_ & Hacc & Hnd & Hsub).
  fold (uniq (inwin all_items)) in Hacc, Hnd, Hsub.
  assert (Hiff : ∀ r, r ∈ filter (λ it, MIN_TEXT_LENGTH <= plain_text_len (text it))
                          (uniq (inwin all_items)) ↔
            ∃ i it, first_with_url (inwin all_items) i it
                    ∧ r = set_url_norm (url_of it) it
                    ∧ MIN_TEXT_LENGTH <= plain_text_len (text it)).
  { intros r. rewrite list_elem_of_filter, Hacc. split.
    - intros (Hlen & i & it & Hf & ->). exists i, it. auto.
    - intros (i & it & Hf & -> & Hlen). split; [exact Hlen | eauto]. }
  split; [exact Hiff|]. split; [| split].
  - eapply sublist_NoDup; [exact Hnd|]. apply fmap_sublist, sublist_filter.
  - etransitivity; [apply sublist_filter|].
    etransitivity; [exact Hsub|]. apply fmap_sublist, sublist_filter.
  - intros i it (Hi & Hne & Hfirst) Hshort r Hr Hu.
    apply Hiff in Hr as (i' & it' & (Hi' & Hne' & Hfirst') & -> & Hlen).
    rewrite url_of_set in Hu.
    destruct (Nat.lt_trichotomy i i') as [Hlt | [-> | Hgt]].
    + now apply (Hfirst' i it Hlt Hi).
    + assert (it' = it) as -> by congruence. lia.
    + now apply (Hfirst i' it' Hgt Hi').
Qed.

End Collect.

Example collect_items_run :
  collect_items toy_normalize_url toy_plain_text_len 0 100 20
    [feed_short; feed_long; feed_other]
  = ([set_url_norm "https://example.org/b" feed_other],
     [set_url_norm "https://example.org/a" feed_short]).
Proof. vm_compute. reflexivity. Qed.

End Collector.

(* ===================================================================== *)
(** ** Clusters of confirmed duplicates: the union-find of [main]
       (src/post_process_dedup.py) *)
(* ===================================================================== *)

Module Clustering.
Import PyDict.

Definition index_error : exn := IndexError "list index out of range".

(** [find], the loop bounded by [fuel]; [None] when the fuel runs out.
<<
    while parent[x] != x:
        parent[x] = parent[parent[x]]
        x = parent[x]
    return x
>>
    The list [parent] is shared: the result carries its new state. *)
Fixpoint find (fuel : nat) (parent : list nat) (x : nat)
    : option (result (list nat * nat)) :=
  match fuel with
  | O => None
  | S fuel =>
      match parent !! x with
      | None => Some (Raise index_error)
      | Some px =>
          if px =? x then Some (Ok (parent, x))
          else
            match parent !! px with
            | None => Some (Raise index_error)
            | Some ppx => find fuel (<[x := ppx]> parent) ppx
            end
      end
  end%nat.

(** [union]: [ra, rb = find(a), find(b)], then [parent[rb] = ra] when the
    two differ ([rb], returned by [find], is an index of the list). *)
Definition union (fuel : nat) (parent : list nat) (a b : nat)
    : option (result (list nat)) :=
  match find fuel parent a with
  | Some (Ok (parent, ra)) =>
      match find fuel parent b with
      | Some (Ok (parent, rb)) =>
          Some (Ok (if (ra =? rb)%nat then parent else <[rb := ra]> parent))
      | Some (Raise e) => Some (Raise e)
      | None => None
      end
  | Some (Raise e) => Some (Raise e)
  | None => None
  end.

(** [for ia, ib, _ in dup_edges: union(ia, ib)] *)
Fixpoint unions (fuel : nat) (parent : list nat)
    (dup_edges : list (nat * nat * string)) : option (result (list nat)) :=
  match dup_edges with
  | [] => Some (Ok parent)
  | (ia, ib, _) :: rest =>
      match union fuel parent ia ib with
      | Some (Ok parent) => unions fuel parent rest
      | other => other
      end
  end.

(** [for i in range(len(items)): clusters[find(i)].append(i)] *)
Fixpoint build (fuel : nat) (parent : list nat) (indices : list nat)
    (clusters : list (nat * list nat)) : option (result (list (nat * list nat))) :=
  match indices with
  | [] => Some (Ok clusters)
  | i :: rest =>
      match find fuel parent i with
      | Some (Ok (parent, r)) => build fuel parent rest (dd_append r i clusters)
      | Some (Raise e) => Some (Raise e)
      | None => None
      end
  end.

(** From [parent = list(range(len(items)))] to the dictionary [clusters],
    for [n] items. *)
Definition clusters_of (fuel n : nat) (dup_edges : list (nat * nat * string))
    : option (result (list (nat * list nat))) :=
  match unions fuel (seq 0 n) dup_edges with
  | Some (Ok parent) => build fuel parent (seq 0 n) []
  | Some (Raise e) => Some (Raise e)
  | None => None
  end.

(** *** Forests of parent pointers *)

(** [k] steps along the parent pointers, without any update. *)
Fixpoint walk (k : nat) (parent : list nat) (x : nat) : nat :=
  match k with
  | O => x
  | S k => walk k parent (default x (parent !! x))
  end.

Definition is_root (parent : list nat) (r : nat) : Prop := parent !! r = Some r.

Definition root_of (parent : list nat) (x r : nat) : Prop :=
  ∃ k, walk k parent x = r ∧ is_root parent r.

(** Every index points to an index, and reaches a root. *)
Definition forest (parent : list nat) : Prop :=
  ∀ x, (x < length parent)%nat →
       (∃ p, parent !! x = Some p ∧ (p < length parent)%nat)
       ∧ ∃ r, root_of parent x r.

(** The two items joined by an edge, and being joined by a chain of
    edges. *)
Definition joined (dup_edges : list (nat * nat * string)) (a b : nat) : Prop :=
  ∃ reason, (a, b, reason) ∈ dup_edges.

Definition connected (dup_edges : list (nat * nat * string)) : nat → nat → Prop :=
  rtsc (joined dup_edges).

Definition same_root (parent : list nat) (x y : nat) : Prop :=
  ∃ r, root_of parent x r ∧ root_of parent y r.

Lemma walk_root k parent r : is_root parent r → walk k parent r = r.
Proof.
  intros Hr. induction k as [| k IH]; [reflexivity|].
  simpl. unfold is_root in Hr. rewrite Hr. exact IH.
Qed.

Lemma walk_add j k parent x :
  walk (j + k) parent x = walk k parent (walk j parent x).
Proof.
  revert x. induction j as [| j IH]; intros x; [reflexivity|].
  simpl. apply IH.
Qed.

Lemma root_of_unique parent x r r' :
  root_of parent x r → root_of parent x r' → r = r'.
Proof.
  intros (k & Hk & Hr) (k' & Hk' & Hr').
  assert (E : walk (k + k') parent x = walk (k' + k) parent x)
    by (f_equal; lia).
  rewrite !walk_add, Hk, Hk' in E.
  now rewrite (walk_root k' parent r Hr), (walk_root k parent r' Hr') in E.
Qed.

Lemma root_of_root parent r : is_root parent r → root_of parent r r.
Proof. intros Hr. now exists 0%nat. Qed.

Lemma root_of_step parent x p r :
  parent !! x = Some p → root_of parent p r → root_of parent x r.
Proof.
  intros Hx (k & Hk & Hr). exists (S k). simpl. rewrite Hx. now split.
Qed.

Lemma root_of_step_inv parent x p r :
  parent !! x = Some p → root_of parent x r → root_of parent p r.
Proof.
  intros Hx (k & Hk & Hr). destruct k as [| k].
  - simpl in Hk. subst x. unfold is_root in Hr.
    assert (p = r) as -> by congruence. now apply root_of_root.
  - simpl in Hk. rewrite Hx in Hk. now exists k.
Qed.

Lemma walk_bound k parent x :
  forest parent → (x < length parent)%nat → (walk k parent x < length parent)%nat.
Proof.
  intros Hf. revert x. induction k as [| k IH]; intros x Hx; [exact Hx|].
  simpl. destruct (Hf x Hx) as [(p & Hp & Hlt) _]. rewrite Hp. simpl.
  now apply IH.
Qed.

(** *** Path halving keeps the roots *)

Section Halving.
Variables (parent : list nat) (x px ppx : nat).
Hypothesis Hx : parent !! x = Some px.
Hypothesis Hne : px ≠ x.
Hypothesis Hpx : parent !! px = Some ppx.

Lemma halve_lookup_x : <[x := ppx]> parent !! x = Some ppx.
Proof.
  rewrite list_lookup_insert, decide_True; [reflexivity|].
  split; [reflexivity | now apply lookup_lt_Some in Hx].
Qed.

Lemma halve_is_root r : is_root parent r → is_root (<[x := ppx]> parent) r.
Proof.
  unfold is_root. intros Hr. rewrite list_lookup_insert_ne; [exact Hr|].
  intros ->. congruence.
Qed.

Lemma halve_walk k :
  ∀ y r, walk k parent y = r → is_root parent r →
         ∃ k', (k' <= k)%nat ∧ walk k' (<[x := ppx]> parent) y = r.
Proof.
  induction k as [k IH] using lt_wf_ind. intros y r Hk Hr.
  destruct k as [| k0]; [exists 0%nat; split; [lia | exact Hk]|].
  destruct (decide (y = x)) as [Hyx | Hy].
  - subst y. simpl in Hk. rewrite Hx in Hk. simpl in Hk.
    destruct k0 as [| k1].
    + simpl in Hk. unfold is_root in Hr.
      assert (Hppx : ppx = r) by congruence.
      exists 1%nat. split; [lia|]. simpl. rewrite halve_lookup_x. exact Hppx.
    + simpl in Hk. rewrite Hpx in Hk. simpl in Hk.
      destruct (IH k1 ltac:(lia) ppx r Hk Hr) as (k' & Hle & Hk').
      exists (S k'). split; [lia|]. simpl. now rewrite halve_lookup_x.
  - simpl in Hk.
    destruct (IH k0 ltac:(lia) _ r Hk Hr) as (k' & Hle & Hk').
    exists (S k'). split; [lia|]. simpl.
    rewrite list_lookup_insert_ne by congruence. exact Hk'.
Qed.

Lemma halve_root_of y r :
  root_of parent y r → root_of (<[x := ppx]> parent) y r.
Proof.
  intros (k & Hk & Hr). destruct (halve_walk k y r Hk Hr) as (k' & _ & Hk').
  exists k'. split; [exact Hk' | now apply halve_is_root].
Qed.

Lemma halve_forest : forest parent → forest (<[x := ppx]> parent).
Proof.
  intros Hf y Hy. rewrite length_insert in Hy |- *.
  destruct (Hf y Hy) as [(p & Hp & Hlt) (r & Hr)]. split.
  - destruct (decide (y = x)) as [Hyx | Hyx].
    + subst y. exists ppx. split; [apply halve_lookup_x|].
      assert (Hpxlt : (px < length parent)%nat) by now apply lookup_lt_Some in Hpx.
      destruct (Hf px Hpxlt) as [(p' & Hp' & Hlt') _]. congruence.
    + exists p. split; [| exact Hlt].
      rewrite list_lookup_insert_ne by congruence. exact Hp.
  - exists r. now apply halve_root_of.
Qed.

End Halving.

(** [find] returns the root, whatever fuel above the length of the walk
    it is given, and leaves every index with the root it had. *)
Lemma find_spec k :
  ∀ parent x r,
    forest parent → (x < length parent)%nat →
    walk k parent x = r → is_root parent r →
    ∃ parent',
      (∀ fuel, (k < fuel)%nat → find fuel parent x = Some (Ok (parent', r)))
      ∧ forest parent' ∧ length parent' = length parent
      ∧ ∀ y r', root_of parent y r' → root_of parent' y r'.
Proof.
  induction k as [k IH] using lt_wf_ind. intros parent x r Hf Hx Hk Hr.
  destruct (Hf x Hx) as [(px & Hpx & Hpxlt) _].
  destruct (decide (px = x)) as [-> | Hne].
  - assert (r = x) as ->.
    { rewrite <- Hk. now apply walk_root. }
    exists parent. split; [| auto].
    intros [| fuel] Hfuel; [lia|]. simpl. rewrite Hpx, Nat.eqb_refl. reflexivity.
  - destruct (Hf px Hpxlt) as [(ppx & Hppx & Hppxlt) _].
    assert (Hk2 : ∃ k2, (k2 < k)%nat ∧ walk k2 parent ppx = r).
    { destruct k as [| [| k1]].
      - simpl in Hk. subst x. unfold is_root in Hr. congruence.
      - simpl in Hk. rewrite Hpx in Hk. simpl in Hk. subst px.
        unfold is_root in Hr. exists 0%nat. split; [lia|]. simpl. congruence.
      - simpl in Hk. rewrite Hpx in Hk. simpl in Hk. rewrite Hppx in Hk.
        exists k1. split; [lia | exact Hk]. }
    destruct Hk2 as (k2 & Hlt2 & Hk2).
    destruct (halve_walk parent x px ppx Hpx Hne Hppx k2 ppx r Hk2 Hr)
      as (k3 & Hle3 & Hk3).
    pose proof (halve_forest parent x px ppx Hpx Hne Hppx Hf) as Hf'.
    destruct (IH k3 ltac:(lia) (<[x := ppx]> parent) ppx r Hf'
                ltac:(now rewrite length_insert) Hk3
                (halve_is_root parent x px ppx Hpx Hne r Hr))
      as (parent' & Hfind & Hf'' & Hlen & Hroots).
    exists parent'. split; [| split; [exact Hf'' | split]].
    + intros [| fuel] Hfuel; [lia|]. simpl. rewrite Hpx.
      apply Nat.eqb_neq in Hne. rewrite Hne, Hppx. apply Hfind. lia.
    + now rewrite Hlen, length_insert.
    + intros y r' Hy. apply Hroots.
      now apply (halve_root_of parent x px ppx Hpx).
Qed.

(** *** Linking two roots *)

Section Link.
Variables (parent : list nat) (ra rb : nat).
Hypothesis Hra : is_root parent ra.
Hypothesis Hrb : is_root parent rb.
Hypothesis Hne : ra ≠ rb.

Lemma link_lookup_rb : <[rb := ra]> parent !! rb = Some ra.
Proof.
  rewrite list_lookup_insert, decide_True; [reflexivity|].
  split; [reflexivity | now apply lookup_lt_Some in Hrb].
Qed.

Lemma link_is_root r : is_root parent r → r ≠ rb → is_root (<[rb := ra]> parent) r.
Proof.
  unfold is_root. intros Hr Hn. now rewrite list_lookup_insert_ne by congruence.
Qed.

Lemma link_walk_other k :
  ∀ y r, walk k parent y = r → is_root parent r → r ≠ rb →
         walk k (<[rb := ra]> parent) y = r.
Proof.
  induction k as [| k IH]; intros y r Hk Hr Hn; [exact Hk|].
  assert (Hy : y ≠ rb).
  { intros E. subst y. rewrite (walk_root _ _ _ Hrb) in Hk. congruence. }
  simpl in Hk |- *. rewrite list_lookup_insert_ne by congruence.
  now apply IH.
Qed.

Lemma link_root_other y r :
  root_of parent y r → r ≠ rb → root_of (<[rb := ra]> parent) y r.
Proof.
  intros (k & Hk & Hr) Hn. exists k.
  split; [now apply link_walk_other | now apply link_is_root].
Qed.

Lemma link_root_rb y : root_of parent y rb → root_of (<[rb := ra]> parent) y ra.
Proof.
  intros (k & Hk & _). revert y Hk. induction k as [| k IH]; intros y Hk.
  - simpl in Hk. subst y. exists 1%nat. simpl. rewrite link_lookup_rb.
    split; [reflexivity | now apply link_is_root].
  - destruct (decide (y = rb)) as [E | Hy].
    + subst y. exists 1%nat. simpl. rewrite link_lookup_rb.
      split; [reflexivity | now apply link_is_root].
    + simpl in Hk. destruct (IH _ Hk) as (k' & Hk' & Hr').
      exists (S k'). simpl. rewrite list_lookup_insert_ne by congruence.
      now split.
Qed.

Lemma link_forest : forest parent → forest (<[rb := ra]> parent).
Proof.
  intros Hf y Hy. rewrite length_insert in Hy |- *.
  destruct (Hf y Hy) as [(p & Hp & Hlt) (r & Hr)]. split.
  - destruct (decide (y = rb)) as [E | Hyb].
    + subst y. exists ra. split; [apply link_lookup_rb|].
      now apply lookup_lt_Some in Hra.
    + exists p. split; [| exact Hlt].
      now rewrite list_lookup_insert_ne by congruence.
  - destruct (decide (r = rb)) as [E | Hrne].
    + subst r. exists ra. now apply link_root_rb.
    + exists r. now apply link_root_other.
Qed.

End Link.

(** *** Having the same root *)

Lemma same_root_refl parent x :
  forest parent → (x < length parent)%nat → same_root parent x x.
Proof. intros Hf Hx. destruct (Hf x Hx) as [_ (r & Hr)]. now exists r. Qed.

Lemma same_root_sym parent x y : same_root parent x y → same_root parent y x.
Proof. intros (r & Hx & Hy). now exists r. Qed.

Lemma same_root_trans parent x y z :
  same_root parent x y → same_root parent y z → same_root parent x z.
Proof.
  intros (r & Hx & Hy) (r' & Hy' & Hz).
  assert (r = r') as -> by (eapply root_of_unique; eauto). now exists r'.
Qed.

(** A state reached by operations that keep the roots has the same
    classes. *)
Lemma same_root_preserved parent parent' :
  forest parent → length parent' = length parent →
  (∀ y r, root_of parent y r → root_of parent' y r) →
  ∀ i j, (i < length parent)%nat → (j < length parent)%nat →
         same_root parent' i j ↔ same_root parent i j.
Proof.
  intros Hf Hlen Hroots i j Hi Hj. split.
  - intros (r & Hri & Hrj).
    destruct (Hf i Hi) as [_ (ri & Hi')]. destruct (Hf j Hj) as [_ (rj & Hj')].
    assert (ri = r) as ->
      by (apply (root_of_unique parent' i); [now apply Hroots | exact Hri]).
    assert (rj = r) as ->
      by (apply (root_of_unique parent' j); [now apply Hroots | exact Hrj]).
    now exists r.
  - intros (r & Hri & Hrj). exists r. auto.
Qed.

(** *** Chains of edges *)

Lemma connected_mono E e i j :
  connected E i j → connected (E ++ [e]) i j.
Proof.
  unfold connected. apply (rtsc_congruence (λ x, x)).
  intros x y (reason & Hin). exists reason. apply elem_of_app. now left.
Qed.

Lemma connected_snoc E a b reason i j :
  connected (E ++ [(a, b, reason)]) i j ↔
  connected E i j
  ∨ (connected E i a ∧ connected E b j)
  ∨ (connected E i b ∧ connected E a j).
Proof.
  split.
  - unfold connected at 1. intros H.
    induction H as [x | x y z Hstep _ IH]; [left; reflexivity|].
    assert (Hxy : connected E x y ∨ (x = a ∧ y = b) ∨ (x = b ∧ y = a)).
    { destruct Hstep as [(r & Hin) | (r & Hin)];
        apply elem_of_app in Hin as [Hin | Hin].
      - left. apply rtsc_lr. now exists r.
      - apply list_elem_of_singleton in Hin. injection Hin as -> -> _. auto.
      - left. apply rtsc_rl. now exists r.
      - apply list_elem_of_singleton in Hin. injection Hin as -> -> _. auto. }
    unfold connected in *.
    destruct Hxy as [Hxy | [[-> ->] | [-> ->]]].
    + destruct IH as [IH | [[IH1 IH2] | [IH1 IH2]]].
      * left. now transitivity y.
      * right. left. split; [now transitivity y | assumption].
      * right. right. split; [now transitivity y | assumption].
    + destruct IH as [IH | [[IH1 IH2] | [IH1 IH2]]].
      * right. left. split; [reflexivity | assumption].
      * left. transitivity b; [now symmetry | assumption].
      * left. assumption.
    + destruct IH as [IH | [[IH1 IH2] | [IH1 IH2]]].
      * right. right. split; [reflexivity | assumption].
      * left. assumption.
      * left. transitivity a; [now symmetry | assumption].
  - assert (Hab : connected (E ++ [(a, b, reason)]) a b).
    { apply rtsc_lr. exists reason. apply elem_of_app. right.
      apply list_elem_of_here. }
    intros [H | [[H1 H2] | [H1 H2]]].
    + now apply connected_mono.
    + apply (connected_mono _ (a, b, reason)) in H1, H2. unfold connected in *.
      transitivity a; [assumption|]. transitivity b; assumption.
    + apply (connected_mono _ (a, b, reason)) in H1, H2. unfold connected in *.
      transitivity b; [assumption|]. transitivity a; [now symmetry | assumption].
Qed.

(** *** [union], the loop over the edges, and the loop over the indices *)

Lemma elem_of_concat {A} (x : A) (ls : list (list A)) :
  x ∈ concat ls ↔ ∃ l, x ∈ l ∧ l ∈ ls.
Proof.
  induction ls as [| l0 ls IH]; simpl.
  - split; [intros H; now apply elem_of_nil in H|].
    intros (l & _ & H). now apply elem_of_nil in H.
  - rewrite elem_of_app, IH. split.
    + intros [H | (l & Hx & Hl)].
      * exists l0. split; [assumption | apply list_elem_of_here].
      * exists l. split; [assumption | now apply list_elem_of_further].
    + intros (l & Hx & Hl). apply elem_of_cons in Hl as [-> | Hl]; eauto.
Qed.

Lemma NoDup_fst_functional {A B} (l : list (A * B)) k v v' :
  NoDup l.*1 → (k, v) ∈ l → (k, v') ∈ l → v = v'.
Proof.
  induction l as [| [k0 v0] l IH]; intros Hnd Hv Hv'.
  - now apply elem_of_nil in Hv.
  - rewrite fmap_cons in Hnd. apply NoDup_cons in Hnd as [Hk Hnd]. simpl in Hk.
    apply elem_of_cons in Hv as [Hv | Hv], Hv' as [Hv' | Hv'].
    + congruence.
    + exfalso. injection Hv as -> ->. apply Hk.
      apply list_elem_of_fmap. now exists (k0, v').
    + exfalso. injection Hv' as -> ->. apply Hk.
      apply list_elem_of_fmap. now exists (k0, v).
    + now apply IH.
Qed.

Lemma roots_reflect parent parent' y r :
  forest parent → (y < length parent)%nat →
  (∀ y r, root_of parent y r → root_of parent' y r) →
  root_of parent' y r → root_of parent y r.
Proof.
  intros Hf Hy Hroots Hr. destruct (Hf y Hy) as [_ (r0 & Hr0)].
  assert (r0 = r) as <-
    by (apply (root_of_unique parent' y); [now apply Hroots | exact Hr]).
  exact Hr0.
Qed.

Lemma union_spec parent a b :
  forest parent → (a < length parent)%nat → (b < length parent)%nat →
  ∃ F parent',
    (∀ fuel, (F <= fuel)%nat → union fuel parent a b = Some (Ok parent'))
    ∧ forest parent' ∧ length parent' = length parent
    ∧ ∀ i j, (i < length parent)%nat → (j < length parent)%nat →
        (same_root parent' i j ↔
         same_root parent i j
         ∨ (same_root parent i a ∧ same_root parent b j)
         ∨ (same_root parent i b ∧ same_root parent a j)).
Proof.
  intros Hf Ha Hb.
  destruct (Hf a Ha) as [_ (ra & ka & Hka & Hra)].
  destruct (find_spec ka parent a ra Hf Ha Hka Hra)
    as (parent1 & Hfind1 & Hf1 & Hlen1 & Hroots1).
  assert (Hb1 : (b < length parent1)%nat) by lia.
  destruct (Hf1 b Hb1) as [_ (rb & kb & Hkb & Hrb)].
  destruct (find_spec kb parent1 b rb Hf1 Hb1 Hkb Hrb)
    as (parent2 & Hfind2 & Hf2 & Hlen2 & Hroots2).
  assert (Hroots : ∀ y r, root_of parent y r → root_of parent2 y r) by auto.
  assert (Hlen : length parent2 = length parent) by lia.
  pose proof (same_root_preserved parent parent2 Hf Hlen Hroots) as Hsame.
  assert (Hra2 : root_of parent2 a ra) by (apply Hroots; now exists ka).
  assert (Hrb2 : root_of parent2 b rb) by (apply Hroots2; now exists kb).
  assert (Hira : is_root parent2 ra) by now destruct Hra2 as (? & _ & ?).
  assert (Hirb : is_root parent2 rb) by now destruct Hrb2 as (? & _ & ?).
  assert (Hfuel : ∀ fuel, (S (Nat.max ka kb) <= fuel)%nat →
            union fuel parent a b
            = Some (Ok (if (ra =? rb)%nat then parent2 else <[rb := ra]> parent2))).
  { intros fuel Hfuel. unfold union.
    rewrite (Hfind1 fuel) by lia. now rewrite (Hfind2 fuel) by lia. }
  exists (S (Nat.max ka kb)).
  destruct (Nat.eqb_spec ra rb) as [E | E].
  - exists parent2. split; [exact Hfuel|].
    split; [exact Hf2|]. split; [exact Hlen|]. intros i j Hi Hj.
    rewrite (Hsame i j Hi Hj).
    assert (Hab : same_root parent a b).
    { apply (proj1 (Hsame a b Ha Hb)). exists ra.
      split; [exact Hra2 | rewrite E; exact Hrb2]. }
    split; [now left|]. intros [H | [[H1 H2] | [H1 H2]]]; [assumption | |].
    + eapply same_root_trans; [exact H1|].
      eapply same_root_trans; [exact Hab | exact H2].
    + eapply same_root_trans; [exact H1|].
      eapply same_root_trans; [apply same_root_sym; exact Hab | exact H2].
  - exists (<[rb := ra]> parent2). split; [exact Hfuel|].
    split; [now apply link_forest|]. split; [now rewrite length_insert|].
    intros i j Hi Hj.
    rewrite <- (Hsame i j Hi Hj), <- (Hsame i a Hi Ha), <- (Hsame b j Hb Hj),
      <- (Hsame i b Hi Hb), <- (Hsame a j Ha Hj).
    assert (Hnew : ∀ y r, root_of parent2 y r →
              root_of (<[rb := ra]> parent2) y (if decide (r = rb) then ra else r)).
    { intros y r Hr. destruct (decide (r = rb)) as [-> | Hn].
      - now apply link_root_rb.
      - now apply link_root_other. }
    split.
    + intros (r & Hri & Hrj).
      destruct (Hf2 i ltac:(lia)) as [_ (ri & Hi2)].
      destruct (Hf2 j ltac:(lia)) as [_ (rj & Hj2)].
      pose proof (root_of_unique _ _ _ _ (Hnew i ri Hi2) Hri) as Ei.
      pose proof (root_of_unique _ _ _ _ (Hnew j rj Hj2) Hrj) as Ej.
      destruct (decide (ri = rb)) as [-> | Hni], (decide (rj = rb)) as [-> | Hnj].
      * left. now exists rb.
      * right. right. split; [now exists rb|]. exists rj.
        split; [| exact Hj2]. now replace rj with ra by congruence.
      * right. left. split; [| now exists rb]. exists ri.
        split; [exact Hi2|]. now replace ri with ra by congruence.
      * left. exists ri. split; [exact Hi2|]. now replace ri with rj by congruence.
    + assert (Hto : ∀ y, root_of parent2 y ra ∨ root_of parent2 y rb →
                root_of (<[rb := ra]> parent2) y ra).
      { intros y [Hy | Hy].
        - apply link_root_other; auto.
        - now apply link_root_rb. }
      assert (Ha_ra : ∀ y, same_root parent2 y a → root_of parent2 y ra).
      { intros y (r & Hy & Hr).
        now rewrite (root_of_unique _ _ _ _ Hr Hra2) in Hy. }
      assert (Hb_rb : ∀ y, same_root parent2 y b → root_of parent2 y rb).
      { intros y (r & Hy & Hr).
        now rewrite (root_of_unique _ _ _ _ Hr Hrb2) in Hy. }
      intros [(r & Hri & Hrj) | [[H1 H2] | [H1 H2]]].
      * exists (if decide (r = rb) then ra else r). split; now apply Hnew.
      * exists ra. split; apply Hto.
        -- left. now apply Ha_ra.
        -- right. now apply Hb_rb, same_root_sym.
      * exists ra. split; apply Hto.
        -- right. now apply Hb_rb.
        -- left. now apply Ha_ra, same_root_sym.
Qed.

Section Run.
Variable n : nat.

Lemma unions_spec dup_edges :
  ∀ done parent,
    forest parent → length parent = n →
    (∀ e, e ∈ dup_edges → (e.1.1 < n)%nat ∧ (e.1.2 < n)%nat) →
    (∀ i j, (i < n)%nat → (j < n)%nat →
            same_root parent i j ↔ connected done i j) →
    ∃ F parent',
      (∀ fuel, (F <= fuel)%nat → unions fuel parent dup_edges = Some (Ok parent'))
      ∧ forest parent' ∧ length parent' = n
      ∧ ∀ i j, (i < n)%nat → (j < n)%nat →
               same_root parent' i j ↔ connected (done ++ dup_edges) i j.
Proof.
  induction dup_edges as [| [[a b] reason] rest IH];
    intros done parent Hf Hlen Hval Hinv.
  - exists 0%nat, parent. rewrite app_nil_r. auto.
  - destruct (Hval (a, b, reason) (list_elem_of_here _ _)) as [Ha Hb].
    simpl in Ha, Hb.
    destruct (union_spec parent a b Hf ltac:(lia) ltac:(lia))
      as (F1 & parent1 & Hu & Hf1 & Hlen1 & Hsame1).
    destruct (IH (done ++ [(a, b, reason)]) parent1 Hf1 ltac:(lia))
      as (F2 & parent2 & Hrest & Hf2 & Hlen2 & Hsame2).
    + intros e He. apply Hval. now apply list_elem_of_further.
    + intros i j Hi Hj. rewrite Hsame1 by lia. rewrite connected_snoc.
      rewrite !Hinv by assumption. reflexivity.
    + exists (Nat.max F1 F2), parent2. split; [| split; [exact Hf2 | split]].
      * intros fuel Hfuel. simpl. rewrite (Hu fuel) by lia. apply Hrest. lia.
      * exact Hlen2.
      * intros i j Hi Hj. rewrite (Hsame2 i j Hi Hj), <- app_assoc. reflexivity.
Qed.

Lemma build_spec indices :
  ∀ parent clusters,
    forest parent → length parent = n →
    (∀ i, i ∈ indices → (i < n)%nat) →
    NoDup clusters.*1 →
    (∀ r l i, (r, l) ∈ clusters → i ∈ l → (i < n)%nat ∧ root_of parent i r) →
    ∃ F result,
      (∀ fuel, (F <= fuel)%nat →
               build fuel parent indices clusters = Some (Ok result))
      ∧ NoDup result.*1
      ∧ concat result.*2 ≡ₚ concat clusters.*2 ++ indices
      ∧ ∀ r l i, (r, l) ∈ result → i ∈ l → (i < n)%nat ∧ root_of parent i r.
Proof.
  induction indices as [| x rest IH]; intros parent clusters Hf Hlen Hval Hnd Hmem.
  - exists 0%nat, clusters. rewrite app_nil_r. auto.
  - assert (Hx : (x < n)%nat) by apply Hval, list_elem_of_here.
    destruct (Hf x ltac:(lia)) as [_ (r & k & Hk & Hr)].
    destruct (find_spec k parent x r Hf ltac:(lia) Hk Hr)
      as (parent1 & Hfind & Hf1 & Hlen1 & Hroots).
    destruct (IH parent1 (dd_append r x clusters) Hf1 ltac:(lia))
      as (F & result & Hbuild & Hnd' & Hperm & Hmem').
    + intros i Hi. apply Hval. now apply list_elem_of_further.
    + now apply dd_append_NoDup.
    + intros r' l i Hin Hi.
      apply dd_append_elem in Hin; [| exact Hnd].
      destruct Hin as [[_ Hin] | [-> [(l0 & Hin & ->) | [_ ->]]]].
      * destruct (Hmem r' l i Hin Hi) as [Hlt Hro]. auto.
      * apply elem_of_app in Hi as [Hi | Hi].
        -- destruct (Hmem r l0 i Hin Hi) as [Hlt Hro]. auto.
        -- apply list_elem_of_singleton in Hi as ->. split; [exact Hx|].
           apply Hroots. now exists k.
      * apply list_elem_of_singleton in Hi as ->. split; [exact Hx|].
        apply Hroots. now exists k.
    + exists (Nat.max (S k) F), result.
      split; [| split; [exact Hnd' | split]].
      * intros fuel Hfuel. simpl. rewrite (Hfind fuel) by lia. apply Hbuild. lia.
      * rewrite Hperm, dd_append_concat, <- app_assoc. reflexivity.
      * intros r' l i Hin Hi. destruct (Hmem' r' l i Hin Hi) as [Hlt Hro].
        split; [exact Hlt|].
        apply (roots_reflect parent parent1); auto. lia.
Qed.

Lemma seq_is_root x : (x < n)%nat → is_root (seq 0 n) x.
Proof. intros Hx. unfold is_root. now rewrite lookup_seq_lt. Qed.

Lemma seq_forest : forest (seq 0 n).
Proof.
  intros x Hx. rewrite length_seq in Hx. split.
  - exists x. rewrite length_seq. split; [now apply seq_is_root | exact Hx].
  - exists x. now apply root_of_root, seq_is_root.
Qed.

Lemma seq_same_root i j :
  (i < n)%nat → (j < n)%nat → same_root (seq 0 n) i j ↔ connected [] i j.
Proof.
  intros Hi Hj. split.
  - intros (r & Hri & Hrj).
    pose proof (root_of_unique _ _ _ _ Hri (root_of_root _ _ (seq_is_root i Hi))).
    pose proof (root_of_unique _ _ _ _ Hrj (root_of_root _ _ (seq_is_root j Hj))).
    subst. reflexivity.
  - intros H. assert (i = j) as <-.
    { induction H as [| x y z [(r & Hin) | (r & Hin)] _ _]; [reflexivity | |];
        now apply elem_of_nil in Hin. }
    apply same_root_refl; [apply seq_forest | now rewrite length_seq].
Qed.

Lemma build_nonempty fuel indices :
  ∀ parent clusters result,
    build fuel parent indices clusters = Some (Ok result) →
    Forall (λ c : nat * list nat, c.2 ≠ []) clusters →
    Forall (λ c : nat * list nat, c.2 ≠ []) result.
Proof.
  induction indices as [| x rest IH]; intros parent clusters result; simpl.
  - intros [= <-]. auto.
  - destruct (find fuel parent x) as [[[parent1 r] | e] |]; try discriminate.
    intros Hb Hne. apply (IH _ _ _ Hb).
    clear Hb IH. induction Hne as [| [k0 l0] d Hl0 Hd IHd]; simpl.
    + repeat constructor. discriminate.
    + destruct (decide (k0 = r)); constructor; simpl; auto.
      now destruct l0.
Qed.

(** The clusters are the connected components of the edges. *)
Lemma clusters_spec (dup_edges : list (nat * nat * string)) :
  (∀ e, e ∈ dup_edges → (e.1.1 < n)%nat ∧ (e.1.2 < n)%nat) →
  ∃ fuel0 clusters,
    (∀ fuel, (fuel0 <= fuel)%nat →
             clusters_of fuel n dup_edges = Some (Ok clusters))
    ∧ NoDup clusters.*1
    ∧ Forall (λ c : nat * list nat, c.2 ≠ []) clusters
    ∧ concat clusters.*2 ≡ₚ seq 0 n
    ∧ ∀ i j, (i < n)%nat → (j < n)%nat →
             ((∃ c, c ∈ clusters ∧ i ∈ c.2 ∧ j ∈ c.2) ↔ connected dup_edges i j).
Proof.
  intros Hval.
  destruct (unions_spec dup_edges [] (seq 0 n) seq_forest (length_seq n 0) Hval
              seq_same_root)
    as (F1 & parent & Hunions & Hf & Hlen & Hsame).
  destruct (build_spec (seq 0 n) parent [] Hf Hlen)
    as (F2 & clusters & Hbuild & Hnd & Hperm & Hmem).
  { intros i Hi. apply elem_of_seq in Hi. lia. }
  { constructor. }
  { intros r l i Hin. now apply elem_of_nil in Hin. }
  exists (Nat.max F1 F2), clusters.
  split; [| split; [exact Hnd | split; [| split; [exact Hperm|]]]].
  - intros fuel Hfuel. unfold clusters_of. rewrite (Hunions fuel) by lia.
    apply Hbuild. lia.
  - apply (build_nonempty (Nat.max F1 F2) (seq 0 n) parent []);
      [apply Hbuild; lia | constructor].
  - intros i j Hi Hj. simpl in Hsame. rewrite <- (Hsame i j Hi Hj). split.
    + intros ([r l] & Hc & Hil & Hjl). simpl in Hil, Hjl.
      exists r. split; [now apply (Hmem r l i) | now apply (Hmem r l j)].
    + intros (r & Hri & Hrj).
      assert (Hfindc : ∀ x, (x < n)%nat → root_of parent x r →
                ∃ l, (r, l) ∈ clusters ∧ x ∈ l).
      { intros x Hx Hr.
        assert (Hin : x ∈ concat clusters.*2).
        { rewrite Hperm. apply elem_of_seq. lia. }
        apply elem_of_concat in Hin as (l & Hxl & Hl).
        apply list_elem_of_fmap in Hl as ([r' l'] & -> & Hc). simpl in Hxl.
        destruct (Hmem r' l' x Hc Hxl) as [_ Hr'].
        assert (r' = r) as -> by (eapply root_of_unique; eauto). eauto. }
      destruct (Hfindc i Hi Hri) as (li & Hci & Hili).
      destruct (Hfindc j Hj Hrj) as (lj & Hcj & Hjlj).
      assert (li = lj) as -> by (eapply NoDup_fst_functional; eauto).
      exists (r, lj). auto.
Qed.

(** X29.  For edges between indices of the list, the union-find of [main]
    terminates: given enough fuel the model returns the clusters, and these
    are the connected components of the edges: the keys are distinct, no
    cluster is empty, every index below [n] lies in exactly one cluster, and
    two indices lie in the same cluster exactly when a chain of edges joins
    them. *)
Theorem clusters_are_components (dup_edges : list (nat * nat * string)) :
  (∀ e, e ∈ dup_edges → (e.1.1 < n)%nat ∧ (e.1.2 < n)%nat) →
  ∃ fuel0 clusters,
    (∀ fuel, (fuel0 <= fuel)%nat →
             clusters_of fuel n dup_edges = Some (Ok clusters))
    ∧ NoDup clusters.*1
    ∧ Forall (λ c : nat * list nat, c.2 ≠ []) clusters
    ∧ concat clusters.*2 ≡ₚ seq 0 n
    ∧ ∀ i j, (i < n)%nat → (j < n)%nat →
             ((∃ c, c ∈ clusters ∧ i ∈ c.2 ∧ j ∈ c.2) ↔ connected dup_edges i j).
Proof. exact (clusters_spec dup_edges). Qed.

End Run.

Example clusters_run :
  clusters_of 5 3 [(0%nat, 2%nat, "同域高相似"); (1%nat, 2%nat, "同域高相似")]
  = Some (Ok [(1%nat, [0; 1; 2]%nat)])
  ∧ clusters_of 5 4 [(0%nat, 2%nat, "同域高相似")]
    = Some (Ok [(0%nat, [0; 2]%nat); (1%nat, [1%nat]); (3%nat, [3%nat])]).
Proof. split; reflexivity. Qed.

Lemma clusters_are_components_witness :
  ∃ fuel0 clusters,
    (∀ fuel, (fuel0 <= fuel)%nat →
             clusters_of fuel 4 [(0%nat, 2%nat, "同域高相似")] = Some (Ok clusters))
    ∧ NoDup clusters.*1
    ∧ Forall (λ c : nat * list nat, c.2 ≠ []) clusters
    ∧ concat clusters.*2 ≡ₚ seq 0 4
    ∧ ∀ i j, (i < 4)%nat → (j < 4)%nat →
             ((∃ c, c ∈ clusters ∧ i ∈ c.2 ∧ j ∈ c.2)
              ↔ connected [(0%nat, 2%nat, "同域高相似")] i j).
Proof.
  apply (clusters_are_components 4 [(0%nat, 2%nat, "同域高相似")]).
  intros e He. apply list_elem_of_singleton in He as ->. simpl. lia.
Defined.

End Clustering.

(* ===================================================================== *)
(** ** Which item of a cluster is kept: the selection loop of [main]
       (src/post_process_dedup.py) *)
(* ===================================================================== *)

Module Selection.
Import PyStr StableSort BatchDedup.

(** A row of the audit table. *)
Record dropped_row : Type := mkRow {
  kept_id : string;
  kept_title : string;
  dropped_id : string;
  dropped_title : string;
  reason : string
}.

(** The three branches on [keep_pol]: whether [x], which stood before [y],
    stays in front of it.  Dates are compared as strings, that is by code
    points, which is the order of their UTF-8 bytes. *)
Definition policy_before (keep_pol : string) (x y : Item) : bool :=
  if String.eqb keep_pol "latest" then String.leb (date y) (date x)
  else if String.eqb keep_pol "longest" then
    (py_len (norm y) <=? py_len (norm x))%nat
  else String.leb (date x) (date y).

(** [items.index(v)]: the first position of an item equal to [v]. *)
Fixpoint index_of (v : Item) (l : list Item) : result nat :=
  match l with
  | [] => Raise (ValueError "x is not in list")
  | x :: r =>
      if decide (x = v) then Ok 0%nat
      else i ← index_of v r; Ok (S i)
  end.

(** A comprehension whose body may raise. *)
Fixpoint for_each {A B : Type} (f : A → result B) (l : list A) : result (list B) :=
  match l with
  | [] => Ok []
  | x :: r => y ← f x; ys ← for_each f r; Ok (y :: ys)
  end.

Section Select.

Variable items : list Item.
Variable dup_edges : list (nat * nat * string).
Variable keep_pol : string.

Definition item_at (i : nat) : result Item :=
  match items !! i with
  | Some it => Ok it
  | None => Raise (IndexError "list index out of range")
  end.

(** The inner [for ia, ib, r in dup_edges] with its [break]: the reason of
    the first edge between [keep_idx] and [i], else the empty string. *)
Definition edge_reason (keep_idx i : nat) : string :=
  match List.find
          (λ e : nat * nat * string,
             ((e.1.1 =? keep_idx) && (e.1.2 =? i))%nat
             || ((e.1.2 =? keep_idx) && (e.1.1 =? i))%nat
             || ((e.1.1 =? i) && (e.1.2 =? keep_idx))%nat)
          dup_edges with
  | Some e => e.2
  | None => ""
  end.

(** The row appended for a dropped index. *)
Definition audit_row (keep_idx i : nat) : result dropped_row :=
  K ← item_at keep_idx;
  D ← item_at i;
  Ok {| kept_id := id K; kept_title := title K;
        dropped_id := id D; dropped_title := title D;
        reason := let r := edge_reason keep_idx i in
                  if String.eqb r "" then "同簇合并" else r |}.

(** One iteration of [for rid, idxs in clusters.items()]; the state is
    [(keep, dropped_rows)]. *)
Definition select_cluster (st : gset nat * list dropped_row)
    (c : nat * list nat) : result (gset nat * list dropped_row) :=
  match c.2 with
  | [i] => Ok ({[ i ]} ∪ st.1, st.2)
  | idxs =>
      grp ← for_each item_at idxs;
      match py_sort (policy_before keep_pol) grp with
      | [] => Raise (IndexError "list index out of range")
      | g0 :: _ =>
          keep_idx ← index_of g0 items;
          rows ← for_each (audit_row keep_idx)
                   (filter (λ i, i ≠ keep_idx) idxs);
          Ok ({[ keep_idx ]} ∪ st.1, st.2 ++ rows)
      end
  end.

Fixpoint select (clusters : list (nat * list nat))
    (st : gset nat * list dropped_row) : result (gset nat * list dropped_row) :=
  match clusters with
  | [] => Ok st
  | c :: rest => st ← select_cluster st c; select rest st
  end.

(** For the proofs: [k] is an index of the cluster whose item no other item of the cluster
    precedes under the policy. *)
Definition best (c : nat * list nat) (k : nat) : Prop :=
  k ∈ c.2 ∧ ∃ K, items !! k = Some K
    ∧ ∀ i I, i ∈ c.2 → items !! i = Some I → policy_before keep_pol K I = true.

Definition well_formed (c : nat * list nat) : Prop :=
  NoDup c.2 ∧ c.2 ≠ [] ∧ Forall (λ i, (i < length items)%nat) c.2.

(** [for i, it in enumerate(items): if i in keep: write it.raw] *)
Definition kept_items (keep : gset nat) : list Item :=
  (filter (λ p : nat * Item, p.1 ∈ keep) (enumerate items)).*2.

End Select.

(** From the confirmed edges to [(keep, dropped_rows)]: the union-find, then
    the selection. *)
Definition cluster_and_select (fuel : nat) (items : list Item)
    (dup_edges : list (nat * nat * string)) (keep_pol : string)
    : option (result (gset nat * list dropped_row)) :=
  match Clustering.clusters_of fuel (length items) dup_edges with
  | Some (Ok clusters) => Some (select items dup_edges keep_pol clusters (∅, []))
  | Some (Raise e) => Some (Raise e)
  | None => None
  end.

(** Sample lines: the second and third tell one story. *)
Definition line (i d t : string) : Item :=
  {| id := i; title := t; text := ""; url := ""; date := d; source_id := "";
     raw := t; norm := t; sh := 0; shing := ∅ |}.

Definition run_items : list Item :=
  [line "a" "9月20日" "other"; line "b" "9月18日" "story";
   line "c" "9月17日" "story, again"].

(** *** The order of strings *)

Lemma string_compare_refl s : String.compare s s = Eq.
Proof.
  induction s as [| c s IH]; [reflexivity|]. simpl.
  unfold Ascii.compare. now rewrite N.compare_refl.
Qed.

Lemma string_compare_trans s1 :
  ∀ s2 s3, String.compare s1 s2 ≠ Gt → String.compare s2 s3 ≠ Gt →
           String.compare s1 s3 ≠ Gt.
Proof.
  induction s1 as [| c1 s1 IH]; intros [| c2 s2] [| c3 s3]; simpl;
    try congruence.
  unfold Ascii.compare.
  destruct (N.compare_spec (N_of_ascii c1) (N_of_ascii c2)) as [E12 | L12 | G12];
    destruct (N.compare_spec (N_of_ascii c2) (N_of_ascii c3)) as [E23 | L23 | G23];
    try congruence; intros H12 H23.
  - rewrite E12, E23, N.compare_refl. now apply (IH s2).
  - rewrite E12. apply N.compare_lt_iff in L23. now rewrite L23.
  - rewrite <- E23. apply N.compare_lt_iff in L12. now rewrite L12.
  - assert (L13 : (N_of_ascii c1 < N_of_ascii c3)%N) by lia.
    apply N.compare_lt_iff in L13. now rewrite L13.
Qed.

Lemma leb_not_gt s1 s2 : String.leb s1 s2 = true ↔ String.compare s1 s2 ≠ Gt.
Proof. unfold String.leb. destruct (String.compare s1 s2); split; congruence. Qed.

Lemma string_leb_trans s1 s2 s3 :
  String.leb s1 s2 = true → String.leb s2 s3 = true → String.leb s1 s3 = true.
Proof. rewrite !leb_not_gt. apply string_compare_trans. Qed.

Lemma keep_pol_total keep_pol x y :
  policy_before keep_pol x y = true ∨ policy_before keep_pol y x = true.
Proof.
  unfold policy_before.
  destruct (String.eqb keep_pol "latest"); [apply String.leb_total|].
  destruct (String.eqb keep_pol "longest"); [| apply String.leb_total].
  rewrite !Nat.leb_le. lia.
Qed.

Lemma keep_pol_trans keep_pol x y z :
  policy_before keep_pol x y = true → policy_before keep_pol y z = true →
  policy_before keep_pol x z = true.
Proof.
  unfold policy_before.
  destruct (String.eqb keep_pol "latest").
  { intros H1 H2. now apply (string_leb_trans _ (date y)). }
  destruct (String.eqb keep_pol "longest").
  { rewrite !Nat.leb_le. lia. }
  apply string_leb_trans.
Qed.

Lemma keep_pol_refl keep_pol x : policy_before keep_pol x x = true.
Proof. now destruct (keep_pol_total keep_pol x x). Qed.

(** *** Lists of disjoint lists *)

Lemma concat_lookup {A} (x : A) (ls : list (list A)) :
  x ∈ concat ls ↔ ∃ p l, ls !! p = Some l ∧ x ∈ l.
Proof.
  induction ls as [| l0 r IH]; simpl.
  - split; [intros H; now apply elem_of_nil in H | intros (p & l & H & _); discriminate].
  - rewrite elem_of_app, IH. split.
    + intros [H | (p & l & H & Hx)]; [now exists 0%nat, l0 | now exists (S p), l].
    + intros ([| p] & l & H & Hx); simpl in H; [left; congruence | right; eauto].
Qed.

Lemma concat_disjoint {A} (ls : list (list A)) :
  NoDup (concat ls) →
  ∀ p q l l' x, ls !! p = Some l → ls !! q = Some l' → x ∈ l → x ∈ l' → p = q.
Proof.
  induction ls as [| l0 r IH]; simpl; intros Hnd p q l l' x Hp Hq Hx Hx';
    [discriminate|].
  apply NoDup_app in Hnd as (_ & Hdis & Hr).
  destruct p as [| p], q as [| q]; simpl in Hp, Hq.
  - reflexivity.
  - exfalso. apply (Hdis x); [congruence|]. apply concat_lookup. eauto.
  - exfalso. apply (Hdis x); [congruence|]. apply concat_lookup. eauto.
  - f_equal. now apply (IH Hr p q l l' x).
Qed.

Lemma concat_NoDup_each {A} (ls : list (list A)) l :
  NoDup (concat ls) → l ∈ ls → NoDup l.
Proof.
  induction ls as [| l0 r IH]; simpl; intros Hnd Hl;
    [now apply elem_of_nil in Hl|].
  apply NoDup_app in Hnd as (H0 & _ & Hr).
  apply elem_of_cons in Hl as [-> | Hl]; auto.
Qed.

Lemma filter_ne_absent (k : nat) (l : list nat) :
  k ∉ l → filter (λ i, i ≠ k) l = l.
Proof.
  induction l as [| x r IH]; intros Hk; [reflexivity|].
  apply not_elem_of_cons in Hk as [Hne Hk].
  rewrite filter_cons_True by congruence. now rewrite IH.
Qed.

Lemma filter_ne_length (k : nat) (l : list nat) :
  NoDup l → k ∈ l → (length (filter (λ i, i ≠ k) l) + 1 = length l)%nat.
Proof.
  induction l as [| x r IH]; intros Hnd Hk; [now apply elem_of_nil in Hk|].
  apply NoDup_cons in Hnd as [Hx Hr].
  destruct (decide (x = k)) as [-> | Hne].
  - rewrite filter_cons_False by tauto.
    rewrite filter_ne_absent by assumption. simpl. lia.
  - rewrite filter_cons_True by assumption.
    apply elem_of_cons in Hk as [-> | Hk]; [congruence|].
    simpl. rewrite <- (IH Hr Hk). lia.
Qed.

(** *** One cluster *)

Section SelectFacts.

Variable items : list Item.
Variable dup_edges : list (nat * nat * string).
Variable keep_pol : string.

Hypothesis items_distinct : NoDup items.

Lemma for_each_item_at idxs :
  Forall (λ i, (i < length items)%nat) idxs →
  ∃ grp, for_each (item_at items) idxs = Ok grp
         ∧ Forall2 (λ i g, items !! i = Some g) idxs grp.
Proof.
  induction 1 as [| i r Hi Hr (grp & Hg & Hall)]; cbn [for_each].
  - exists []. split; [reflexivity | constructor].
  - destruct (lookup_lt_is_Some_2 items i Hi) as [g Hgi].
    assert (Hit : item_at items i = Ok g) by (unfold item_at; now rewrite Hgi).
    exists (g :: grp). rewrite Hit. cbn [mbind result_bind]. rewrite Hg.
    split; [reflexivity | now constructor].
Qed.

Lemma index_of_lookup i v : items !! i = Some v → index_of v items = Ok i.
Proof.
  clear dup_edges keep_pol. revert i. induction items as [| x r IH]; intros i Hi;
    [discriminate|].
  apply NoDup_cons in items_distinct as [Hx Hr].
  destruct i as [| i]; simpl in *.
  - injection Hi as ->. now rewrite decide_True.
  - rewrite decide_False.
    + now rewrite (IH Hr i Hi).
    + intros ->. apply Hx. eapply list_elem_of_lookup_2, Hi.
Qed.

Lemma for_each_audit k l :
  (k < length items)%nat → Forall (λ i, (i < length items)%nat) l →
  ∃ rows, for_each (audit_row items dup_edges k) l = Ok rows
          ∧ length rows = length l.
Proof.
  intros Hk. destruct (lookup_lt_is_Some_2 items k Hk) as [K HK].
  induction 1 as [| i r Hi Hr (rows & Hrows & Hlen)]; cbn [for_each].
  - now exists [].
  - destruct (lookup_lt_is_Some_2 items i Hi) as [D HD].
    assert (Hrow : ∃ row, audit_row items dup_edges k i = Ok row).
    { unfold audit_row, item_at. rewrite HK, HD. simpl. eauto. }
    destruct Hrow as [row Hrow]. rewrite Hrow. cbn [mbind result_bind].
    rewrite Hrows. exists (row :: rows). split; [reflexivity|].
    simpl. now rewrite Hlen.
Qed.

Lemma select_cluster_spec st c :
  well_formed items c →
  ∃ k rows,
    select_cluster items dup_edges keep_pol st c
      = Ok ({[ k ]} ∪ st.1, st.2 ++ rows)
    ∧ best items keep_pol c k
    ∧ (length rows + 1 = length c.2)%nat.
Proof.
  intros (Hnd & Hne & Hval). unfold select_cluster, best.
  destruct c as [rid idxs]. cbn [snd] in *.
  destruct idxs as [| i [| j r]]; [congruence | |]; cbn [snd].
  - apply Forall_inv in Hval.
    destruct (lookup_lt_is_Some_2 items i Hval) as [K HK].
    exists i, []. rewrite app_nil_r. split; [reflexivity|].
    split; [| reflexivity]. split; [apply list_elem_of_here|].
    exists K. split; [exact HK|]. intros i' I Hi' HI.
    apply list_elem_of_singleton in Hi' as ->.
    assert (I = K) as -> by congruence. apply keep_pol_refl.
  - set (idxs := i :: j :: r) in *.
    destruct (for_each_item_at idxs Hval) as (grp & Hgrp & Hall).
    rewrite Hgrp. cbn [mbind result_bind].
    pose proof (py_sort_perm (policy_before keep_pol) grp) as Hperm.
    pose proof (py_sort_sorted (policy_before keep_pol) (keep_pol_total keep_pol)
                  (keep_pol_trans keep_pol) grp) as Hsorted.
    destruct (py_sort (policy_before keep_pol) grp) as [| g0 tl] eqn:Hs.
    { apply Permutation_length in Hperm.
      apply Forall2_length in Hall. subst idxs. simpl in *. lia. }
    assert (Hg0 : g0 ∈ grp) by (rewrite <- Hperm; apply list_elem_of_here).
    apply list_elem_of_lookup in Hg0 as (p & Hp).
    destruct (Forall2_lookup_r _ _ _ _ _ Hall Hp) as (k & Hkp & Hk).
    assert (Hkin : k ∈ idxs) by (eapply list_elem_of_lookup_2, Hkp).
    assert (Hklt : (k < length items)%nat) by (eapply lookup_lt_Some, Hk).
    rewrite (index_of_lookup k g0 Hk). cbn [mbind result_bind].
    destruct (for_each_audit k (filter (λ i0, i0 ≠ k) idxs) Hklt)
      as (rows & Hrows & Hlen).
    { apply Forall_forall. intros x Hx. apply list_elem_of_filter in Hx as [_ Hx].
      rewrite Forall_forall in Hval. now apply Hval. }
    rewrite Hrows. cbn [mbind result_bind].
    exists k, rows. split; [reflexivity|]. split.
    + split; [exact Hkin|]. exists g0. split; [exact Hk|].
      intros i' I Hi' HI.
      apply list_elem_of_lookup in Hi' as (q & Hq).
      destruct (Forall2_lookup_l _ _ _ _ _ Hall Hq) as (I' & HI' & HiI').
      assert (I' = I) as -> by congruence.
      assert (HIn : I ∈ g0 :: tl).
      { rewrite Hperm. eapply list_elem_of_lookup_2, HI'. }
      apply StronglySorted_inv in Hsorted as [_ Hfirst].
      apply elem_of_cons in HIn as [-> | HIn]; [apply keep_pol_refl|].
      rewrite Forall_forall in Hfirst. now apply Hfirst.
    + rewrite Hlen. now apply filter_ne_length.
Qed.

Lemma select_spec clusters :
  ∀ st, Forall (well_formed items) clusters →
  ∃ chosen rows,
    select items dup_edges keep_pol clusters st
      = Ok (list_to_set chosen ∪ st.1, st.2 ++ rows)
    ∧ Forall2 (best items keep_pol) clusters chosen
    ∧ (length rows + length clusters = length (concat clusters.*2))%nat.
Proof.
  induction clusters as [| c rest IH]; intros st Hwf.
  - exists [], []. simpl. rewrite app_nil_r, union_empty_l_L.
    destruct st. repeat split. constructor.
  - apply Forall_cons in Hwf as [Hc Hrest].
    destruct (select_cluster_spec st c Hc) as (k & rows1 & Hsel & Hbest & Hlen1).
    destruct (IH ({[ k ]} ∪ st.1, st.2 ++ rows1) Hrest)
      as (chosen & rows & Hrun & Hall & Hlen).
    cbn [fst snd] in Hrun.
    exists (k :: chosen), (rows1 ++ rows). cbn [select]. rewrite Hsel.
    cbn [mbind result_bind]. rewrite Hrun.
    split; [| split].
    + rewrite list_to_set_cons, (union_comm_L {[ k ]} (list_to_set chosen)).
      now rewrite <- union_assoc_L, app_assoc.
    + now constructor.
    + rewrite fmap_cons. cbn [concat length]. rewrite !length_app. lia.
Qed.

Lemma select_wf (n := length items) (clusters : list (nat * list nat)) :
  Forall (λ c : nat * list nat, c.2 ≠ []) clusters →
  concat clusters.*2 ≡ₚ seq 0 n →
  Forall (well_formed items) clusters.
Proof.
  intros Hne Hperm. rewrite Forall_forall in Hne |- *. intros c Hc.
  assert (Hnd : NoDup (concat clusters.*2)) by (rewrite Hperm; apply NoDup_seq).
  assert (Hin : c.2 ∈ clusters.*2) by now apply list_elem_of_fmap_2.
  split; [| split].
  - now apply (concat_NoDup_each clusters.*2).
  - now apply Hne.
  - apply Forall_forall. intros i Hi.
    assert (Hseq : i ∈ seq 0 n).
    { rewrite <- Hperm. apply concat_lookup.
      apply list_elem_of_lookup in Hin as (p & Hp). eauto. }
    apply elem_of_seq in Hseq. lia.
Qed.

End SelectFacts.

Lemma filter_combine_fst {A B} (Q : A → Prop) `{∀ x, Decision (Q x)} (xs : list A) :
  ∀ ys : list B, length xs = length ys →
    (filter (λ p : A * B, Q p.1) (combine xs ys)).*1 = filter Q xs.
Proof.
  induction xs as [| x xs IH]; intros [| y ys] Hlen; simpl in Hlen;
    try discriminate; [reflexivity|].
  cbn [combine]. destruct (decide (Q x)) as [Hq | Hq].
  - rewrite !filter_cons_True by assumption. rewrite fmap_cons. cbn [fst].
    f_equal. apply IH. lia.
  - rewrite !filter_cons_False by assumption. apply IH. lia.
Qed.

Lemma kept_items_length (items : list Item) (keep : gset nat) :
  (∀ k, k ∈ keep → (k < length items)%nat) →
  length (kept_items items keep) = size keep.
Proof.
  intros Hsub. unfold kept_items, enumerate.
  rewrite length_fmap, <- (length_fmap fst).
  pose proof (filter_combine_fst (λ i, i ∈ keep) (seq 0 (length items)) items
                (length_seq _ _)) as Hfst.
  cbv beta in Hfst. rewrite Hfst. clear Hfst.
  assert (Hnd : NoDup (filter (λ i, i ∈ keep) (seq 0 (length items))))
    by apply NoDup_filter, NoDup_seq.
  rewrite <- (size_list_to_set (C := gset nat) _ Hnd). f_equal.
  apply set_eq. intros x.
  rewrite elem_of_list_to_set, list_elem_of_filter, elem_of_seq.
  split; [tauto | intros Hx; split; [exact Hx | specialize (Hsub x Hx); lia]].
Qed.

(** X30.  For distinct lines and edges between indices of the list, the
    union-find and the selection loop of [main] return without an error,
    given enough fuel.  Every line is joined by a chain of edges to exactly
    one kept index; no line of a kept index's component precedes the kept
    line under the policy; and the lines written out and the audit rows
    together are as many as the input lines. *)
Theorem keeps_best_of_each_component (items : list Item)
    (dup_edges : list (nat * nat * string)) (keep_pol : string) :
  NoDup items →
  (∀ e, e ∈ dup_edges →
        (e.1.1 < length items)%nat ∧ (e.1.2 < length items)%nat) →
  ∃ fuel0 keep rows,
    (∀ fuel, (fuel0 <= fuel)%nat →
             cluster_and_select fuel items dup_edges keep_pol
             = Some (Ok (keep, rows)))
    ∧ (∀ i, (i < length items)%nat →
            ∃ k, k ∈ keep ∧ Clustering.connected dup_edges i k
                 ∧ ∀ k', k' ∈ keep → Clustering.connected dup_edges i k' → k' = k)
    ∧ (∀ k i K I, k ∈ keep → Clustering.connected dup_edges k i →
                  items !! k = Some K → items !! i = Some I →
                  policy_before keep_pol K I = true)
    ∧ (length (kept_items items keep) + length rows = length items)%nat.
Proof.
  intros Hdist Hval. set (n := length items).
  destruct (Clustering.clusters_spec n dup_edges Hval)
    as (F & clusters & Hcl & _ & Hne & Hperm & Hconn).
  pose proof (select_wf items clusters Hne Hperm) as Hwf.
  destruct (select_spec items dup_edges keep_pol Hdist clusters (∅, []) Hwf)
    as (chosen & rows & Hsel & Hall & Hlen).
  cbn [fst snd app] in Hsel. rewrite union_empty_r_L in Hsel.
  assert (Hnd : NoDup (concat clusters.*2)) by (rewrite Hperm; apply NoDup_seq).
  assert (Hlt : ∀ p c x, clusters !! p = Some c → x ∈ c.2 → (x < n)%nat).
  { intros p c x Hp Hx.
    assert (Hseq : x ∈ seq 0 n).
    { rewrite <- Hperm. apply concat_lookup. exists p, c.2.
      split; [| exact Hx]. now rewrite list_lookup_fmap, Hp. }
    apply elem_of_seq in Hseq. lia. }
  assert (Hdisj : ∀ p q c c' x, clusters !! p = Some c → clusters !! q = Some c' →
                    x ∈ c.2 → x ∈ c'.2 → p = q).
  { intros p q c c' x Hp Hq Hx Hx'.
    apply (concat_disjoint clusters.*2 Hnd p q c.2 c'.2 x); auto;
      rewrite list_lookup_fmap; [now rewrite Hp | now rewrite Hq]. }
  assert (Hhome : ∀ i, (i < n)%nat → ∃ p c, clusters !! p = Some c ∧ i ∈ c.2).
  { intros i Hi.
    assert (Hseq : i ∈ concat clusters.*2).
    { rewrite Hperm. apply elem_of_seq. lia. }
    apply concat_lookup in Hseq as (p & l & Hp & Hil).
    rewrite list_lookup_fmap in Hp.
    destruct (clusters !! p) as [c |] eqn:Hc; [| discriminate].
    injection Hp as <-. eauto. }
  assert (Hjoin : ∀ i j, (i < n)%nat → (j < n)%nat →
            Clustering.connected dup_edges i j →
            ∃ p c, clusters !! p = Some c ∧ i ∈ c.2 ∧ j ∈ c.2).
  { intros i j Hi Hj Hij. apply (Hconn i j Hi Hj) in Hij as (c & Hc & Hic & Hjc).
    apply list_elem_of_lookup in Hc as (p & Hp). eauto. }
  assert (Hkept : ∀ k, k ∈ (list_to_set chosen : gset nat) →
            ∃ p c, clusters !! p = Some c ∧ chosen !! p = Some k
                   ∧ best items keep_pol c k).
  { intros k Hk. apply elem_of_list_to_set, list_elem_of_lookup in Hk as (p & Hp).
    destruct (Forall2_lookup_r _ _ _ _ _ Hall Hp) as (c & Hc & Hb). eauto. }
  exists F, (list_to_set chosen), rows.
  split; [| split; [| split]].
  - intros fuel Hfuel. unfold cluster_and_select. fold n.
    rewrite (Hcl fuel Hfuel). now rewrite Hsel.
  - intros i Hi. destruct (Hhome i Hi) as (p & c & Hp & Hic).
    destruct (Forall2_lookup_l _ _ _ _ _ Hall Hp) as (k & Hk & Hb).
    exists k. split; [| split].
    + apply elem_of_list_to_set. eapply list_elem_of_lookup_2, Hk.
    + apply (Hconn i k Hi); [apply (Hlt p c), Hb; exact Hp|].
      exists c. split; [eapply list_elem_of_lookup_2, Hp|]. split; [exact Hic | apply Hb].
    + intros k' Hk' Hik'.
      destruct (Hkept k' Hk') as (p' & c' & Hp' & Hck' & Hb').
      destruct (Hjoin i k' Hi (Hlt p' c' k' Hp' (proj1 Hb')) Hik')
        as (q & c'' & Hq & Hic'' & Hkc'').
      assert (q = p) as -> by exact (Hdisj q p c'' c i Hq Hp Hic'' Hic).
      assert (p = p') as ->
        by exact (Hdisj p p' c'' c' k' Hq Hp' Hkc'' (proj1 Hb')).
      congruence.
  - intros k i K I Hk Hki HK HI.
    destruct (Hkept k Hk) as (p & c & Hp & Hck & Hkc & K0 & HK0 & Hbest).
    assert (K0 = K) as -> by congruence.
    assert (Hi : (i < n)%nat) by (eapply lookup_lt_Some, HI).
    destruct (Hjoin k i (Hlt p c k Hp Hkc) Hi Hki) as (q & c' & Hq & Hkc' & Hic').
    assert (q = p) as -> by exact (Hdisj q p c' c k Hq Hp Hkc' Hkc).
    assert (c' = c) as -> by congruence.
    now apply (Hbest i I).
  - rewrite kept_items_length.
    + assert (Hndc : NoDup chosen).
      { apply NoDup_alt. intros p q k Hp Hq.
        destruct (Forall2_lookup_r _ _ _ _ _ Hall Hp) as (c & Hc & Hb).
        destruct (Forall2_lookup_r _ _ _ _ _ Hall Hq) as (c' & Hc' & Hb').
        apply (Hdisj p q c c' k Hc Hc'); [apply Hb | apply Hb']. }
      rewrite (size_list_to_set _ Hndc).
      apply Forall2_length in Hall. apply Permutation_length in Hperm.
      rewrite length_seq in Hperm. fold n. lia.
    + intros k Hk. destruct (Hkept k Hk) as (p & c & Hp & _ & Hkc & _).
      apply (Hlt p c k Hp Hkc).
Qed.

Example cluster_and_select_run :
  cluster_and_select 5 run_items [(1%nat, 2%nat, "同域高相似")] "earliest"
  = Some (Ok ({[ 0%nat; 2%nat ]},
              [ {| kept_id := "c"; kept_title := "story, again";
                   dropped_id := "b"; dropped_title := "story";
                   reason := "同域高相似" |} ]))
  ∧ kept_items run_items {[ 0%nat; 2%nat ]}
    = [line "a" "9月20日" "other"; line "c" "9月17日" "story, again"].
Proof. split; vm_compute; reflexivity. Qed.

Lemma keeps_best_of_each_component_witness :
  ∃ fuel0 keep rows,
    (∀ fuel, (fuel0 <= fuel)%nat →
             cluster_and_select fuel run_items [(1%nat, 2%nat, "同域高相似")] "earliest"
             = Some (Ok (keep, rows)))
    ∧ (∀ i, (i < length run_items)%nat →
            ∃ k, k ∈ keep
                 ∧ Clustering.connected [(1%nat, 2%nat, "同域高相似")] i k
                 ∧ ∀ k', k' ∈ keep →
                         Clustering.connected [(1%nat, 2%nat, "同域高相似")] i k' →
                         k' = k)
    ∧ (∀ k i K I, k ∈ keep →
                  Clustering.connected [(1%nat, 2%nat, "同域高相似")] k i →
                  run_items !! k = Some K → run_items !! i = Some I →
                  policy_before "earliest" K I = true)
    ∧ (length (kept_items run_items keep) + length rows = length run_items)%nat.
Proof.
  apply (keeps_best_of_each_component run_items
           [(1%nat, 2%nat, "同域高相似")] "earliest").
  - apply (bool_decide_unpack (NoDup run_items)). vm_compute. reflexivity.
  - intros e He. apply list_elem_of_singleton in He as ->. simpl. lia.
Defined.

End Selection.
